(** * Embedding quality measures (src/evaluation/measures.py)

    A shallow embedding of the dimensionality-reduction quality measures
    [stress], [RMSE], [trustworthiness], [continuity] and
    [neighbouhood_loss], together with their helpers [pairwise_distances]
    and [get_neighbours_and_ranks].

    Numbers are the ones the program computes with:
    - [np.float64] and Python's [float] are Rocq's primitive binary64
      [float]; [+], [-], [*], [/] and [sqrt] are the IEEE 754 operations,
      NaN, the infinities and the signed zeros included.  On arrays, [**2]
      is numpy's [square] and [**0.5] its [sqrt];
    - array indices ([np.int64]) are [nat]; Python integers ([k], [n]) are
      [Z], of any size.  [np.int64] arithmetic wraps around, and a Python
      integer that meets an [np.int64] has to fit one (numpy 2);
    - the quotient of two Python integers is rounded once, to the nearest
      binary64 number, whatever their size; an integer is converted to
      binary64 ([Z2F]) in the same way;
    - a Python exception is a [Raise] result.  Python's own divisions raise
      [ZeroDivisionError] and [OverflowError]; numpy's scalar division
      does not: it returns NaN or an infinity and reports the
      floating-point status as a [RuntimeWarning] (numpy's default error
      state).  The warnings of the final scalar division and square root of
      [stress] and [RMSE] are returned next to the value; the warnings that
      operations on whole arrays and on int64 scalars emit on the way are
      not recorded;
    - [np.sum] adds as numpy does over contiguous float64 entries: fewer
      than eight from the left, up to 128 in eight interleaved running sums,
      more by halving ([pairwise_sum]);
    - a matrix is a list of rows.  An array has fewer than [2^63] rows; the
      statements that need this of a list say so.

    The statements at the end of the module, which draw random data and
    print the five measures, are not part of the embedding. *)

From Stdlib Require Import List Bool Arith ZArith Lia Permutation Sorted.
From Stdlib Require Import Uint63 Floats.
Import ListNotations.

(* ================================================================== *)
(** * The Python side: exceptions, slices, integer division           *)
(* ================================================================== *)

Inductive exn : Type :=
| ZeroDivisionError
| OverflowError
| IndexError
| ValueError.

Inductive pyres (A : Type) : Type :=
| Ok (a : A)
| Raise (e : exn).

Arguments Ok {A} a.
Arguments Raise {A} e.

Definition bind {A B : Type} (c : pyres A) (k : A -> pyres B) : pyres B :=
  match c with
  | Ok a => k a
  | Raise e => Raise e
  end.

Notation "x <- c ;; k" := (bind c (fun x => k))
  (at level 61, c at next level, right associativity).
Notation "' p <- c ;; k" := (bind c (fun x => match x with p => k end))
  (at level 61, p pattern, c at next level, right associativity).

Definition raises {A : Type} (c : pyres A) : bool :=
  match c with
  | Ok _ => false
  | Raise _ => true
  end.

(** [for x in l: acc = body(acc, x)], stopping at the first exception. *)
Fixpoint for_each {A S : Type} (l : list A) (body : S -> A -> pyres S)
  (acc : S) : pyres S :=
  match l with
  | [] => Ok acc
  | x :: l' => acc' <- body acc x ;; for_each l' body acc'
  end.

(** [a[i]] for a non-negative index. *)
Definition getitem {A : Type} (a : list A) (i : nat) : pyres A :=
  match nth_error a i with
  | Some x => Ok x
  | None => Raise IndexError
  end.

(** A slice bound, as Python clamps it against the length [len]. *)
Definition slice_bound (len i : Z) : Z :=
  if (i <? 0)%Z then Z.max 0 (i + len) else Z.min i len.

(** [a[start:stop]]. *)
Definition py_slice {A : Type} (a : list A) (start stop : Z) : list A :=
  let len := Z.of_nat (length a) in
  let lo := slice_bound len start in
  let hi := slice_bound len stop in
  firstn (Z.to_nat (hi - lo)) (skipn (Z.to_nat lo) a).

(** Conversion of an integer to binary64: the nearest binary64 number,
    ties to even; an infinity from [2^1024 - 2^970] on. *)
Definition Z2F (z : Z) : float :=
  SF2Prim (binary_normalize prec emax z 0 false).

(** An integer as a binary number that has not been rounded. *)
Definition Z2SF (z : Z) : spec_float :=
  match z with
  | Z0 => S754_zero false
  | Zpos p => S754_finite false p 0
  | Zneg p => S754_finite true p 0
  end.

(** [a / b] on Python integers: true division.  A zero divisor raises
    [ZeroDivisionError]; otherwise the result is the quotient of the two
    integers, rounded once to the nearest binary64 number (ties to even),
    and [OverflowError] if it is too large for one. *)
Definition int_truediv (a b : Z) : pyres float :=
  if (b =? 0)%Z then Raise ZeroDivisionError
  else match SFdiv prec emax (Z2SF a) (Z2SF b) with
       | S754_infinity _ => Raise OverflowError
       | q => Ok (SF2Prim q)
       end.

(** [x / n] for a Python float [x] and a Python integer [n]. *)
Definition float_truediv_int (x : float) (n : Z) : pyres float :=
  if (n =? 0)%Z then Raise ZeroDivisionError
  else if is_infinity (Z2F n) then Raise OverflowError
  else Ok (PrimFloat.div x (Z2F n)).

(** The values of an [np.int64], and the value an integer wraps around to. *)
Definition in_int64 (z : Z) : bool :=
  (- 2 ^ 63 <=? z)%Z && (z <? 2 ^ 63)%Z.

Definition wrap_int64 (z : Z) : Z :=
  ((z + 2 ^ 63) mod 2 ^ 64 - 2 ^ 63)%Z.

(** [a - k] for an [np.int64] [a] and a Python integer [k]: [k] becomes an
    int64, which raises [OverflowError] when it does not fit; the
    difference is an int64 again. *)
Definition int64_sub_pyint (a k : Z) : pyres Z :=
  if in_int64 k then Ok (wrap_int64 (a - k)) else Raise OverflowError.

(* ================================================================== *)
(** * The numpy side                                                   *)
(* ================================================================== *)

Abbreviation vector := (list float).
Abbreviation matrix := (list (list float)).

(** The floating-point conditions numpy reports (error state [warn]). *)
Inductive RuntimeWarning : Type :=
| DivideByZero
| Overflow
| InvalidValue.

(** A numpy scalar together with the warnings that the scalar operations
    of its computation emitted. *)
Definition np_scalar : Type := (float * list RuntimeWarning)%type.

(** [x / y] on numpy float64 scalars: never raises; the IEEE status flags
    of the division become warnings. *)
Definition np_true_divide (x y : float) : np_scalar :=
  let q := PrimFloat.div x y in
  let w :=
    if is_nan x || is_nan y then []
    else if is_nan q then [InvalidValue]
    else if is_zero y && is_finite x then [DivideByZero]
    else if is_infinity q && is_finite x then [Overflow]
    else [] in
  (q, w).

(** [np.sqrt] on a numpy scalar. *)
Definition np_sqrt (x : np_scalar) : np_scalar :=
  let '(v, w) := x in
  (PrimFloat.sqrt v, w ++ (if PrimFloat.ltb v PrimFloat.zero then [InvalidValue] else [])).

Definition np_square (x : float) : float := PrimFloat.mul x x.

Section PairwiseSum.

Context {T : Type}.
Variable add : T -> T -> T.
Variable zero : T.

(** [r[j] += a[i + j]] for the eight running sums [r]. *)
Definition add_lanes (r chunk : list T) : list T :=
  map (fun '(x, y) => add x y) (combine r chunk).

(** [for (i = 8; i < n - n % 8; i += 8)]: the running sums after [blocks]
    rounds, and the entries that are left. *)
Fixpoint unrolled (blocks : nat) (r a : list T) : list T * list T :=
  match blocks with
  | O => (r, a)
  | S blocks' => unrolled blocks' (add_lanes r (firstn 8 a)) (skipn 8 a)
  end.

(** A block of 8 to 128 entries: eight running sums over the entries taken
    eight at a time, added up as [((r0+r1)+(r2+r3))+((r4+r5)+(r6+r7))], then
    the [n % 8] last entries one by one. *)
Definition sum_block (a : list T) : T :=
  let '(r, rest) := unrolled (length a / 8 - 1) (firstn 8 a) (skipn 8 a) in
  let res :=
    add (add (add (nth 0 r zero) (nth 1 r zero)) (add (nth 2 r zero) (nth 3 r zero)))
        (add (add (nth 4 r zero) (nth 5 r zero)) (add (nth 6 r zero) (nth 7 r zero))) in
  fold_left add rest res.

(** numpy's [pairwise_sum] over [n] contiguous entries: from the left for
    [n < 8], as one block for [n <= 128], and otherwise the sum of the two
    halves, the first of [n/2] entries rounded down to a multiple of 8.
    The recursion is at most [fuel] deep; the length of [a] is enough. *)
Fixpoint pairwise_sum (fuel : nat) (a : list T) : T :=
  let n := length a in
  if n <? 8 then fold_left add a zero
  else if n <=? 128 then sum_block a
  else match fuel with
       | O => sum_block a
       | S fuel' =>
           let n2 := n / 2 - (n / 2) mod 8 in
           add (pairwise_sum fuel' (firstn n2 a)) (pairwise_sum fuel' (skipn n2 a))
       end.

End PairwiseSum.

(** [np.sum] over the contiguous entries [v]: the reduction starts from
    zero and adds their pairwise sum.  (No entry summed in this program is
    [-0], so the sign of the zeros the sums start from does not matter.) *)
Definition np_sum (v : vector) : float :=
  PrimFloat.add PrimFloat.zero
    (pairwise_sum PrimFloat.add PrimFloat.zero (length v) v).

(** [M.sum()] over all entries, in row-major order. *)
Definition np_sum_all (M : matrix) : float := np_sum (concat M).

(** The order numpy sorts float64 by: [<], with NaN after everything. *)
Definition np_less (a b : float) : bool :=
  PrimFloat.ltb a b || (is_nan b && negb (is_nan a)).

Section Argsort.

Context {A : Type}.
Variable less : A -> A -> bool.

(** Insertion of an entry that comes from further left than everything
    in [s]: it goes in front of the entries it ties with. *)
Fixpoint insert_stable (x : nat * A) (s : list (nat * A)) : list (nat * A) :=
  match s with
  | [] => [x]
  | y :: s' =>
      if less (snd y) (snd x) then y :: insert_stable x s' else x :: s
  end.

Definition stable_sort (l : list (nat * A)) : list (nat * A) :=
  fold_right insert_stable [] l.

Definition enumerate (l : list A) : list (nat * A) :=
  combine (seq 0 (length l)) l.

(** [np.argsort(l, kind='stable')]: the indices of [l] in ascending
    order of their entries, equal entries in index order. *)
Definition argsort (l : list A) : list nat :=
  map fst (stable_sort (enumerate l)).

End Argsort.

(** [np.unique]: the distinct values, ascending. *)
Fixpoint insert_unique (x : nat) (s : list nat) : list nat :=
  match s with
  | [] => [x]
  | y :: s' =>
      if x <? y then x :: s
      else if x =? y then s
      else y :: insert_unique x s'
  end.

Definition np_unique (l : list nat) : list nat :=
  fold_right insert_unique [] l.

Definition mem (x : nat) (l : list nat) : bool := existsb (Nat.eqb x) l.

(** [np.setdiff1d(ar1, ar2)]: the sorted, unique values of [ar1] that are
    not in [ar2]. *)
Definition setdiff1d (ar1 ar2 : list nat) : list nat :=
  filter (fun x => negb (mem x (np_unique ar2))) (np_unique ar1).

(** [np.intersect1d(ar1, ar2)]: the sorted, unique values in both. *)
Definition intersect1d (ar1 ar2 : list nat) : list nat :=
  filter (fun x => mem x (np_unique ar2)) (np_unique ar1).

(** Entry by entry [A - B] for two matrices of the same shape. *)
Definition elementwise_sub (A B : matrix) : matrix :=
  map (fun '(ra, rb) => map (fun '(a, b) => PrimFloat.sub a b) (combine ra rb))
      (combine A B).

(** [A - B] on two square matrices, with numpy's broadcasting of a 1x1
    operand; other shape mismatches raise [ValueError]. *)
Definition np_subtract (A B : matrix) : pyres matrix :=
  let n := length A in
  let m := length B in
  if n =? m then Ok (elementwise_sub A B)
  else if n =? 1 then
    let a := hd PrimFloat.zero (hd [] A) in
    Ok (map (map (fun b => PrimFloat.sub a b)) B)
  else if m =? 1 then
    let b := hd PrimFloat.zero (hd [] B) in
    Ok (map (map (fun a => PrimFloat.sub a b)) A)
  else Raise ValueError.

(* ================================================================== *)
(** * The measures                                                     *)
(* ================================================================== *)

(** [D = np.sum((X[None, :] - X[:, None])**2, -1)**0.5] *)
Definition pairwise_distances (X : matrix) : matrix :=
  let diff :=
    map (fun xi => map (fun xj => map (fun '(a, b) => PrimFloat.sub a b) (combine xj xi)) X) X in
  let squared := map (map (map np_square)) diff in
  let summed := map (map np_sum) squared in
  map (map PrimFloat.sqrt) summed.

Definition stress (X Z : matrix) : pyres np_scalar :=
  let X := pairwise_distances X in
  let Z := pairwise_distances Z in
  diff <- np_subtract X Z ;;
  let sum_of_squared_differences := np_sum_all (map (map np_square) diff) in
  let sum_of_squares := np_sum_all (map (map np_square) Z) in
  Ok (np_sqrt (np_true_divide sum_of_squared_differences sum_of_squares)).

Definition RMSE (X Z : matrix) : pyres np_scalar :=
  let X := pairwise_distances X in
  let Z := pairwise_distances Z in
  let n := Z.of_nat (length X) in
  diff <- np_subtract X Z ;;
  let sum_of_squared_differences := np_sum_all (map (map np_square) diff) in
  Ok (np_sqrt (np_true_divide sum_of_squared_differences (Z2F (n ^ 2)))).

Definition get_neighbours_and_ranks (X : matrix) (k : Z)
  : pyres (list (list nat) * list (list nat)) :=
  let X := pairwise_distances X in
  let X_ranks := map (argsort np_less) X in
  let X_neighbourhood := map (fun row => py_slice row 1 (k + 1)) X_ranks in
  let X_ranks := map (argsort Nat.ltb) X_ranks in
  Ok (X_neighbourhood, X_ranks).

Definition trustworthiness (X Z : matrix) (k : BinNums.Z) : pyres float :=
  '(X_neighbourhood, X_ranks) <- get_neighbours_and_ranks X k ;;
  '(Z_neighbourhood, Z_ranks) <- get_neighbours_and_ranks Z k ;;
  result <-
    for_each (seq 0 (length X_ranks))
      (fun result row =>
         Z_row <- getitem Z_neighbourhood row ;;
         X_row <- getitem X_neighbourhood row ;;
         let missing_neighbours := setdiff1d Z_row X_row in
         for_each missing_neighbours
           (fun result neighbour =>
              ranks_row <- getitem X_ranks row ;;
              rank <- getitem ranks_row neighbour ;;
              difference <- int64_sub_pyint (Z.of_nat rank) k ;;
              Ok (PrimFloat.add result (Z2F difference)))
           result)
      PrimFloat.zero ;;
  let n := Z.of_nat (length X) in
  c <- int_truediv 2 (n * k * (2 * n - 3 * k - 1)) ;;
  Ok (PrimFloat.sub PrimFloat.one (PrimFloat.mul c result)).

Definition continuity (X Z : matrix) (k : BinNums.Z) : pyres float :=
  trustworthiness Z X k.

Definition neighbouhood_loss (X Z : matrix) (k : BinNums.Z) : pyres float :=
  '(X_neighbourhood, _) <- get_neighbours_and_ranks X k ;;
  '(Z_neighbourhood, _) <- get_neighbours_and_ranks Z k ;;
  let n := length X in
  result <-
    for_each (seq 0 n)
      (fun result row =>
         X_row <- getitem X_neighbourhood row ;;
         Z_row <- getitem Z_neighbourhood row ;;
         let shared_neighbours := intersect1d X_row Z_row in
         q <- int_truediv (Z.of_nat (length shared_neighbours)) k ;;
         Ok (PrimFloat.add result q))
      PrimFloat.zero ;;
  q <- float_truediv_int result (Z.of_nat n) ;;
  Ok (PrimFloat.sub PrimFloat.one q).

(* ================================================================== *)
(** * Names for what the properties talk about                         *)
(* ================================================================== *)

Definition Zsum (l : list Z) : Z := fold_right Z.add 0%Z l.

(** The Euclidean distance of two rows, as [pairwise_distances] computes
    it: [sqrt (sum_c (xj[c] - xi[c])^2)]. *)
Definition euclidean (xi xj : vector) : float :=
  PrimFloat.sqrt
    (np_sum (map np_square (map (fun '(a, b) => PrimFloat.sub a b) (combine xj xi)))).



(** Entry [(i, j)] of the distance matrix. *)
Definition distance (X : matrix) (i j : nat) : float :=
  nth j (nth i (pairwise_distances X) []) PrimFloat.zero.

(** Row [i] of the first argsort: the indices ordered by distance from [i]. *)
Definition orderings (X : matrix) : list (list nat) :=
  map (argsort np_less) (pairwise_distances X).

(** The two matrices [get_neighbours_and_ranks] returns. *)
Definition neighbourhoods (X : matrix) (k : Z) : list (list nat) :=
  map (fun row => py_slice row 1 (k + 1)) (orderings X).

Definition ranks (X : matrix) : list (list nat) :=
  map (argsort Nat.ltb) (orderings X).

Definition neighbourhood (X : matrix) (k : Z) (i : nat) : list nat :=
  nth i (neighbourhoods X k) [].

Definition rank (X : matrix) (i j : nat) : nat :=
  nth j (nth i (ranks X) []) 0.

(** A point cloud: [n] rows of [d] real coordinates. *)
Definition finite_row (x : vector) : Prop :=
  Forall (fun a => is_finite a = true) x.


(** No point with a smaller index lies at distance zero from point [i]. *)
Definition no_earlier_twin (X : matrix) (i : nat) : Prop :=
  forall j, j < i -> PrimFloat.eqb (distance X i j) PrimFloat.zero = false.

(** The indices in [Z]'s [k]-neighbourhood of [i] that are not in [X]'s. *)
Definition intruders (X Z : matrix) (k : BinNums.Z) (i : nat) : list nat :=
  filter (fun j => mem j (neighbourhood Z k i) && negb (mem j (neighbourhood X k i)))
         (seq 0 (length X)).

(** The sum, over every point [i] and every intruder [j] of [i], of the
    rank of [j] in [X]'s ranking from [i], minus [k]. *)
Definition trustworthiness_sum (X Z : matrix) (k : BinNums.Z) : BinNums.Z :=
  Zsum (map (fun i =>
               Zsum (map (fun j => (Z.of_nat (rank X i j) - k)%Z) (intruders X Z k i)))
            (seq 0 (length X))).

(** Some point has an intruder. *)
Definition has_intruder (X Z : matrix) (k : BinNums.Z) : bool :=
  existsb (fun i => match intruders X Z k i with [] => false | _ => true end)
          (seq 0 (length X)).

(** [1 - 2 / (n k (2n - 3k - 1)) * sum]. *)
Definition trustworthiness_formula (X Z : matrix) (k : BinNums.Z) : float :=
  let n := Z.of_nat (length X) in
  PrimFloat.sub PrimFloat.one
    (PrimFloat.mul (PrimFloat.div (Z2F 2) (Z2F (n * k * (2 * n - 3 * k - 1))))
                   (Z2F (trustworthiness_sum X Z k))).

(** The accumulation loops of [trustworthiness] and [neighbouhood_loss]. *)
Definition trustworthiness_loop (X Z : matrix) (k : BinNums.Z) : pyres float :=
  for_each (seq 0 (length (ranks X)))
    (fun result row =>
       Z_row <- getitem (neighbourhoods Z k) row ;;
       X_row <- getitem (neighbourhoods X k) row ;;
       let missing_neighbours := setdiff1d Z_row X_row in
       for_each missing_neighbours
         (fun result neighbour =>
            ranks_row <- getitem (ranks X) row ;;
            rank <- getitem ranks_row neighbour ;;
            difference <- int64_sub_pyint (Z.of_nat rank) k ;;
            Ok (PrimFloat.add result (Z2F difference)))
         result)
    PrimFloat.zero.

Definition neighbouhood_loss_loop (X Z : matrix) (k : BinNums.Z) : pyres float :=
  for_each (seq 0 (length X))
    (fun result row =>
       X_row <- getitem (neighbourhoods X k) row ;;
       Z_row <- getitem (neighbourhoods Z k) row ;;
       let shared_neighbours := intersect1d X_row Z_row in
       q <- int_truediv (Z.of_nat (length shared_neighbours)) k ;;
       Ok (PrimFloat.add result q))
    PrimFloat.zero.

(** Numerator and denominator of [stress]. *)
Definition sum_of_squared_differences (X Z : matrix) : float :=
  np_sum_all (map (map np_square)
                  (elementwise_sub (pairwise_distances X) (pairwise_distances Z))).

Definition sum_of_squares (Z : matrix) : float :=
  np_sum_all (map (map np_square) (pairwise_distances Z)).

(** No entry of the distance matrix has overflowed. *)
Definition finite_distances (X : matrix) : Prop :=
  Forall (Forall (fun x => is_finite x = true)) (pairwise_distances X).

(** [k] is a neighbourhood size for [n] points. *)
Definition valid_k (n : nat) (k : Z) : Prop :=
  (1 <= k <= Z.of_nat n - 1)%Z.

(* ================================================================== *)
(** * Vocabulary for the binary64 lemmas                               *)
(* ================================================================== *)

Definition sf_signed (sx : bool) (r : spec_float) : Prop :=
  match r with
  | S754_zero s | S754_infinity s | S754_finite s _ _ => s = sx
  | S754_nan => False
  end.

Definition shl (p : positive) (n : nat) : positive := Nat.iter n xO p.

Definition digits (p : positive) : Z := Z.pos (digits2_pos p).

Definition canon (s : bool) (v : positive) : spec_float :=
  S754_finite s (shl v (Z.to_nat (53 - digits v))) (digits v - 53).

Definition canonZ (z : Z) : spec_float :=
  match z with
  | Z0 => S754_zero false
  | Zpos v => canon false v
  | Zneg v => canon true v
  end.

(** [+0], the positive finite numbers and [+infinity]. *)
Definition nonneg (x : float) : Prop := sf_signed false (Prim2SF x).

(** [nonneg], or NaN. *)
Definition nonneg_or_nan (x : float) : Prop :=
  match Prim2SF x with
  | S754_nan => True
  | S754_zero s | S754_infinity s | S754_finite s _ _ => s = false
  end.

(** A position of each binary64 number on one line: NaN last, the two
    zeros together; two numbers compare under [np_less] as their positions
    do lexicographically. *)
Definition sf_key (s : spec_float) : Z * Z * Z :=
  match s with
  | S754_nan => (3, 0, 0)
  | S754_infinity false => (2, 0, 0)
  | S754_infinity true => (-2, 0, 0)
  | S754_zero _ => (0, 0, 0)
  | S754_finite false m e => (1, e, Z.pos m)
  | S754_finite true m e => (-1, - e, Z.neg m)
  end%Z.

Definition lex3 (a b : Z * Z * Z) : Prop :=
  let '(a1, a2, a3) := a in
  let '(b1, b2, b3) := b in
  (a1 < b1 \/ (a1 = b1 /\ (a2 < b2 \/ (a2 = b2 /\ a3 < b3))))%Z.

(** The order of a stable sort on indexed entries: by entry, and by index
    among entries that tie. *)
Definition sorts_before {A : Type} (less : A -> A -> bool) (p q : nat * A) : Prop :=
  less (snd p) (snd q) = true \/ (less (snd q) (snd p) = false /\ fst p < fst q).

(** The same order on the indices of a row [l]. *)
Definition index_before {A : Type} (less : A -> A -> bool) (l : list A) (d : A)
    (a b : nat) : Prop :=
  less (nth a l d) (nth b l d) = true
  \/ (less (nth b l d) (nth a l d) = false /\ a < b).

(** The number of entries the slice [1:k+1] keeps of a row of [n]
    entries: [k] of them, at most [n - 1]; for a negative [k] the end of the
    slice counts from the end of the row. *)
Definition neighbourhood_size (n : nat) (k : Z) : nat :=
  if (0 <=? k)%Z then Z.to_nat (Z.min k (Z.of_nat n - 1))
  else if (k =? -1)%Z then 0
  else Z.to_nat (Z.of_nat n + k).

(** Point [i] has finite coordinates and no twin with a smaller index. *)
Definition untwinned (X : matrix) (i : nat) : Prop :=
  finite_row (nth i X []) /\ no_earlier_twin X i.

(* ================================================================== *)
(** * Pairwise summation                                               *)
(* ================================================================== *)

(** The recursion of [pairwise_sum] ends before its fuel does: any fuel
    from the number of entries on gives the same sum. *)
Lemma pairwise_sum_fuel {T : Type} (add : T -> T -> T) (zero : T) f1 :
  forall f2 a, length a <= f1 -> length a <= f2 ->
    pairwise_sum add zero f1 a = pairwise_sum add zero f2 a.
Proof.
  induction f1 as [|f1 IH]; intros f2 a H1 H2.
  - destruct a; [|simpl in H1; lia]. destruct f2; reflexivity.
  - destruct f2 as [|f2].
    + destruct a; [|simpl in H2; lia]. reflexivity.
    + cbn [pairwise_sum].
      destruct (length a <? 8) eqn:E8; [reflexivity|].
      destruct (length a <=? 128) eqn:E128; [reflexivity|].
      apply Nat.leb_gt in E128.
      assert (B : 1 <= length a / 2 - (length a / 2) mod 8 <= length a / 2).
      { pose proof (Nat.mod_upper_bound (length a / 2) 8 ltac:(lia)).
        assert (64 <= length a / 2) by (apply Nat.div_le_lower_bound; lia).
        lia. }
      assert (length a / 2 < length a) by (apply Nat.div_lt; lia).
      f_equal; apply IH; rewrite ?length_firstn, ?length_skipn; lia.
Qed.

Section PairwiseSumRelated.

Context {T1 T2 : Type}.
Variable add1 : T1 -> T1 -> T1.
Variable add2 : T2 -> T2 -> T2.
Variable zero1 : T1.
Variable zero2 : T2.
Variable R : T1 -> T2 -> Prop.
Hypothesis R_zero : R zero1 zero2.
Hypothesis R_add :
  forall x y x' y', R x y -> R x' y' -> R (add1 x x') (add2 y y').

Lemma fold_left_related a b :
  Forall2 R a b -> forall x y, R x y -> R (fold_left add1 a x) (fold_left add2 b y).
Proof. induction 1; simpl; auto. Qed.

Lemma Forall2_firstn n : forall a b,
  Forall2 R a b -> Forall2 R (firstn n a) (firstn n b).
Proof.
  induction n as [|n IH]; intros a b H; simpl; [constructor|].
  destruct H; constructor; auto.
Qed.

Lemma Forall2_skipn n : forall a b,
  Forall2 R a b -> Forall2 R (skipn n a) (skipn n b).
Proof.
  induction n as [|n IH]; intros a b H; simpl; auto.
  destruct H; auto.
Qed.

Lemma add_lanes_related r r' :
  Forall2 R r r' -> forall c c', Forall2 R c c' ->
  Forall2 R (add_lanes add1 r c) (add_lanes add2 r' c').
Proof.
  unfold add_lanes. induction 1 as [|x y r r' Hxy Hr IH]; intros c c' Hc; simpl.
  - constructor.
  - destruct Hc; simpl; constructor; auto.
Qed.

Lemma unrolled_related blocks : forall r r' a a',
  Forall2 R r r' -> Forall2 R a a' ->
  Forall2 R (fst (unrolled add1 blocks r a)) (fst (unrolled add2 blocks r' a')) /\
  Forall2 R (snd (unrolled add1 blocks r a)) (snd (unrolled add2 blocks r' a')).
Proof.
  induction blocks as [|blocks IH]; intros r r' a a' Hr Ha; cbn [unrolled]; auto.
  apply IH.
  - apply add_lanes_related; auto using Forall2_firstn.
  - now apply Forall2_skipn.
Qed.

Lemma nth_related i : forall r r',
  Forall2 R r r' -> R (nth i r zero1) (nth i r' zero2).
Proof.
  induction i as [|i IH]; intros r r' H; destruct H; simpl; auto.
Qed.

Lemma sum_block_related a b :
  Forall2 R a b -> R (sum_block add1 zero1 a) (sum_block add2 zero2 b).
Proof.
  intros H. unfold sum_block. rewrite <- (Forall2_length H).
  destruct (unrolled_related (length a / 8 - 1) (firstn 8 a) (firstn 8 b)
              (skipn 8 a) (skipn 8 b)) as [Hr Hrest];
    auto using Forall2_firstn, Forall2_skipn.
  destruct (unrolled add1 _ _ _) as [r rest].
  destruct (unrolled add2 _ _ _) as [r' rest']. cbn [fst snd] in *.
  apply fold_left_related; auto.
  repeat apply R_add; now apply nth_related.
Qed.

Lemma pairwise_sum_related fuel : forall a b,
  Forall2 R a b ->
  R (pairwise_sum add1 zero1 fuel a) (pairwise_sum add2 zero2 fuel b).
Proof.
  induction fuel as [|fuel IH]; intros a b H; cbn [pairwise_sum];
    rewrite <- (Forall2_length H);
    destruct (length a <? 8); auto using fold_left_related;
    destruct (length a <=? 128); auto using sum_block_related.
  apply R_add; apply IH; auto using Forall2_firstn, Forall2_skipn.
Qed.

End PairwiseSumRelated.

(** A property of the entries that addition preserves holds of their sum. *)
Lemma pairwise_sum_closed {T : Type} (add : T -> T -> T) (zero : T)
    (P : T -> Prop) fuel a :
  P zero -> (forall x y, P x -> P y -> P (add x y)) ->
  Forall P a -> P (pairwise_sum add zero fuel a).
Proof.
  intros P0 Padd H.
  apply (pairwise_sum_related add (fun _ _ => tt) zero tt (fun x _ => P x) P0
           (fun x _ x' _ => Padd x x') fuel a (map (fun _ => tt) a)).
  induction H; simpl; constructor; auto.
Qed.



Lemma Zsum_const {A : Type} (l : list A) c :
  Zsum (map (fun _ => c) l) = (Z.of_nat (length l) * c)%Z.
Proof.
  induction l as [|x l IH]; simpl length; simpl map; simpl Zsum.
  - reflexivity.
  - rewrite IH. lia.
Qed.

Lemma Zsum_nonneg l : Forall (fun z => 0 <= z)%Z l -> (0 <= Zsum l)%Z.
Proof. induction 1; simpl; lia. Qed.


Lemma Zsum_abs_le {A : Type} (G W : A -> Z) (l : list A) :
  (forall x, In x l -> (Z.abs (G x) <= W x)%Z) ->
  (Z.abs (Zsum (map G l)) <= Zsum (map W l))%Z.
Proof.
  induction l as [|x l IH]; intros H; simpl map; simpl Zsum.
  - lia.
  - specialize (IH (fun y I => H y (or_intror I))).
    specialize (H x (or_introl eq_refl)). lia.
Qed.






(* ================================================================== *)
(** * Binary64 facts                                                   *)
(* ================================================================== *)

Lemma Prim2SF_zero : Prim2SF PrimFloat.zero = S754_zero false.
Proof. reflexivity. Qed.
Lemma Prim2SF_one : Prim2SF PrimFloat.one = S754_finite false 4503599627370496 (-52).
Proof. reflexivity. Qed.
Lemma Prim2SF_infinity : Prim2SF infinity = S754_infinity false.
Proof. reflexivity. Qed.

Lemma SFcompare_refl s : s <> S754_nan -> SFcompare s s = Some Eq.
Proof.
  destruct s as [[]|[]| |[] m e]; simpl; try congruence; intros _;
    rewrite Z.compare_refl, Pos.compare_cont_refl; reflexivity.
Qed.

Lemma is_nan_spec x :
  is_nan x = match Prim2SF x with S754_nan => true | _ => false end.
Proof.
  unfold is_nan. rewrite eqb_spec. unfold SFeqb.
  destruct (Prim2SF x) eqn:E; try (rewrite SFcompare_refl by congruence; reflexivity).
  reflexivity.
Qed.

Lemma is_infinity_spec x :
  is_infinity x = match Prim2SF x with S754_infinity _ => true | _ => false end.
Proof.
  unfold is_infinity. rewrite eqb_spec, abs_spec, Prim2SF_infinity.
  destruct (Prim2SF x) as [[]|[]| |[] m e]; reflexivity.
Qed.

Lemma is_finite_spec x :
  is_finite x = match Prim2SF x with S754_zero _ | S754_finite _ _ _ => true | _ => false end.
Proof.
  unfold is_finite. rewrite is_nan_spec, is_infinity_spec.
  destruct (Prim2SF x); reflexivity.
Qed.

Lemma is_zero_spec x :
  is_zero x = match Prim2SF x with S754_zero _ => true | _ => false end.
Proof.
  unfold is_zero. rewrite eqb_spec, Prim2SF_zero.
  destruct (Prim2SF x) as [[]|[]| |[] m e]; reflexivity.
Qed.

(** x - x = +0 for finite x *)
Lemma sub_diag x : is_finite x = true -> PrimFloat.sub x x = PrimFloat.zero.
Proof.
  intros H. rewrite is_finite_spec in H.
  apply Prim2SF_inj. rewrite sub_spec, Prim2SF_zero.
  unfold SF64sub. destruct (Prim2SF x) as [[]|[]| |s m e]; try discriminate; try reflexivity.
  unfold SFsub. rewrite Z.sub_diag. reflexivity.
Qed.


(** ** Rounding never produces a NaN and keeps the sign it is given *)


Lemma iter_pos_inv {A} (P : A -> Prop) (f : A -> A) :
  (forall x, P x -> P (f x)) -> forall n x, P x -> P (iter_pos f n x).
Proof.
  intros Hf. induction n; intros x Hx; simpl; auto.
Qed.

Lemma shr_1_nonneg mrs : (0 <= shr_m mrs)%Z -> (0 <= shr_m (shr_1 mrs))%Z.
Proof.
  destruct mrs as [m r s]. simpl. destruct m as [|[p|p|]|p]; simpl; lia.
Qed.

Lemma shr_nonneg mrs e n :
  (0 <= shr_m mrs)%Z -> (0 <= shr_m (fst (shr mrs e n)))%Z.
Proof.
  intros H. destruct n; simpl; auto.
  apply (iter_pos_inv (fun r => (0 <= shr_m r)%Z)); auto using shr_1_nonneg.
Qed.

Lemma shr_record_of_loc_m m l : shr_m (shr_record_of_loc m l) = m.
Proof. destruct l as [|[]]; reflexivity. Qed.

Lemma shr_fexp_nonneg m e l :
  (0 <= m)%Z -> (0 <= shr_m (fst (shr_fexp prec emax m e l)))%Z.
Proof.
  intros H. unfold shr_fexp. apply shr_nonneg. now rewrite shr_record_of_loc_m.
Qed.

Lemma round_nearest_even_nonneg m l :
  (0 <= m)%Z -> (0 <= round_nearest_even m l)%Z.
Proof.
  intros H. destruct l as [|[]]; simpl; try lia. destruct (Z.even m); lia.
Qed.

Lemma binary_round_aux_signed sx mx ex lx :
  (0 <= mx)%Z -> sf_signed sx (binary_round_aux prec emax sx mx ex lx).
Proof.
  intros H. unfold binary_round_aux.
  pose proof (shr_fexp_nonneg mx ex lx H) as H1.
  destruct (shr_fexp prec emax mx ex lx) as [mrs' e'].
  simpl in H1.
  pose proof (round_nearest_even_nonneg _ (loc_of_shr_record mrs') H1) as H2.
  pose proof (shr_fexp_nonneg _ e' loc_Exact H2) as H3.
  destruct (shr_fexp prec emax _ e' loc_Exact) as [mrs'' e''].
  simpl in H3.
  destruct (shr_m mrs'') as [|m|m]; simpl; try lia; auto.
  destruct (Z.leb _ _); simpl; auto.
Qed.

Lemma binary_round_signed sx mx ex :
  sf_signed sx (binary_round prec emax sx mx ex).
Proof.
  unfold binary_round.
  destruct (shl_align mx ex _) as [mz ez].
  apply binary_round_aux_signed. lia.
Qed.

(** [binary_round] with the other sign is the opposite number. *)
Lemma binary_round_aux_abs sx sy mx ex lx :
  SFabs (binary_round_aux prec emax sx mx ex lx)
  = SFabs (binary_round_aux prec emax sy mx ex lx).
Proof.
  unfold binary_round_aux.
  destruct (shr_fexp prec emax mx ex lx) as [mrs' e'].
  destruct (shr_fexp prec emax _ e' loc_Exact) as [mrs'' e''].
  destruct (shr_m mrs''); try reflexivity.
  destruct (e'' <=? emax - prec)%Z; reflexivity.
Qed.

Lemma binary_normalize_opp_abs m e :
  SFabs (binary_normalize prec emax (- m) e false)
  = SFabs (binary_normalize prec emax m e false).
Proof.
  destruct m as [|p|p]; simpl; try reflexivity;
    unfold binary_round; destruct (shl_align p e _) as [mz ez];
    apply binary_round_aux_abs.
Qed.

Lemma SFsub_swap_abs x y :
  SFabs (SFsub prec emax x y) = SFabs (SFsub prec emax y x).
Proof.
  destruct x as [[]|[]| |sx mx ex], y as [[]|[]| |sy my ey]; try reflexivity.
  unfold SFsub. rewrite (Z.min_comm ey ex).
  rewrite <- binary_normalize_opp_abs. f_equal. f_equal. lia.
Qed.

Lemma SFmul_abs x : SFmul prec emax x x = SFmul prec emax (SFabs x) (SFabs x).
Proof. destruct x as [[]|[]| |[] m e]; reflexivity. Qed.

Lemma square_sub_swap a b :
  PrimFloat.mul (PrimFloat.sub a b) (PrimFloat.sub a b)
  = PrimFloat.mul (PrimFloat.sub b a) (PrimFloat.sub b a).
Proof.
  apply Prim2SF_inj. rewrite !mul_spec, !sub_spec. unfold SF64mul, SF64sub.
  rewrite SFmul_abs, (SFmul_abs (SFsub prec emax (Prim2SF b) (Prim2SF a))).
  now rewrite SFsub_swap_abs.
Qed.

(** ** Zero numerators and equal operands in a division *)

Lemma div_zero_pos s :
  PrimFloat.ltb PrimFloat.zero s = true -> PrimFloat.div PrimFloat.zero s = PrimFloat.zero.
Proof.
  rewrite ltb_spec, Prim2SF_zero. intros H.
  apply Prim2SF_inj. rewrite div_spec, Prim2SF_zero. unfold SF64div.
  destruct (Prim2SF s) as [[]|[]| |[] m e]; try discriminate; reflexivity.
Qed.

Lemma div_diag x :
  is_finite x = true -> is_zero x = false -> PrimFloat.div x x = PrimFloat.one.
Proof.
  rewrite is_finite_spec, is_zero_spec. intros Hf Hz.
  apply Prim2SF_inj. rewrite div_spec, Prim2SF_one. unfold SF64div.
  destruct (Prim2SF x) as [[]|[]| |s m e]; try discriminate.
  unfold SFdiv, SFdiv_core_binary.
  replace (Z.min _ _) with (-53)%Z.
  2:{ rewrite !Z.sub_diag. reflexivity. }
  replace (e - e - -53)%Z with 53%Z by lia.
  cbv zeta iota.
  assert (E : Z.div_eucl (Z.shiftl (Z.pos m) 53) (Z.pos m) = (9007199254740992, 0)%Z).
  { pose proof (Z.div_eucl_eq (Z.shiftl (Z.pos m) 53) (Z.pos m) ltac:(lia)) as H.
    pose proof (Z.mod_pos_bound (Z.shiftl (Z.pos m) 53) (Z.pos m) ltac:(lia)) as Hb.
    unfold Z.modulo in Hb.
    destruct (Z.div_eucl _ _) as [q r].
    rewrite Z.shiftl_mul_pow2 in H by lia.
    change (2 ^ 53)%Z with 9007199254740992%Z in H.
    assert (q = 9007199254740992)%Z by nia. subst q.
    f_equal. lia. }
  rewrite E.
  replace (xorb s s) with false by (destruct s; reflexivity).
  unfold new_location. destruct (Z.even (Z.pos m)); reflexivity.
Qed.


(** ** Integers below 2^53 are represented exactly *)




Lemma shl_S p n : shl p (S n) = xO (shl p n).
Proof. reflexivity. Qed.

Lemma shl_add p n k : shl (shl p n) k = shl p (k + n).
Proof. unfold shl. now rewrite Nat.iter_add. Qed.

Lemma digits_shl p n : digits (shl p n) = (digits p + Z.of_nat n)%Z.
Proof.
  unfold digits. induction n as [|n IH].
  - simpl. lia.
  - rewrite shl_S. cbn [digits2_pos]. rewrite Pos2Z.inj_succ, IH. lia.
Qed.

Lemma Zpos_shl p n : Z.pos (shl p n) = (Z.pos p * 2 ^ Z.of_nat n)%Z.
Proof.
  induction n as [|n IH].
  - simpl. lia.
  - rewrite shl_S, Pos2Z.inj_xO, IH, Nat2Z.inj_succ, Z.pow_succ_r by lia. lia.
Qed.

Lemma digits_pos p : (1 <= digits p)%Z.
Proof. unfold digits. lia. Qed.

Lemma digits_bounds p : (2 ^ (digits p - 1) <= Z.pos p < 2 ^ digits p)%Z.
Proof.
  unfold digits. induction p as [p IH|p IH|]; cbn [digits2_pos].
  - rewrite Pos2Z.inj_succ.
    replace (Z.succ (Z.pos (digits2_pos p)) - 1)%Z with (Z.succ (Z.pos (digits2_pos p) - 1))%Z by lia.
    rewrite !Z.pow_succ_r by lia. lia.
  - rewrite Pos2Z.inj_succ.
    replace (Z.succ (Z.pos (digits2_pos p)) - 1)%Z with (Z.succ (Z.pos (digits2_pos p) - 1))%Z by lia.
    rewrite !Z.pow_succ_r by lia. lia.
  - simpl. lia.
Qed.

Lemma digits_le_53 v : (Z.pos v < 2 ^ 53)%Z -> (digits v <= 53)%Z.
Proof.
  intros H. destruct (Z_le_gt_dec (digits v) 53) as [|G]; auto.
  pose proof (digits_bounds v) as [B _].
  assert (2 ^ 53 <= 2 ^ (digits v - 1))%Z by (apply Z.pow_le_mono_r; lia).
  lia.
Qed.

Lemma Pos_iter_xO m q : Pos.iter xO m q = shl m (Pos.to_nat q).
Proof. unfold shl. rewrite Pos2Nat.inj_iter. reflexivity. Qed.

Lemma iter_pos_nat {A} (f : A -> A) n x :
  iter_pos f n x = Nat.iter (Pos.to_nat n) f x.
Proof.
  revert x. induction n as [n IH|n IH|]; intros x; cbn [iter_pos].
  - rewrite !IH, Pos2Nat.inj_xI, <- Nat.iter_add, <- Nat.iter_succ_r.
    f_equal. lia.
  - rewrite !IH, Pos2Nat.inj_xO, <- Nat.iter_add. f_equal. lia.
  - reflexivity.
Qed.

Lemma shr_1_exact q n :
  Nat.iter n shr_1 (Build_shr_record (Z.pos (shl q n)) false false)
  = Build_shr_record (Z.pos q) false false.
Proof.
  induction n as [|n IH].
  - reflexivity.
  - rewrite Nat.iter_succ_r, shl_S. simpl shr_1. exact IH.
Qed.

Lemma fexp_digits d : (1 <= d)%Z -> fexp prec emax d = (d - 53)%Z.
Proof. intros H. unfold fexp, SpecFloat.emin, prec, emax. lia. Qed.

(** The first rounding step drops only zero bits. *)
Lemma shr_fexp_exact v t :
  (digits v <= 53)%Z -> (53 - digits v <= Z.of_nat t)%Z ->
  shr_fexp prec emax (Z.pos (shl v t)) (- Z.of_nat t) loc_Exact
  = (Build_shr_record (Z.pos (shl v (Z.to_nat (53 - digits v)))) false false,
     (digits v - 53)%Z).
Proof.
  intros Hd Ht. pose proof (digits_pos v) as Hp.
  unfold shr_fexp. cbn [Zdigits2 shr_record_of_loc].
  fold (digits (shl v t)). rewrite digits_shl.
  replace (digits v + Z.of_nat t + - Z.of_nat t)%Z with (digits v) by lia.
  rewrite fexp_digits by lia.
  destruct (digits v - 53 - - Z.of_nat t)%Z as [|q|q] eqn:E; try lia.
  - unfold shr. replace (Z.to_nat (53 - digits v)) with t by lia.
    f_equal. lia.
  - unfold shr. rewrite iter_pos_nat.
    replace t with (Pos.to_nat q + Z.to_nat (53 - digits v))%nat at 1 by lia.
    rewrite <- shl_add, shr_1_exact. f_equal. lia.
Qed.

Lemma binary_round_aux_exact s v t :
  (digits v <= 53)%Z -> (53 - digits v <= Z.of_nat t)%Z ->
  binary_round_aux prec emax s (Z.pos (shl v t)) (- Z.of_nat t) loc_Exact
  = canon s v.
Proof.
  intros Hd Ht. pose proof (digits_pos v) as Hp.
  unfold binary_round_aux. rewrite shr_fexp_exact by assumption.
  cbn [shr_m loc_of_shr_record round_nearest_even].
  replace (digits v - 53)%Z with (- Z.of_nat (Z.to_nat (53 - digits v)))%Z at 1 by lia.
  rewrite shr_fexp_exact by lia.
  cbn [shr_m]. unfold canon.
  replace (digits v - 53 <=? emax - prec)%Z with true; [reflexivity|].
  symmetry. apply Z.leb_le. unfold emax, prec. lia.
Qed.

Lemma binary_round_exact s M v t :
  Z.pos M = (Z.pos v * 2 ^ Z.of_nat t)%Z -> (Z.pos v < 2 ^ 53)%Z ->
  binary_round prec emax s M (- Z.of_nat t) = canon s v.
Proof.
  intros HM Hv. pose proof (digits_le_53 v Hv) as Hd.
  pose proof (digits_pos v) as Hp.
  assert (M = shl v t) by (apply Pos2Z.inj; now rewrite Zpos_shl). subst M.
  unfold binary_round. fold (digits (shl v t)). rewrite digits_shl.
  replace (digits v + Z.of_nat t + - Z.of_nat t)%Z with (digits v) by lia.
  rewrite fexp_digits by lia. unfold shl_align.
  destruct (digits v - 53 - - Z.of_nat t)%Z as [|q|q] eqn:E.
  - apply binary_round_aux_exact; lia.
  - apply binary_round_aux_exact; lia.
  - rewrite Pos_iter_xO, shl_add.
    replace (digits v - 53)%Z with (- Z.of_nat (Pos.to_nat q + t))%Z at 1 by lia.
    apply binary_round_aux_exact; lia.
Qed.

Lemma binary_normalize_exact z t :
  (Z.abs z < 2 ^ 53)%Z ->
  binary_normalize prec emax (z * 2 ^ Z.of_nat t) (- Z.of_nat t) false = canonZ z.
Proof.
  intros Hz. assert (P : (0 < 2 ^ Z.of_nat t)%Z) by (apply Z.pow_pos_nonneg; lia).
  destruct z as [|v|v]; simpl canonZ.
  - reflexivity.
  - destruct (Z.pos v * 2 ^ Z.of_nat t)%Z as [|M|M] eqn:E; try lia.
    simpl. apply binary_round_exact; auto.
  - destruct (Z.neg v * 2 ^ Z.of_nat t)%Z as [|M|M] eqn:E; try lia.
    simpl. apply binary_round_exact; [lia|]. exact Hz.
Qed.


Lemma of_uint63_exact v :
  (Z.pos v < 2 ^ 53)%Z ->
  Prim2SF (PrimFloat.of_uint63 (Uint63.of_Z (Z.pos v))) = canon false v.
Proof.
  intros Hv. rewrite of_uint63_spec, Uint63.of_Z_spec.
  rewrite Z.mod_small.
  2:{ split; [lia|]. eapply Z.lt_trans; [exact Hv|]. reflexivity. }
  replace (Z.pos v) with (Z.pos v * 2 ^ Z.of_nat 0)%Z at 1 by (simpl; lia).
  exact (binary_normalize_exact (Z.pos v) 0%nat Hv).
Qed.

(** Below [2^63] the conversion is the one of the hardware. *)
Lemma Z2F_of_uint63 v :
  (Z.pos v < 2 ^ 63)%Z -> Z2F (Z.pos v) = PrimFloat.of_uint63 (Uint63.of_Z (Z.pos v)).
Proof.
  intros Hv. unfold Z2F.
  rewrite <- (SF2Prim_Prim2SF (PrimFloat.of_uint63 _)). f_equal.
  rewrite of_uint63_spec, Uint63.of_Z_spec, Z.mod_small; [reflexivity|].
  split; [lia|exact Hv].
Qed.

Lemma Prim2SF_Z2F z : (Z.abs z < 2 ^ 53)%Z -> Prim2SF (Z2F z) = canonZ z.
Proof.
  intros Hz. destruct z as [|v|v]; unfold canonZ.
  - reflexivity.
  - rewrite Z2F_of_uint63; [now apply of_uint63_exact|].
    eapply Z.lt_trans; [exact Hz|reflexivity].
  - unfold Z2F.
    replace (binary_normalize prec emax (Z.neg v) 0 false)
      with (Prim2SF (PrimFloat.opp (PrimFloat.of_uint63 (Uint63.of_Z (Z.pos v))))).
    + rewrite SF2Prim_Prim2SF, opp_spec, of_uint63_exact by exact Hz. reflexivity.
    + rewrite opp_spec, of_uint63_exact by exact Hz.
      replace (Z.neg v) with (Z.neg v * 2 ^ Z.of_nat 0)%Z by (simpl; lia).
      symmetry. exact (binary_normalize_exact (Z.neg v) 0%nat Hz).
Qed.

Lemma cond_Zopp_mul s x c : cond_Zopp s (x * c) = (cond_Zopp s x * c)%Z.
Proof. destruct s; simpl; lia. Qed.

Lemma shl_align_val m e e' :
  (e' <= e)%Z -> Z.pos (fst (shl_align m e e')) = (Z.pos m * 2 ^ (e - e'))%Z.
Proof.
  intros H. unfold shl_align. destruct (e' - e)%Z as [|q|q] eqn:E; try lia.
  - simpl fst. replace (e - e')%Z with 0%Z by lia. simpl. lia.
  - simpl fst. rewrite Pos_iter_xO, Zpos_shl. do 2 f_equal. lia.
Qed.

Lemma SFadd_finite_exact sa ma ea sb mb eb a b :
  (ea <= 0)%Z -> (eb <= 0)%Z ->
  cond_Zopp sa (Z.pos ma) = (a * 2 ^ (- ea))%Z ->
  cond_Zopp sb (Z.pos mb) = (b * 2 ^ (- eb))%Z ->
  (Z.abs (a + b) < 2 ^ 53)%Z ->
  SFadd prec emax (S754_finite sa ma ea) (S754_finite sb mb eb) = canonZ (a + b).
Proof.
  intros Ha Hb Va Vb Hs. unfold SFadd.
  set (ez := Z.min ea eb).
  assert (Hza : (ez <= ea)%Z) by (unfold ez; lia).
  assert (Hzb : (ez <= eb)%Z) by (unfold ez; lia).
  rewrite !shl_align_val, !cond_Zopp_mul, Va, Vb by assumption.
  rewrite <- !Z.mul_assoc, <- !Z.pow_add_r by lia.
  replace (- ea + (ea - ez))%Z with (Z.of_nat (Z.to_nat (- ez))) by lia.
  replace (- eb + (eb - ez))%Z with (Z.of_nat (Z.to_nat (- ez))) by lia.
  rewrite <- Z.mul_add_distr_r.
  replace ez with (- Z.of_nat (Z.to_nat (- ez)))%Z at 2 by lia.
  now apply binary_normalize_exact.
Qed.

Lemma canon_val s v :
  (Z.pos v < 2 ^ 53)%Z ->
  exists m e, canon s v = S754_finite s m e /\ (e <= 0)%Z
              /\ Z.pos m = (Z.pos v * 2 ^ (- e))%Z.
Proof.
  intros Hv. pose proof (digits_le_53 v Hv). pose proof (digits_pos v).
  eexists _, _. split; [reflexivity|]. split; [lia|].
  rewrite Zpos_shl. do 2 f_equal. lia.
Qed.

Lemma SFadd_canon sa va sb vb :
  (Z.pos va < 2 ^ 53)%Z -> (Z.pos vb < 2 ^ 53)%Z ->
  (Z.abs (cond_Zopp sa (Z.pos va) + cond_Zopp sb (Z.pos vb)) < 2 ^ 53)%Z ->
  SFadd prec emax (canon sa va) (canon sb vb)
  = canonZ (cond_Zopp sa (Z.pos va) + cond_Zopp sb (Z.pos vb)).
Proof.
  intros Ha Hb Hs.
  destruct (canon_val sa va Ha) as (ma & ea & -> & Hea & Hma).
  destruct (canon_val sb vb Hb) as (mb & eb & -> & Heb & Hmb).
  apply SFadd_finite_exact; auto.
  - rewrite <- cond_Zopp_mul. now f_equal.
  - rewrite <- cond_Zopp_mul. now f_equal.
Qed.

Lemma SFadd_canonZ a b :
  (Z.abs a < 2 ^ 53)%Z -> (Z.abs b < 2 ^ 53)%Z -> (Z.abs (a + b) < 2 ^ 53)%Z ->
  SFadd prec emax (canonZ a) (canonZ b) = canonZ (a + b).
Proof.
  intros Ha Hb Hs.
  destruct a as [|va|va]; [destruct b; reflexivity| |];
    (destruct b as [|vb|vb]; [reflexivity| |]).
  - exact (SFadd_canon false va false vb Ha Hb Hs).
  - exact (SFadd_canon false va true vb Ha Hb Hs).
  - exact (SFadd_canon true va false vb Ha Hb Hs).
  - exact (SFadd_canon true va true vb Ha Hb Hs).
Qed.

(** Addition of exactly represented integers is exact. *)
Lemma Z2F_add a b :
  (Z.abs a < 2 ^ 53)%Z -> (Z.abs b < 2 ^ 53)%Z -> (Z.abs (a + b) < 2 ^ 53)%Z ->
  PrimFloat.add (Z2F a) (Z2F b) = Z2F (a + b).
Proof.
  intros Ha Hb Hs. apply Prim2SF_inj.
  rewrite add_spec, !Prim2SF_Z2F by assumption.
  now apply SFadd_canonZ.
Qed.

Lemma Z2F_finite z : (Z.abs z < 2 ^ 53)%Z -> is_finite (Z2F z) = true.
Proof.
  intros H. rewrite is_finite_spec, Prim2SF_Z2F by assumption.
  destruct z; reflexivity.
Qed.

Lemma Z2F_nonzero z : (Z.abs z < 2 ^ 53)%Z -> z <> 0%Z -> is_zero (Z2F z) = false.
Proof.
  intros H N. rewrite is_zero_spec, Prim2SF_Z2F by assumption.
  destruct z; try reflexivity. congruence.
Qed.

Lemma Z2F_pos z : (0 < z < 2 ^ 53)%Z -> PrimFloat.ltb PrimFloat.zero (Z2F z) = true.
Proof.
  intros H. rewrite ltb_spec, Prim2SF_zero, Prim2SF_Z2F by lia.
  destruct z; try lia. reflexivity.
Qed.


(** ** Signs of squares, sums and square roots *)



Lemma square_nonneg_or_nan x : nonneg_or_nan (np_square x).
Proof.
  unfold nonneg_or_nan, np_square. rewrite mul_spec. unfold SF64mul.
  destruct (Prim2SF x) as [[]|[]| |s m e]; simpl; auto.
  pose proof (binary_round_aux_signed (xorb s s) (Z.pos (m * m)) (e + e) loc_Exact
                ltac:(lia)) as H.
  destruct (binary_round_aux _ _ _ _ _ _); simpl in H; auto;
    destruct s; simpl in H; congruence.
Qed.


Lemma nonneg_is_nonneg_or_nan x : nonneg x -> nonneg_or_nan x.
Proof.
  unfold nonneg_or_nan, nonneg. destruct (Prim2SF x); simpl; auto.
Qed.


Lemma SFadd_signed_false x y :
  sf_signed false x -> sf_signed false y -> sf_signed false (SFadd prec emax x y).
Proof.
  destruct x as [[]|[]| |[] mx ex]; simpl; try congruence; try tauto;
    destruct y as [[]|[]| |[] my ey]; simpl; try congruence; try tauto.
  intros _ _. unfold shl_align.
  destruct (Z.min ex ey - ex)%Z; destruct (Z.min ex ey - ey)%Z; simpl;
    apply binary_round_signed.
Qed.


Lemma add_nonneg_or_nan x y :
  nonneg_or_nan x -> nonneg_or_nan y -> nonneg_or_nan (PrimFloat.add x y).
Proof.
  intros Hx Hy. unfold nonneg_or_nan in *.
  pose proof (SFadd_signed_false (Prim2SF x) (Prim2SF y)) as H.
  rewrite add_spec. unfold SF64add.
  destruct (Prim2SF x) as [sx|sx| |sx mx ex]; subst;
    try (destruct (Prim2SF y); reflexivity);
    (destruct (Prim2SF y) as [sy|sy| |sy my ey]; subst; [| | reflexivity |]);
    specialize (H eq_refl eq_refl);
    destruct (SFadd _ _ _ _); simpl in H; auto.
Qed.

Lemma zero_nonneg : nonneg PrimFloat.zero.
Proof. reflexivity. Qed.


Lemma np_sum_nonneg_or_nan v : Forall nonneg_or_nan v -> nonneg_or_nan (np_sum v).
Proof.
  intros H. pose proof (nonneg_is_nonneg_or_nan _ zero_nonneg) as Z0.
  unfold np_sum. apply add_nonneg_or_nan; [exact Z0|].
  apply pairwise_sum_closed; auto using add_nonneg_or_nan.
Qed.


(** A sum of zeros is zero. *)
Lemma np_sum_of_zeros v :
  Forall (fun x => x = PrimFloat.zero) v -> np_sum v = PrimFloat.zero.
Proof.
  intros H. unfold np_sum.
  rewrite (pairwise_sum_closed PrimFloat.add PrimFloat.zero
             (fun x => x = PrimFloat.zero) (length v) v); auto.
  intros x y -> ->. reflexivity.
Qed.

Lemma sqrt_core_nonneg m e :
  (0 <= fst (fst (SFsqrt_core_binary prec emax m e)))%Z.
Proof.
  unfold SFsqrt_core_binary.
  match goal with |- context [Z.sqrtrem ?a] =>
    pose proof (Z.sqrtrem_sqrt a) as H; pose proof (Z.sqrt_nonneg a) as N;
    destruct (Z.sqrtrem a) as [q r] end.
  simpl in *. lia.
Qed.

Lemma SFsqrt_signed_false x :
  sf_signed false x -> sf_signed false (SFsqrt prec emax x).
Proof.
  destruct x as [[]|[]| |[] m e]; simpl; try congruence; try tauto.
  intros _. pose proof (sqrt_core_nonneg (Z.pos m) e) as H.
  destruct (SFsqrt_core_binary prec emax (Z.pos m) e) as [[mz ez] lz].
  simpl in H. now apply binary_round_aux_signed.
Qed.

Lemma sqrt_nonneg x : nonneg x -> nonneg (PrimFloat.sqrt x).
Proof. unfold nonneg. rewrite sqrt_spec. apply SFsqrt_signed_false. Qed.


(** A square root is never below zero, whatever its argument. *)
Lemma sqrt_not_negative y : PrimFloat.ltb (PrimFloat.sqrt y) PrimFloat.zero = false.
Proof.
  rewrite ltb_spec, sqrt_spec, Prim2SF_zero. unfold SF64sqrt.
  destruct (Prim2SF y) as [[]|[]| |[] m e]; try reflexivity.
  unfold SFsqrt.
  pose proof (sqrt_core_nonneg (Z.pos m) e) as H.
  destruct (SFsqrt_core_binary prec emax (Z.pos m) e) as [[mz ez] lz].
  simpl in H.
  pose proof (binary_round_aux_signed false mz ez lz H) as S.
  destruct (binary_round_aux _ _ _ _ _ _) as [[]|[]| |[] m' e']; simpl in S;
    try congruence; try tauto; reflexivity.
Qed.

(* ================================================================== *)
(** * Quotients of integers do not overflow                            *)
(* ================================================================== *)

Lemma digits_le_of_lt q k : (0 <= k)%Z -> (Z.pos q < 2 ^ k)%Z -> (digits q <= k)%Z.
Proof.
  intros Hk H. destruct (Z_le_gt_dec (digits q) k) as [|G]; auto.
  pose proof (digits_bounds q) as [B _].
  assert (2 ^ k <= 2 ^ (digits q - 1))%Z by (apply Z.pow_le_mono_r; lia).
  lia.
Qed.

Lemma Zdigits2_succ m : (0 <= m)%Z -> (Zdigits2 (m + 1) <= Zdigits2 m + 1)%Z.
Proof.
  intros H. destruct m as [|p|p]; try lia; [simpl; lia|].
  change (Z.pos p + 1)%Z with (Z.pos (p + 1)).
  cbn [Zdigits2]. fold (digits (p + 1)). fold (digits p).
  pose proof (digits_bounds p) as [_ B]. pose proof (digits_pos p).
  apply digits_le_of_lt; [lia|].
  rewrite Z.pow_add_r by lia. change (2 ^ 1)%Z with 2%Z. lia.
Qed.

Lemma shr_1_digits mrs :
  (0 <= shr_m mrs)%Z ->
  (Zdigits2 (shr_m (shr_1 mrs)) <= Zdigits2 (shr_m mrs))%Z.
Proof.
  destruct mrs as [m r s]. cbn [shr_m shr_1].
  destruct m as [|[p|p|]|p]; cbn [shr_m Zdigits2 digits2_pos]; lia.
Qed.

Lemma shr_fexp_bounds m e l :
  (0 <= m)%Z ->
  (0 <= shr_m (fst (shr_fexp prec emax m e l)))%Z /\
  (Zdigits2 (shr_m (fst (shr_fexp prec emax m e l))) <= Zdigits2 m)%Z /\
  (snd (shr_fexp prec emax m e l) <= Z.max e (fexp prec emax (Zdigits2 m + e)))%Z.
Proof.
  intros H. unfold shr_fexp, shr.
  destruct (fexp prec emax (Zdigits2 m + e) - e)%Z as [|p|p] eqn:E;
    cbn [fst snd]; rewrite ?shr_record_of_loc_m; try (repeat split; lia).
  split; [|split; [|lia]].
  - apply (iter_pos_inv (fun r => (0 <= shr_m r)%Z)); auto using shr_1_nonneg.
    now rewrite shr_record_of_loc_m.
  - apply (iter_pos_inv
             (fun r => (0 <= shr_m r)%Z /\ (Zdigits2 (shr_m r) <= Zdigits2 m)%Z)).
    + intros r [R1 R2]. split; [now apply shr_1_nonneg|].
      pose proof (shr_1_digits r R1). lia.
    + rewrite shr_record_of_loc_m. lia.
Qed.

Lemma round_nearest_even_digits m l :
  (0 <= m)%Z -> (Zdigits2 (round_nearest_even m l) <= Zdigits2 m + 1)%Z.
Proof.
  intros H. pose proof (Zdigits2_succ m H).
  destruct l as [|[]]; cbn [round_nearest_even]; try lia.
  destruct (Z.even m); lia.
Qed.

(** Rounding a short mantissa with a small exponent gives zero or a finite
    number. *)
Lemma binary_round_aux_finite s m e l :
  (0 <= m)%Z -> (Zdigits2 m <= 64)%Z -> (e <= 900)%Z ->
  match binary_round_aux prec emax s m e l with
  | S754_zero _ | S754_finite _ _ _ => True
  | _ => False
  end.
Proof.
  intros Hm Hd He. unfold binary_round_aux.
  pose proof (shr_fexp_bounds m e l Hm) as (A1 & A2 & A3).
  destruct (shr_fexp prec emax m e l) as [mrs' e']. cbn [fst snd] in *.
  pose proof (round_nearest_even_nonneg _ (loc_of_shr_record mrs') A1) as B1.
  pose proof (round_nearest_even_digits _ (loc_of_shr_record mrs') A1) as B2.
  pose proof (shr_fexp_bounds _ e' loc_Exact B1) as (C1 & _ & C3).
  destruct (shr_fexp prec emax _ e' loc_Exact) as [mrs'' e'']. cbn [fst snd] in *.
  unfold fexp, SpecFloat.emin, prec, emax in *.
  destruct (shr_m mrs'') as [|q|q]; try lia; auto.
  replace (e'' <=? 1024 - 53)%Z with true; auto.
  symmetry. apply Z.leb_le. lia.
Qed.

Lemma canon_head s v :
  (Z.pos v < 2 ^ 53)%Z ->
  exists m e, canon s v = S754_finite s m e /\ digits m = 53%Z /\ (-52 <= e <= 0)%Z.
Proof.
  intros Hv. pose proof (digits_le_53 v Hv). pose proof (digits_pos v).
  eexists _, _. split; [reflexivity|]. split; [|lia].
  rewrite digits_shl. lia.
Qed.

Lemma SFdiv_canon_finite sa va sd vd :
  (Z.pos va < 2 ^ 53)%Z -> (Z.pos vd < 2 ^ 53)%Z ->
  match SFdiv prec emax (canon sa va) (canon sd vd) with
  | S754_zero _ | S754_finite _ _ _ => True
  | _ => False
  end.
Proof.
  intros Ha Hd.
  destruct (canon_head sa va Ha) as (ma & ea & -> & Da & Ea).
  destruct (canon_head sd vd Hd) as (md & ed & -> & Dd & Ed).
  unfold SFdiv, SFdiv_core_binary. cbn [Zdigits2].
  fold (digits ma). fold (digits md). rewrite Da, Dd.
  replace (53 + ea - (53 + ed))%Z with (ea - ed)%Z by lia.
  assert (F : fexp prec emax (ea - ed) = (ea - ed - 53)%Z).
  { unfold fexp, SpecFloat.emin, prec, emax. lia. }
  rewrite F.
  replace (Z.min (ea - ed - 53) (ea - ed)) with (ea - ed - 53)%Z by lia.
  replace (ea - ed - (ea - ed - 53))%Z with 53%Z by lia.
  cbv iota.
  pose proof (digits_bounds ma) as [_ Ua]. rewrite Da in Ua.
  pose proof (digits_bounds md) as [Ld _]. rewrite Dd in Ld.
  change (53 - 1)%Z with 52%Z in Ld.
  assert (P : (0 <= Z.shiftl (Z.pos ma) 53 < 2 ^ 106)%Z).
  { rewrite Z.shiftl_mul_pow2 by lia.
    change (2 ^ 106)%Z with (2 ^ 53 * 2 ^ 53)%Z. nia. }
  pose proof (Z.div_pos (Z.shiftl (Z.pos ma) 53) (Z.pos md) ltac:(lia) ltac:(lia)) as Q0.
  assert (Q1 : (Z.shiftl (Z.pos ma) 53 / Z.pos md < 2 ^ 54)%Z).
  { apply Z.div_lt_upper_bound; [lia|].
    change (2 ^ 106)%Z with (2 ^ 52 * 2 ^ 54)%Z in P. nia. }
  unfold Z.div in Q0, Q1.
  destruct (Z.div_eucl (Z.shiftl (Z.pos ma) 53) (Z.pos md)) as [q r].
  cbn [fst] in Q0, Q1.
  apply binary_round_aux_finite; try lia.
  destruct q as [|q|q]; try lia; [simpl; lia|].
  cbn [Zdigits2]. fold (digits q).
  pose proof (digits_le_of_lt q 54 ltac:(lia) Q1). lia.
Qed.

Lemma int_quotient_finite a d :
  (Z.abs a < 2 ^ 53)%Z -> (0 < Z.abs d < 2 ^ 53)%Z ->
  is_finite (PrimFloat.div (Z2F a) (Z2F d)) = true.
Proof.
  intros Ha Hd. rewrite is_finite_spec, div_spec, !Prim2SF_Z2F by lia.
  unfold SF64div.
  destruct d as [|vd|vd]; try lia; destruct a as [|va|va]; cbn [canonZ];
    try reflexivity;
    match goal with |- context [SFdiv _ _ (canon ?sa ?va) (canon ?sd ?vd)] =>
      pose proof (SFdiv_canon_finite sa va sd vd Ha ltac:(lia)) as F;
      destruct (SFdiv prec emax (canon sa va) (canon sd vd)); tauto end.
Qed.

Lemma finite_times_zero c :
  is_finite c = true ->
  PrimFloat.sub PrimFloat.one (PrimFloat.mul c PrimFloat.zero) = PrimFloat.one.
Proof.
  rewrite is_finite_spec. intros F. apply Prim2SF_inj.
  rewrite sub_spec, mul_spec, Prim2SF_zero, Prim2SF_one.
  destruct (Prim2SF c) as [[]|[]| |[] m e]; try discriminate; reflexivity.
Qed.

(* ================================================================== *)
(** * The quotient of two Python integers                              *)
(* ================================================================== *)

(** Where the remainder [r] of a division by [nb] lies. *)
Lemma new_location_compare nb r :
  new_location nb r
  = if (r =? 0)%Z then loc_Exact else loc_Inexact (2 * r ?= nb)%Z.
Proof.
  unfold new_location, new_location_even, new_location_odd.
  destruct (Z.even nb) eqn:E; [reflexivity|].
  destruct (r =? 0)%Z; [reflexivity|]. f_equal.
  assert (O : Z.odd nb = true) by (rewrite <- Z.negb_even, E; reflexivity).
  apply Z.odd_spec in O. destruct O as [q ->].
  destruct (Z.compare_spec (2 * r + 1) (2 * q + 1));
    destruct (Z.compare_spec (2 * r) (2 * q + 1)); auto; lia.
Qed.

Lemma div_eucl_div_mod a b : Z.div_eucl a b = ((a / b)%Z, (a mod b)%Z).
Proof. unfold Z.div, Z.modulo. now destruct (Z.div_eucl a b). Qed.

Lemma shifted_mantissa m s :
  (0 <= s)%Z ->
  match s with
  | Z.pos _ => Z.shiftl (Z.pos m) s
  | 0%Z => Z.pos m
  | Z.neg _ => 0%Z
  end = (Z.pos m * 2 ^ s)%Z.
Proof.
  intros H. destruct s as [|p|p];
    [simpl; lia | now rewrite Z.shiftl_mul_pow2 | lia].
Qed.

(** The division does not depend on how the two operands are written:
    both mantissas can be shifted left, as long as the quotient keeps the
    digits the rounding needs. *)
Lemma SFdiv_core_scale m1 e1 m2 e2 t1 t2 :
  let F := fexp prec emax (digits m1 + e1 - (digits m2 + e2)) in
  (F <= e1 - e2)%Z -> (F <= e1 - Z.of_nat t1 - (e2 - Z.of_nat t2))%Z ->
  SFdiv_core_binary prec emax (Z.pos (shl m1 t1)) (e1 - Z.of_nat t1)
                    (Z.pos (shl m2 t2)) (e2 - Z.of_nat t2)
  = SFdiv_core_binary prec emax (Z.pos m1) e1 (Z.pos m2) e2.
Proof.
  intros F H1 H2. unfold SFdiv_core_binary. cbn [Zdigits2].
  fold (digits (shl m1 t1)) (digits (shl m2 t2)) (digits m1) (digits m2).
  rewrite !digits_shl.
  replace (digits m1 + Z.of_nat t1 + (e1 - Z.of_nat t1)
           - (digits m2 + Z.of_nat t2 + (e2 - Z.of_nat t2)))%Z
    with (digits m1 + e1 - (digits m2 + e2))%Z by lia.
  fold F. rewrite !Z.min_l by lia.
  rewrite !shifted_mantissa by lia. rewrite !Zpos_shl, !div_eucl_div_mod.
  assert (C : (0 < 2 ^ Z.of_nat t2)%Z) by (apply Z.pow_pos_nonneg; lia).
  replace (Z.pos m1 * 2 ^ Z.of_nat t1 * 2 ^ (e1 - Z.of_nat t1 - (e2 - Z.of_nat t2) - F))%Z
    with (Z.pos m1 * 2 ^ (e1 - e2 - F) * 2 ^ Z.of_nat t2)%Z.
  2:{ rewrite <- !Z.mul_assoc, <- !Z.pow_add_r by lia. do 2 f_equal. lia. }
  rewrite Z.div_mul_cancel_r, Z.mul_mod_distr_r by lia.
  rewrite !new_location_compare. do 2 f_equal.
  destruct (Z.eqb_spec ((Z.pos m1 * 2 ^ (e1 - e2 - F)) mod Z.pos m2) 0) as [E|E].
  - rewrite E. reflexivity.
  - destruct (Z.eqb_spec ((Z.pos m1 * 2 ^ (e1 - e2 - F)) mod Z.pos m2
                          * 2 ^ Z.of_nat t2) 0) as [E'|E']; [nia|].
    f_equal. rewrite Z.mul_assoc. symmetry. apply Zmult_compare_compat_r. lia.
Qed.

Lemma SFdiv_scale sx mx ex sy my ey tx ty :
  let F := fexp prec emax (digits mx + ex - (digits my + ey)) in
  (F <= ex - ey)%Z -> (F <= ex - Z.of_nat tx - (ey - Z.of_nat ty))%Z ->
  SFdiv prec emax (S754_finite sx (shl mx tx) (ex - Z.of_nat tx))
                  (S754_finite sy (shl my ty) (ey - Z.of_nat ty))
  = SFdiv prec emax (S754_finite sx mx ex) (S754_finite sy my ey).
Proof.
  intros F H1 H2. unfold SFdiv. now rewrite SFdiv_core_scale.
Qed.

(** A quotient with a numerator below [2^63] is never too large for a
    binary64 number. *)
Lemma SFdiv_integers_finite a b :
  (Z.abs a < 2 ^ 63)%Z -> b <> 0%Z ->
  match SFdiv prec emax (Z2SF a) (Z2SF b) with
  | S754_zero _ | S754_finite _ _ _ => True
  | _ => False
  end.
Proof.
  intros Ha Hb.
  assert (G : forall sa pa sb pb, (Z.pos pa < 2 ^ 63)%Z ->
    match SFdiv prec emax (S754_finite sa pa 0) (S754_finite sb pb 0) with
    | S754_zero _ | S754_finite _ _ _ => True
    | _ => False
    end).
  { clear. intros sa pa sb pb Ha. unfold SFdiv, SFdiv_core_binary. cbn [Zdigits2].
    fold (digits pa) (digits pb).
    set (F := fexp prec emax (digits pa + 0 - (digits pb + 0))).
    set (e' := Z.min F (0 - 0)).
    assert (He : (e' <= 0)%Z) by (unfold e'; lia).
    rewrite shifted_mantissa by lia. rewrite div_eucl_div_mod.
    pose proof (digits_bounds pa) as [_ Ua].
    pose proof (digits_bounds pb) as [Lb _].
    pose proof (digits_pos pa). pose proof (digits_pos pb).
    pose proof (digits_le_of_lt pa 63 ltac:(lia) Ha) as Da.
    set (q := (Z.pos pa * 2 ^ (0 - 0 - e') / Z.pos pb)%Z).
    assert (P : (0 < 2 ^ (0 - 0 - e'))%Z) by (apply Z.pow_pos_nonneg; lia).
    assert (Q0 : (0 <= q)%Z) by (apply Z.div_pos; nia).
    assert (Q1 : (q < 2 ^ 64)%Z).
    { apply Z.div_lt_upper_bound; [lia|].
      destruct (Z_le_gt_dec F 0) as [LF|GF].
      - (* the quotient is cut to 54 digits *)
        assert (e' = F) by (unfold e'; lia).
        set (k := Z.max 0 (digits pa - F - digits pb + 1)).
        assert (Hk : (0 <= k <= 54)%Z).
        { unfold k, F, fexp, SpecFloat.emin, prec, emax. lia. }
        assert (U : (Z.pos pa * 2 ^ (0 - 0 - e') < 2 ^ (digits pa - F))%Z).
        { replace (digits pa - F)%Z with (digits pa + (0 - 0 - e'))%Z by lia.
          rewrite Z.pow_add_r by lia. nia. }
        assert (V : (2 ^ (digits pa - F) <= 2 ^ (digits pb - 1) * 2 ^ k)%Z).
        { rewrite <- Z.pow_add_r by lia. apply Z.pow_le_mono_r; lia. }
        assert (W : (2 ^ k <= 2 ^ 64)%Z) by (apply Z.pow_le_mono_r; lia).
        nia.
      - assert (e' = 0%Z) by (unfold e'; lia).
        replace (0 - 0 - e')%Z with 0%Z by lia. change (2 ^ 0)%Z with 1%Z. nia. }
    apply binary_round_aux_finite; try lia.
    destruct q as [|q0|q0]; try lia; [simpl; lia|].
    cbn [Zdigits2]. fold (digits q0). apply digits_le_of_lt; lia. }
  destruct b as [|pb|pb]; [congruence| |];
    destruct a as [|pa|pa]; cbn [Z2SF]; try exact I; apply G; lia.
Qed.

Lemma binary_round_aux_opp m e l :
  binary_round_aux prec emax true m e l
  = SFopp (binary_round_aux prec emax false m e l).
Proof.
  unfold binary_round_aux.
  destruct (shr_fexp prec emax m e l) as [mrs' e'].

  destruct (shr_fexp prec emax _ e' loc_Exact) as [mrs'' e''].
  destruct (shr_m mrs''); try reflexivity.
  destruct (e'' <=? emax - prec)%Z; reflexivity.
Qed.

Lemma binary_normalize_opp v e :
  binary_normalize prec emax (Z.neg v) e false
  = SFopp (binary_normalize prec emax (Z.pos v) e false).
Proof.
  unfold binary_normalize, binary_round.
  destruct (shl_align v e _) as [mz ez].
  apply binary_round_aux_opp.
Qed.

(** Below [2^63] in absolute value, [Z2F] is the rounding of the
    specification of binary64. *)
Lemma Prim2SF_Z2F_rounds z :
  (Z.abs z < 2 ^ 63)%Z -> Prim2SF (Z2F z) = binary_normalize prec emax z 0 false.
Proof.
  intros Hz.
  assert (P : forall v, (Z.pos v < 2 ^ 63)%Z ->
    Prim2SF (PrimFloat.of_uint63 (Uint63.of_Z (Z.pos v)))
    = binary_normalize prec emax (Z.pos v) 0 false).
  { intros v Hv. rewrite of_uint63_spec, Uint63.of_Z_spec, Z.mod_small; [reflexivity|].
    split; [lia|exact Hv]. }
  destruct z as [|v|v].
  - reflexivity.
  - rewrite Z2F_of_uint63 by exact Hz. now apply P.
  - unfold Z2F. rewrite binary_normalize_opp, <- P, <- opp_spec by exact Hz.
    now rewrite SF2Prim_Prim2SF.
Qed.

(** An even integer of 54 digits is a binary64 number as well. *)
Lemma binary_normalize_54 s v :
  digits v = 53%Z ->
  binary_normalize prec emax (cond_Zopp s (Z.pos (xO v))) 0 false = S754_finite s v 1.
Proof.
  intros D.
  assert (D' : Z.pos (Pos.succ (digits2_pos v)) = 54%Z) by (unfold digits in D; lia).
  assert (G : forall sx, binary_round prec emax sx (xO v) 0 = S754_finite sx v 1).
  { intros sx. unfold binary_round. cbn [digits2_pos]. rewrite D'.
    change (shl_align (xO v) 0 (fexp prec emax (54 + 0))) with (xO v, 0%Z).
    unfold binary_round_aux, shr_fexp. cbn [Zdigits2 digits2_pos]. rewrite D'.
    change (fexp prec emax (54 + 0) - 0)%Z with 1%Z.
    cbn [shr shr_record_of_loc iter_pos shr_1 shr_m loc_of_shr_record
           round_nearest_even Zdigits2 orb].
    fold (digits v). rewrite D.
    change (fexp prec emax (53 + (0 + 1)) - (0 + 1))%Z with 0%Z.
    cbn [shr shr_m]. reflexivity. }
  destruct s; cbn [cond_Zopp Z.opp binary_normalize]; apply G.
Qed.

Lemma canon_scaled s v :
  (digits v <= 53)%Z ->
  canon s v = S754_finite s (shl v (Z.to_nat (53 - digits v)))
                          (0 - Z.of_nat (Z.to_nat (53 - digits v))).
Proof. intros H. unfold canon. f_equal. lia. Qed.

(** The quotient of two integers that are binary64 numbers is the
    quotient of the two numbers. *)
Lemma SFdiv_integers sa va sb vb :
  (Z.pos va < 2 ^ 53)%Z -> (Z.pos vb < 2 ^ 53)%Z ->
  SFdiv prec emax (S754_finite sa va 0) (S754_finite sb vb 0)
  = SFdiv prec emax (canon sa va) (canon sb vb).
Proof.
  intros Ha Hb.
  pose proof (digits_le_53 va Ha). pose proof (digits_le_53 vb Hb).
  pose proof (digits_pos va). pose proof (digits_pos vb).
  rewrite !canon_scaled by assumption. symmetry. apply SFdiv_scale;
    unfold fexp, SpecFloat.emin, prec, emax; lia.
Qed.

Lemma SFdiv_integers_54 sa va sb v :
  (Z.pos va < 2 ^ 53)%Z -> digits v = 53%Z ->
  SFdiv prec emax (S754_finite sa va 0) (S754_finite sb (xO v) 0)
  = SFdiv prec emax (canon sa va) (S754_finite sb v 1).
Proof.
  intros Ha D.
  pose proof (digits_le_53 va Ha). pose proof (digits_pos va).
  transitivity (SFdiv prec emax (S754_finite sa va 0) (S754_finite sb v 1)).
  - change (S754_finite sa va 0)
      with (S754_finite sa (shl va 0) (0 - Z.of_nat 0)).
    change (S754_finite sb (xO v) 0)
      with (S754_finite sb (shl v 1) (1 - Z.of_nat 1)).
    apply SFdiv_scale; change (shl va 0) with va; rewrite ?D;
      unfold fexp, SpecFloat.emin, prec, emax; lia.
  - rewrite canon_scaled by assumption.
    change (S754_finite sb v 1) with (S754_finite sb (shl v 0) (1 - Z.of_nat 0)) at 2.
    symmetry. apply SFdiv_scale; change (shl v 0) with v; rewrite ?D;
      unfold fexp, SpecFloat.emin, prec, emax; lia.
Qed.

Lemma Z2SF_cond_Zopp s v : Z2SF (cond_Zopp s (Z.pos v)) = S754_finite s v 0.
Proof. now destruct s. Qed.

Lemma canonZ_cond_Zopp s v : canonZ (cond_Zopp s (Z.pos v)) = canon s v.
Proof. now destruct s. Qed.

Lemma cond_Zopp_abs z :
  z <> 0%Z -> exists s v, z = cond_Zopp s (Z.pos v) /\ Z.abs z = Z.pos v.
Proof.
  intros H. destruct z as [|v|v]; [congruence| |].
  - now exists false, v.
  - now exists true, v.
Qed.

Lemma SFdiv_Z2SF a b :
  (Z.abs a < 2 ^ 53)%Z -> b <> 0%Z ->
  (Z.abs b < 2 ^ 53 \/ (Z.abs b < 2 ^ 54 /\ Z.even b = true))%Z ->
  SFdiv prec emax (Z2SF a) (Z2SF b) = Prim2SF (PrimFloat.div (Z2F a) (Z2F b)).
Proof.
  intros Ha Hb Hr. rewrite div_spec, (Prim2SF_Z2F a Ha). unfold SF64div.
  destruct (cond_Zopp_abs b Hb) as (sb & vb & -> & Ab). rewrite Ab in Hr.
  rewrite Z2SF_cond_Zopp.
  destruct (Z_lt_ge_dec (Z.pos vb) (2 ^ 53)) as [S|S].
  - (* both are below 2^53 *)
    rewrite Prim2SF_Z2F, canonZ_cond_Zopp by lia.
    destruct a as [|va|va]; [reflexivity| |]; apply SFdiv_integers; auto.
  - (* the divisor is even and below 2^54 *)
    destruct Hr as [Hr|[Hr Ev]]; [lia|].
    assert (exists v, vb = xO v) as [v ->].
    { destruct vb as [vb|vb|]; [destruct sb; discriminate| now exists vb | lia]. }
    assert (D : digits v = 53%Z).
    { pose proof (digits_bounds v) as [L U]. pose proof (digits_pos v).
      assert (digits v <= 53)%Z by (apply digits_le_of_lt; lia).
      destruct (Z_le_gt_dec 53 (digits v)) as [|G]; [lia|].
      assert (2 ^ digits v <= 2 ^ 52)%Z by (apply Z.pow_le_mono_r; lia). lia. }
    rewrite Prim2SF_Z2F_rounds, binary_normalize_54 by (auto; destruct sb; simpl; lia).
    destruct a as [|va|va]; [reflexivity| |]; apply SFdiv_integers_54; auto.
Qed.

(** For two integers that are binary64 numbers (below [2^53], or even and
    below [2^54] for the divisor), Python's quotient is the binary64
    quotient of the two conversions. *)
Lemma int_truediv_exact a b :
  (Z.abs a < 2 ^ 53)%Z -> b <> 0%Z ->
  (Z.abs b < 2 ^ 53 \/ (Z.abs b < 2 ^ 54 /\ Z.even b = true))%Z ->
  int_truediv a b = Ok (PrimFloat.div (Z2F a) (Z2F b)).
Proof.
  intros Ha Hb Hr. unfold int_truediv.
  replace (b =? 0)%Z with false by (symmetry; now apply Z.eqb_neq).
  pose proof (SFdiv_integers_finite a b ltac:(lia) Hb) as F.
  rewrite (SFdiv_Z2SF a b Ha Hb Hr) in *.
  destruct (Prim2SF (PrimFloat.div (Z2F a) (Z2F b))) eqn:Q; try contradiction;
    rewrite <- Q, SF2Prim_Prim2SF; reflexivity.
Qed.

(** Python's quotient raises only for a zero divisor, given a numerator
    below [2^63]. *)
Lemma int_truediv_ok a b :
  (Z.abs a < 2 ^ 63)%Z -> b <> 0%Z -> exists q, int_truediv a b = Ok q.
Proof.
  intros Ha Hb. unfold int_truediv.
  replace (b =? 0)%Z with false by (symmetry; now apply Z.eqb_neq).
  pose proof (SFdiv_integers_finite a b Ha Hb) as F.
  destruct (SFdiv prec emax (Z2SF a) (Z2SF b)); try contradiction; eexists; reflexivity.
Qed.

Lemma int_truediv_zero a : int_truediv a 0 = Raise ZeroDivisionError.
Proof. reflexivity. Qed.

Lemma float_truediv_int_ok x n :
  (0 < Z.abs n < 2 ^ 53)%Z -> float_truediv_int x n = Ok (PrimFloat.div x (Z2F n)).
Proof.
  intros H. unfold float_truediv_int.
  replace (n =? 0)%Z with false by (symmetry; apply Z.eqb_neq; lia).
  pose proof (Z2F_finite n ltac:(lia)) as F.
  rewrite is_finite_spec in F. rewrite is_infinity_spec.
  destruct (Prim2SF (Z2F n)); try discriminate; reflexivity.
Qed.

(* ================================================================== *)
(** * Differences, squares and square roots of exact integers         *)
(* ================================================================== *)











(* ================================================================== *)
(** * Stable sorting and argsort                                       *)
(* ================================================================== *)

Section StableSortFacts.

Context {A : Type}.
Variable less : A -> A -> bool.

Lemma insert_stable_perm x s : Permutation (insert_stable less x s) (x :: s).
Proof.
  induction s as [|y s IH]; simpl; auto.
  destruct (less (snd y) (snd x)); auto.
  eapply perm_trans; [apply perm_skip, IH | apply perm_swap].
Qed.

Lemma stable_sort_perm l : Permutation (stable_sort less l) l.
Proof.
  induction l as [|x l IH]; simpl; auto.
  eapply perm_trans; [apply insert_stable_perm | auto].
Qed.

Lemma map_fst_combine_seq (l : list A) s :
  map fst (combine (seq s (length l)) l) = seq s (length l).
Proof.
  revert s. induction l as [|x l IH]; intros s; simpl; auto.
  now rewrite IH.
Qed.

Lemma map_snd_combine_seq (l : list A) s :
  map snd (combine (seq s (length l)) l) = l.
Proof.
  revert s. induction l as [|x l IH]; intros s; simpl; auto.
  now rewrite IH.
Qed.

Lemma argsort_perm l : Permutation (argsort less l) (seq 0 (length l)).
Proof.
  unfold argsort, enumerate.
  rewrite <- (map_fst_combine_seq l 0) at 2.
  apply Permutation_map, stable_sort_perm.
Qed.

Lemma argsort_length l : length (argsort less l) = length l.
Proof.
  rewrite (Permutation_length (argsort_perm l)). apply length_seq.
Qed.

Lemma argsort_NoDup l : NoDup (argsort less l).
Proof.
  eapply Permutation_NoDup; [symmetry; apply argsort_perm | apply seq_NoDup].
Qed.

Lemma argsort_In l j : In j (argsort less l) <-> j < length l.
Proof.
  split; intros H.
  - apply (Permutation_in _ (argsort_perm l)) in H. apply in_seq in H. lia.
  - apply (Permutation_in _ (Permutation_sym (argsort_perm l))).
    apply in_seq. lia.
Qed.

(** An entry that is strictly below everything to its left and not above
    anything to its right is the first one in the sorted order. *)
Lemma stable_sort_head l1 x l2 :
  (forall y, In y l1 -> less (snd x) (snd y) = true) ->
  (forall y, In y l2 -> less (snd y) (snd x) = false) ->
  exists s, stable_sort less (l1 ++ x :: l2) = x :: s.
Proof.
  intros H1 H2. induction l1 as [|z l1 IH].
  - simpl. destruct (stable_sort less l2) as [|y s] eqn:E.
    + now exists [].
    + simpl. rewrite H2.
      * now exists (y :: s).
      * apply (Permutation_in _ (stable_sort_perm l2)). rewrite E. now left.
  - destruct IH as [s Hs].
    + intros y Hy. apply H1. now right.
    + simpl. rewrite Hs. simpl. rewrite H1 by now left.
      now exists (insert_stable less z s).
Qed.

Lemma combine_seq_app (l1 l2 : list A) s :
  combine (seq s (length (l1 ++ l2))) (l1 ++ l2)
  = combine (seq s (length l1)) l1
    ++ combine (seq (s + length l1) (length l2)) l2.
Proof.
  revert s. induction l1 as [|x l1 IH]; intros s; simpl.
  - now rewrite Nat.add_0_r.
  - rewrite IH. replace (s + S (length l1)) with (S s + length l1) by lia.
    reflexivity.
Qed.

Lemma argsort_head_app l1 x l2 :
  (forall y, In y l1 -> less x y = true) ->
  (forall y, In y l2 -> less y x = false) ->
  exists t, argsort less (l1 ++ x :: l2) = length l1 :: t.
Proof.
  intros H1 H2. unfold argsort, enumerate.
  rewrite combine_seq_app. simpl.
  destruct (stable_sort_head
              (combine (seq 0 (length l1)) l1) (length l1, x)
              (combine (seq (S (length l1)) (length l2)) l2)) as [s Hs].
  - intros [j y] Hy. simpl. apply in_combine_r in Hy. auto.
  - intros [j y] Hy. simpl. apply in_combine_r in Hy. auto.
  - rewrite Hs. simpl. now exists (map fst s).
Qed.

Lemma split_at_nth (l : list A) d i :
  i < length l -> l = firstn i l ++ nth i l d :: skipn (S i) l.
Proof.
  revert i. induction l as [|a l IH]; intros i Hi; simpl in Hi; [lia|].
  destruct i as [|i]; simpl; [reflexivity|].
  f_equal. apply IH. lia.
Qed.

Lemma argsort_head l d i :
  i < length l ->
  (forall j, j < i -> less (nth i l d) (nth j l d) = true) ->
  (forall j, i < j < length l -> less (nth j l d) (nth i l d) = false) ->
  exists t, argsort less l = i :: t.
Proof.
  intros Hi Hlt Hge.
  assert (Hl : length (firstn i l) = i) by (rewrite length_firstn; lia).
  destruct (argsort_head_app (firstn i l) (nth i l d) (skipn (S i) l)) as [t Ht].
  - intros y Hy. destruct (In_nth _ _ d Hy) as (j & Hj & <-).
    rewrite Hl in Hj. rewrite nth_firstn.
    replace (j <? i) with true by (symmetry; apply Nat.ltb_lt; lia). auto.
  - intros y Hy. destruct (In_nth _ _ d Hy) as (j & Hj & <-).
    rewrite length_skipn in Hj. rewrite nth_skipn. apply Hge. lia.
  - rewrite <- split_at_nth, Hl in Ht by assumption. now exists t.
Qed.

End StableSortFacts.

(* ================================================================== *)
(** * Sorted lists of indices                                          *)
(* ================================================================== *)

Lemma sorted_lt_unique (l1 l2 : list nat) :
  StronglySorted lt l1 -> StronglySorted lt l2 ->
  (forall x, In x l1 <-> In x l2) -> l1 = l2.
Proof.
  intros S1. revert l2. induction S1 as [|a l1 S1 IH F1]; intros l2 S2 H.
  - destruct l2 as [|b l2]; auto. destruct (proj2 (H b)). now left.
  - destruct S2 as [|b l2 S2 F2].
    + destruct (proj1 (H a)). now left.
    + rewrite Forall_forall in F1, F2.
      assert (a = b).
      { destruct (proj1 (H a) (or_introl eq_refl)) as [E|I]; auto.
        destruct (proj2 (H b) (or_introl eq_refl)) as [E|I']; auto.
        apply F2 in I. apply F1 in I'. lia. }
      subst b. f_equal. apply IH; auto.
      intros x. split; intros I.
      * destruct (proj1 (H x) (or_intror I)) as [E|I']; auto.
        subst x. apply F1 in I. lia.
      * destruct (proj2 (H x) (or_intror I)) as [E|I']; auto.
        subst x. apply F2 in I. lia.
Qed.

Lemma sorted_le_NoDup_lt (l : list nat) :
  StronglySorted le l -> NoDup l -> StronglySorted lt l.
Proof.
  induction 1 as [|a l S IH F]; intros N; constructor.
  - apply IH. now inversion N.
  - inversion N; subst. rewrite Forall_forall in *. intros x I.
    specialize (F x I). assert (a <> x) by (intros ->; contradiction). lia.
Qed.

Lemma seq_sorted s n : StronglySorted lt (seq s n).
Proof.
  revert s. induction n as [|n IH]; intros s; simpl; constructor; auto.
  apply Forall_forall. intros x I. apply in_seq in I. lia.
Qed.

Lemma filter_sorted (R : nat -> nat -> Prop) f l :
  StronglySorted R l -> StronglySorted R (filter f l).
Proof.
  induction 1 as [|a l S IH F]; simpl; [constructor|].
  destruct (f a); auto. constructor; auto.
  rewrite Forall_forall in *. intros x I. apply filter_In in I. apply F, I.
Qed.

Lemma insert_stable_key_sorted (x : nat * nat) s :
  StronglySorted (fun a b => snd a <= snd b) s ->
  StronglySorted (fun a b => snd a <= snd b) (insert_stable Nat.ltb x s).
Proof.
  induction 1 as [|y s S IH F]; simpl.
  - repeat constructor.
  - destruct (snd y <? snd x) eqn:E.
    + apply Nat.ltb_lt in E. constructor; auto.
      rewrite Forall_forall in *. intros z I.
      apply (Permutation_in _ (insert_stable_perm Nat.ltb x s)) in I.
      destruct I as [<-|I]; [lia | auto].
    + apply Nat.ltb_ge in E. constructor; [constructor; auto|].
      constructor; auto.
      rewrite Forall_forall in *. intros z I. specialize (F z I). lia.
Qed.

Lemma stable_sort_key_sorted (l : list (nat * nat)) :
  StronglySorted (fun a b => snd a <= snd b) (stable_sort Nat.ltb l).
Proof.
  induction l as [|x l IH]; simpl; [constructor|].
  now apply insert_stable_key_sorted.
Qed.

Lemma sorted_map_snd (l : list (nat * nat)) :
  StronglySorted (fun a b => snd a <= snd b) l -> StronglySorted le (map snd l).
Proof.
  induction 1 as [|a l S IH F]; simpl; constructor; auto.
  rewrite Forall_forall in *. intros x I. apply in_map_iff in I.
  destruct I as (y & <- & I). auto.
Qed.

Lemma combine_seq_In {A : Type} (l : list A) s j y :
  In (j, y) (combine (seq s (length l)) l) ->
  s <= j /\ nth_error l (j - s) = Some y.
Proof.
  revert s. induction l as [|x l IH]; intros s; simpl; [tauto|].
  intros [E|H].
  - inversion E; subst. rewrite Nat.sub_diag. auto.
  - apply IH in H. destruct H as [H1 H2]. split; [lia|].
    replace (j - s) with (S (j - S s)) by lia. exact H2.
Qed.

(** The keys of a sorted permutation of [0..n-1] are [0..n-1] in order. *)
Lemma sorted_keys_of_permutation p n :
  Permutation p (seq 0 n) ->
  map snd (stable_sort Nat.ltb (enumerate p)) = seq 0 n.
Proof.
  intros P.
  assert (Q : Permutation (map snd (stable_sort Nat.ltb (enumerate p))) (seq 0 n)).
  { eapply perm_trans; [apply Permutation_map, stable_sort_perm|].
    unfold enumerate. now rewrite map_snd_combine_seq. }
  apply sorted_lt_unique.
  - apply sorted_le_NoDup_lt.
    + apply sorted_map_snd, stable_sort_key_sorted.
    + eapply Permutation_NoDup; [symmetry; exact Q | apply seq_NoDup].
  - apply seq_sorted.
  - intros x. split; apply Permutation_in; auto using Permutation_sym.
Qed.

(** Argsort of a permutation is its inverse: the entry found at position
    [s] of [p] is sent back to [s]. *)
Lemma argsort_inverse p n s :
  Permutation p (seq 0 n) -> s < n ->
  nth (nth s p 0) (argsort Nat.ltb p) 0 = s.
Proof.
  intros P Hs.
  assert (Lp : length p = n) by (rewrite (Permutation_length P); apply length_seq).
  assert (Np : NoDup p) by (eapply Permutation_NoDup; [symmetry; exact P | apply seq_NoDup]).
  set (t := nth s p 0).
  assert (Ht : t < n).
  { assert (I : In t (seq 0 n)) by (apply (Permutation_in _ P), nth_In; lia).
    apply in_seq in I. lia. }
  set (S := stable_sort Nat.ltb (enumerate p)).
  assert (LS : length S = n).
  { unfold S. rewrite (Permutation_length (stable_sort_perm _ _)).
    unfold enumerate. rewrite length_combine, length_seq. lia. }
  assert (K : snd (nth t S (0, 0)) = t).
  { rewrite <- map_nth. unfold S. rewrite (sorted_keys_of_permutation p n P).
    rewrite seq_nth by lia. reflexivity. }
  assert (I : In (nth t S (0, 0)) (enumerate p)).
  { apply (Permutation_in _ (stable_sort_perm Nat.ltb _)). apply nth_In. fold S. lia. }
  destruct (nth t S (0, 0)) as [idx key] eqn:E. simpl in K. subst key.
  apply combine_seq_In in I. destruct I as [_ I]. rewrite Nat.sub_0_r in I.
  assert (R : nth t (argsort Nat.ltb p) 0 = idx).
  { unfold argsort. fold S. change 0 with (fst (0, 0)) at 1.
    rewrite map_nth, E. reflexivity. }
  rewrite R.
  assert (Hidx : idx < length p) by (apply nth_error_Some; congruence).
  apply (proj1 (NoDup_nth_error p) Np); auto.
  rewrite I. symmetry. apply nth_error_nth'. lia.
Qed.

(* ================================================================== *)
(** * Slices and the set operations on index lists                     *)
(* ================================================================== *)

Lemma In_firstn {A : Type} n (l : list A) x : In x (firstn n l) -> In x l.
Proof.
  revert n. induction l as [|y l IH]; intros [|n]; simpl; try tauto.
  intros [E|I]; eauto.
Qed.

Lemma In_skipn {A : Type} n (l : list A) x : In x (skipn n l) -> In x l.
Proof.
  revert n. induction l as [|y l IH]; intros [|n]; simpl; try tauto.
  eauto.
Qed.

Lemma py_slice_incl {A : Type} (a : list A) start stop x :
  In x (py_slice a start stop) -> In x a.
Proof.
  unfold py_slice. intros H.
  apply In_firstn in H. apply In_skipn in H. exact H.
Qed.

Lemma firstn_NoDup {A : Type} n (l : list A) : NoDup l -> NoDup (firstn n l).
Proof.
  revert n. induction l as [|x l IH]; intros n N; destruct n; simpl;
    try constructor.
  - inversion N; subst. intros I. apply In_firstn in I. contradiction.
  - inversion N; subst. auto.
Qed.

Lemma skipn_NoDup {A : Type} n (l : list A) : NoDup l -> NoDup (skipn n l).
Proof.
  revert n. induction l as [|x l IH]; intros n N; destruct n; simpl; auto.
  inversion N; subst. auto.
Qed.

Lemma py_slice_NoDup {A : Type} (a : list A) start stop :
  NoDup a -> NoDup (py_slice a start stop).
Proof.
  intros N. unfold py_slice. now apply firstn_NoDup, skipn_NoDup.
Qed.

(** A slice from 1 leaves out position 0. *)
Lemma py_slice_from_1 {A : Type} (x : A) (t : list A) stop :
  exists m, py_slice (x :: t) 1 stop = firstn m t.
Proof.
  unfold py_slice. set (len := Z.of_nat (length (x :: t))).
  assert (E : slice_bound len 1 = 1%Z).
  { unfold slice_bound, len. change (length (x :: t)) with (S (length t)).
    replace (1 <? 0)%Z with false by reflexivity. lia. }
  rewrite E. change (skipn (Z.to_nat 1) (x :: t)) with t. eexists. reflexivity.
Qed.

Lemma py_slice_length_valid {A : Type} (a : list A) k :
  (1 <= k <= Z.of_nat (length a) - 1)%Z ->
  length (py_slice a 1 (k + 1)) = Z.to_nat k.
Proof.
  intros H. unfold py_slice, slice_bound.
  replace (1 <? 0)%Z with false by reflexivity.
  replace (k + 1 <? 0)%Z with false by (symmetry; apply Z.ltb_ge; lia).
  rewrite length_firstn, length_skipn. lia.
Qed.

(** Beyond the last column the slice stops at the end of the row. *)
Lemma py_slice_truncates {A : Type} (a : list A) k :
  (Z.of_nat (length a) <= k)%Z ->
  py_slice a 1 (k + 1) = tl a.
Proof.
  intros H. unfold py_slice, slice_bound.
  replace (1 <? 0)%Z with false by reflexivity.
  replace (k + 1 <? 0)%Z with false by (symmetry; apply Z.ltb_ge; lia).
  destruct a as [|x t].
  - rewrite skipn_nil, firstn_nil. reflexivity.
  - change (length (x :: t)) with (S (length t)) in *.
    replace (Z.to_nat (Z.min 1 (Z.of_nat (S (length t))))) with 1 by lia.
    change (skipn 1 (x :: t)) with t. apply firstn_all2. simpl tl. lia.
Qed.

Lemma mem_In x l : mem x l = true <-> In x l.
Proof.
  unfold mem. rewrite existsb_exists. split.
  - intros (y & I & E). apply Nat.eqb_eq in E. now subst.
  - intros I. exists x. split; auto. apply Nat.eqb_refl.
Qed.

Lemma insert_unique_In x s y :
  In y (insert_unique x s) <-> y = x \/ In y s.
Proof.
  induction s as [|z s IH]; simpl.
  - intuition.
  - destruct (x <? z); [simpl; intuition|].
    destruct (x =? z) eqn:E.
    + apply Nat.eqb_eq in E. subst. simpl. intuition.
    + simpl. rewrite IH. intuition.
Qed.

Lemma insert_unique_sorted x s :
  StronglySorted lt s -> StronglySorted lt (insert_unique x s).
Proof.
  induction 1 as [|z s S IH F]; simpl.
  - repeat constructor.
  - destruct (x <? z) eqn:L.
    + apply Nat.ltb_lt in L. constructor; [constructor; auto|].
      constructor; auto. rewrite Forall_forall in *. intros y I.
      specialize (F y I). lia.
    + destruct (x =? z) eqn:E; [constructor; auto|].
      apply Nat.ltb_ge in L. apply Nat.eqb_neq in E.
      constructor; auto. rewrite Forall_forall in *. intros y I.
      apply insert_unique_In in I. destruct I as [->|I]; [lia | auto].
Qed.

Lemma np_unique_In l y : In y (np_unique l) <-> In y l.
Proof.
  induction l as [|x l IH]; simpl; [tauto|].
  rewrite insert_unique_In, IH. intuition.
Qed.

Lemma np_unique_sorted l : StronglySorted lt (np_unique l).
Proof.
  induction l as [|x l IH]; simpl; [constructor|].
  now apply insert_unique_sorted.
Qed.

Lemma sorted_lt_NoDup l : StronglySorted lt l -> NoDup l.
Proof.
  induction 1 as [|a l S IH F]; constructor; auto.
  intros I. rewrite Forall_forall in F. specialize (F a I). lia.
Qed.

Lemma np_unique_length l : NoDup l -> length (np_unique l) = length l.
Proof.
  intros N. apply Permutation_length, NoDup_Permutation; auto.
  - apply sorted_lt_NoDup, np_unique_sorted.
  - apply np_unique_In.
Qed.

Lemma mem_np_unique x l : mem x (np_unique l) = mem x l.
Proof.
  apply eq_true_iff_eq. rewrite !mem_In. apply np_unique_In.
Qed.

(** [setdiff1d] lists, in ascending order, the indices below [n] that are
    in [ar1] and not in [ar2]. *)
Lemma setdiff1d_filter ar1 ar2 n :
  (forall x, In x ar1 -> x < n) ->
  setdiff1d ar1 ar2
  = filter (fun j => mem j ar1 && negb (mem j ar2)) (seq 0 n).
Proof.
  intros B. unfold setdiff1d. apply sorted_lt_unique.
  - apply filter_sorted, np_unique_sorted.
  - apply filter_sorted, seq_sorted.
  - intros x. rewrite !filter_In, np_unique_In, mem_np_unique, in_seq,
      andb_true_iff, mem_In.
    split.
    + intros [H1 H2]. specialize (B x H1).
      rewrite H2. repeat split; auto; lia.
    + intros [_ [H1 H2]]. split; auto.
Qed.

Lemma filter_all {A : Type} (f : A -> bool) l :
  (forall x, In x l -> f x = true) -> filter f l = l.
Proof.
  induction l as [|x l IH]; intros H; simpl; auto.
  rewrite H by now left. f_equal. apply IH. intros y I. apply H. now right.
Qed.

(** A row without repetitions shares all its entries with itself. *)
Lemma intersect1d_self_length l : NoDup l -> length (intersect1d l l) = length l.
Proof.
  intros N. unfold intersect1d. rewrite filter_all.
  - now apply np_unique_length.
  - intros x I. now apply mem_In.
Qed.

(* ================================================================== *)
(** * Shape and entries of the matrices                                *)
(* ================================================================== *)

Lemma nth_map_in_range {A B : Type} (d : A) (f : A -> B) l i d' :
  i < length l -> nth i (map f l) d' = f (nth i l d).
Proof.
  intros H. rewrite (nth_indep _ d' (f d)) by (rewrite length_map; exact H).
  apply map_nth.
Qed.

Lemma pairwise_distances_euclidean X :
  pairwise_distances X = map (fun xi => map (fun xj => euclidean xi xj) X) X.
Proof.
  unfold pairwise_distances. rewrite !map_map. apply map_ext. intros xi.
  rewrite !map_map. apply map_ext. intros xj. reflexivity.
Qed.

Lemma pairwise_distances_length X : length (pairwise_distances X) = length X.
Proof. rewrite pairwise_distances_euclidean. apply length_map. Qed.

Lemma pairwise_distances_row X i :
  i < length X ->
  nth i (pairwise_distances X) [] = map (euclidean (nth i X [])) X.
Proof.
  intros H. rewrite pairwise_distances_euclidean.
  now rewrite (nth_map_in_range []).
Qed.

Lemma pairwise_distances_row_length X i :
  i < length X -> length (nth i (pairwise_distances X) []) = length X.
Proof. intros H. rewrite pairwise_distances_row by exact H. apply length_map. Qed.

Lemma distance_euclidean X i j :
  i < length X -> j < length X ->
  distance X i j = euclidean (nth i X []) (nth j X []).
Proof.
  intros Hi Hj. unfold distance. rewrite pairwise_distances_row by exact Hi.
  now rewrite (nth_map_in_range []).
Qed.

Lemma get_neighbours_and_ranks_eq X k :
  get_neighbours_and_ranks X k = Ok (neighbourhoods X k, ranks X).
Proof. reflexivity. Qed.

Lemma orderings_length X : length (orderings X) = length X.
Proof. unfold orderings. now rewrite length_map, pairwise_distances_length. Qed.

Lemma orderings_row X i :
  i < length X ->
  nth i (orderings X) [] = argsort np_less (nth i (pairwise_distances X) []).
Proof.
  intros H. unfold orderings.
  now rewrite (nth_map_in_range []) by (now rewrite pairwise_distances_length).
Qed.

Lemma orderings_row_perm X i :
  i < length X -> Permutation (nth i (orderings X) []) (seq 0 (length X)).
Proof.
  intros H. rewrite orderings_row by exact H.
  rewrite <- (pairwise_distances_row_length X i H). apply argsort_perm.
Qed.

Lemma ranks_length X : length (ranks X) = length X.
Proof. unfold ranks. now rewrite length_map, orderings_length. Qed.

Lemma ranks_row X i :
  i < length X -> nth i (ranks X) [] = argsort Nat.ltb (nth i (orderings X) []).
Proof.
  intros H. unfold ranks.
  now rewrite (nth_map_in_range []) by (now rewrite orderings_length).
Qed.

Lemma ranks_row_perm X i :
  i < length X -> Permutation (nth i (ranks X) []) (seq 0 (length X)).
Proof.
  intros H. rewrite ranks_row by exact H.
  pose proof (argsort_perm Nat.ltb (nth i (orderings X) [])) as P.
  now rewrite (Permutation_length (orderings_row_perm X i H)), length_seq in P.
Qed.

Lemma ranks_row_length X i :
  i < length X -> length (nth i (ranks X) []) = length X.
Proof.
  intros H. rewrite (Permutation_length (ranks_row_perm X i H)). apply length_seq.
Qed.

Lemma neighbourhoods_length X k : length (neighbourhoods X k) = length X.
Proof. unfold neighbourhoods. now rewrite length_map, orderings_length. Qed.

Lemma neighbourhood_row X k i :
  i < length X ->
  neighbourhood X k i = py_slice (nth i (orderings X) []) 1 (k + 1).
Proof.
  intros H. unfold neighbourhood, neighbourhoods.
  now rewrite (nth_map_in_range []) by (now rewrite orderings_length).
Qed.

Lemma neighbourhood_NoDup X k i : i < length X -> NoDup (neighbourhood X k i).
Proof.
  intros H. rewrite neighbourhood_row by exact H. apply py_slice_NoDup.
  eapply Permutation_NoDup; [symmetry; apply orderings_row_perm, H | apply seq_NoDup].
Qed.

Lemma neighbourhood_bound X k i j :
  i < length X -> In j (neighbourhood X k i) -> j < length X.
Proof.
  intros H I. rewrite neighbourhood_row in I by exact H.
  apply py_slice_incl in I.
  apply (Permutation_in _ (orderings_row_perm X i H)), in_seq in I. lia.
Qed.

Lemma neighbourhood_length X k i :
  i < length X -> valid_k (length X) k ->
  length (neighbourhood X k i) = Z.to_nat k.
Proof.
  intros H V. rewrite neighbourhood_row by exact H.
  apply py_slice_length_valid.
  rewrite (Permutation_length (orderings_row_perm X i H)), length_seq. exact V.
Qed.

(* ================================================================== *)
(** * The distance matrix                                              *)
(* ================================================================== *)

Lemma squared_differences_swap (xi xj : vector) :
  map np_square (map (fun '(a, b) => PrimFloat.sub a b) (combine xj xi))
  = map np_square (map (fun '(a, b) => PrimFloat.sub a b) (combine xi xj)).
Proof.
  revert xj. induction xi as [|a xi IH]; intros [|b xj]; simpl; auto.
  rewrite IH. f_equal. apply square_sub_swap.
Qed.


Lemma squared_differences_diag (x : vector) :
  finite_row x ->
  map np_square (map (fun '(a, b) => PrimFloat.sub a b) (combine x x))
  = repeat PrimFloat.zero (length x).
Proof.
  induction 1 as [|a x Ha Hx IH]; simpl; auto.
  rewrite IH, (sub_diag a Ha). reflexivity.
Qed.

Lemma np_sum_zeros n : np_sum (repeat PrimFloat.zero n) = PrimFloat.zero.
Proof.
  apply np_sum_of_zeros, Forall_forall. intros x I. now apply repeat_spec in I.
Qed.

Lemma euclidean_diag x : finite_row x -> euclidean x x = PrimFloat.zero.
Proof.
  intros H. unfold euclidean.
  rewrite (squared_differences_diag x H), np_sum_zeros. reflexivity.
Qed.



Lemma distance_diag X i :
  i < length X -> finite_row (nth i X []) -> distance X i i = PrimFloat.zero.
Proof.
  intros Hi F. rewrite distance_euclidean by assumption. now apply euclidean_diag.
Qed.

Lemma distance_not_negative X i j :
  i < length X -> j < length X ->
  PrimFloat.ltb (distance X i j) PrimFloat.zero = false.
Proof.
  intros Hi Hj. rewrite distance_euclidean by assumption.
  apply sqrt_not_negative.
Qed.









(* ================================================================== *)
(** * Neighbourhoods and ranks                                         *)
(* ================================================================== *)

Lemma np_less_zero_left x :
  PrimFloat.ltb x PrimFloat.zero = false ->
  PrimFloat.eqb x PrimFloat.zero = false ->
  np_less PrimFloat.zero x = true.
Proof.
  unfold np_less. rewrite is_nan_spec, !ltb_spec, eqb_spec, Prim2SF_zero.
  replace (is_nan PrimFloat.zero) with false by reflexivity.
  destruct (Prim2SF x) as [[]|[]| |[] m e]; simpl; intros H1 H2;
    try discriminate H1; try discriminate H2; reflexivity.
Qed.

Lemma np_less_zero_right x :
  PrimFloat.ltb x PrimFloat.zero = false -> np_less x PrimFloat.zero = false.
Proof.
  unfold np_less. intros ->.
  replace (is_nan PrimFloat.zero) with false by reflexivity. reflexivity.
Qed.

(** Then [i] itself opens row [i] of the ordering. *)
Lemma ordering_starts_with_self X i :
  i < length X -> finite_row (nth i X []) -> no_earlier_twin X i ->
  exists t, nth i (orderings X) [] = i :: t.
Proof.
  intros Hi F T. rewrite orderings_row by exact Hi.
  apply (argsort_head np_less _ PrimFloat.zero).
  - now rewrite pairwise_distances_row_length.
  - intros j Hj. fold (distance X i i). fold (distance X i j).
    rewrite distance_diag by assumption.
    apply np_less_zero_left; [apply distance_not_negative; lia | now apply T].
  - intros j Hj. rewrite pairwise_distances_row_length in Hj by exact Hi.
    fold (distance X i i). fold (distance X i j).
    rewrite distance_diag by assumption.
    apply np_less_zero_right, distance_not_negative; lia.
Qed.

Lemma neighbourhood_excludes_self X k i :
  i < length X -> finite_row (nth i X []) -> no_earlier_twin X i ->
  ~ In i (neighbourhood X k i).
Proof.
  intros Hi F T I.
  pose proof (orderings_row_perm X i Hi) as P.
  destruct (ordering_starts_with_self X i Hi F T) as [t E].
  rewrite neighbourhood_row, E in I by exact Hi.
  destruct (py_slice_from_1 i t (k + 1)) as [m Em]. rewrite Em in I.
  apply In_firstn in I.
  assert (N : NoDup (i :: t)).
  { rewrite <- E. eapply Permutation_NoDup; [symmetry; exact P | apply seq_NoDup]. }
  inversion N; contradiction.
Qed.

Lemma rank_of_self X i :
  i < length X -> finite_row (nth i X []) -> no_earlier_twin X i ->
  rank X i i = 0.
Proof.
  intros Hi F T.
  pose proof (orderings_row_perm X i Hi) as P.
  destruct (ordering_starts_with_self X i Hi F T) as [t E].
  unfold rank. rewrite ranks_row by exact Hi.
  pose proof (argsort_inverse (nth i (orderings X) []) (length X) 0 P ltac:(lia)) as R.
  rewrite E in R at 1. simpl nth in R at 2. exact R.
Qed.

(** C1, at the failing input: two points with the same coordinates.  Row 1
    of the neighbourhood matrix is [[1]]: point 1 is its own neighbour,
    and its twin 0 is left out. *)
Theorem neighbourhood_contains_self_for_twins :
  get_neighbours_and_ranks [[0]; [0]]%float 1
  = Ok ([[1]; [1]], [[0; 1]; [0; 1]]) /\
  In 1 (neighbourhood [[0]; [0]]%float 1 1).
Proof. split; [vm_compute; reflexivity | vm_compute; auto]. Qed.

(** A consequence for the measure: the twin of a point has rank 0 and is
    not in the sliced neighbourhood, so it counts as an intruder with the
    negative weight [0 - k], and [trustworthiness] exceeds 1 (here it is
    1.3333333333333333). *)
Example trustworthiness_above_one_for_twins :
  trustworthiness [[0]; [0]; [5]]%float [[0]; [5]; [0]]%float 1
  = Ok 0x1.5555555555555p+0%float /\
  trustworthiness_sum [[0]; [0]; [5]]%float [[0]; [5]; [0]]%float 1 = (-1)%Z.
Proof. split; vm_compute; reflexivity. Qed.

(** C2, as stated, fails at the same input: [k = 1] is valid for two
    points, and position 1 of row 1 of the rank matrix holds 1, not 0. *)
Lemma rank_of_self_nonzero_for_twins :
  valid_k (length [[0]; [0]]%float) 1 /\
  get_neighbours_and_ranks [[0]; [0]]%float 1
  = Ok ([[1]; [1]], [[0; 1]; [0; 1]]) /\
  nth 1 (nth 1 [[0; 1]; [0; 1]] []) 0 <> 0.
Proof.
  split; [unfold valid_k; simpl; lia|].
  split; [vm_compute; reflexivity | simpl; discriminate].
Qed.

(** C2, amended: every row [i] of the rank matrix is a permutation of
    [0..n-1]; its entry at position [i] is 0 when the coordinates of point
    [i] are finite and no point with a smaller index lies at distance zero
    from it. *)
Theorem rank_rows_are_permutations :
  forall (X : matrix) (k : Z) (i : nat) ranks_matrix neighbours,
    get_neighbours_and_ranks X k = Ok (neighbours, ranks_matrix) ->
    i < length X ->
    Permutation (nth i ranks_matrix []) (seq 0 (length X)) /\
    (finite_row (nth i X []) -> no_earlier_twin X i ->
     nth i (nth i ranks_matrix []) 0 = 0).
Proof.
  intros X k i rk nb E Hi.
  rewrite get_neighbours_and_ranks_eq in E. inversion E; subst rk nb.
  split; [now apply ranks_row_perm|].
  intros F T. now apply rank_of_self.
Qed.

Lemma rank_rows_are_permutations_witness :
  Permutation (nth 3 (ranks [[0; 0]; [1; 0]; [0; 1]; [5; 5]]%float) []) (seq 0 4) /\
  nth 3 (nth 3 (ranks [[0; 0]; [1; 0]; [0; 1]; [5; 5]]%float) []) 0 = 0.
Proof.
  destruct (rank_rows_are_permutations [[0; 0]; [1; 0]; [0; 1]; [5; 5]]%float 1 3
              (ranks [[0; 0]; [1; 0]; [0; 1]; [5; 5]]%float)
              (neighbourhoods [[0; 0]; [1; 0]; [0; 1]; [5; 5]]%float 1)
              eq_refl ltac:(simpl; lia)) as [P R].
  split; [exact P|]. apply R.
  - repeat constructor.
  - intros j Hj.
    destruct j as [|[|[|j]]]; try (vm_compute; reflexivity). lia.
Defined.

(* ================================================================== *)
(** * Loops                                                            *)
(* ================================================================== *)

Lemma getitem_ok {A : Type} (d : A) (a : list A) i :
  i < length a -> getitem a i = Ok (nth i a d).
Proof.
  intros H. unfold getitem. now rewrite (nth_error_nth' a d H).
Qed.

(** [M[row]] for a row index within the matrix [M]. *)
Ltac get_row M row :=
  rewrite (getitem_ok [] M row)
    by (rewrite ?neighbourhoods_length, ?ranks_length; lia);
  cbn [bind].

(** Within int64 the difference of an int64 and a Python integer is the
    difference. *)
Lemma int64_sub_pyint_exact a k :
  (- 2 ^ 63 <= k < 2 ^ 63)%Z -> (- 2 ^ 63 <= a - k < 2 ^ 63)%Z ->
  int64_sub_pyint a k = Ok (a - k)%Z.
Proof.
  intros Hk Hd. unfold int64_sub_pyint, in_int64, wrap_int64.
  replace (- 2 ^ 63 <=? k)%Z with true by (symmetry; apply Z.leb_le; lia).
  replace (k <? 2 ^ 63)%Z with true by (symmetry; apply Z.ltb_lt; lia).
  cbn [andb]. f_equal. rewrite Z.mod_small; lia.
Qed.

Lemma for_each_ok {A S : Type} (l : list A) (body : S -> A -> pyres S) acc :
  (forall s x, In x l -> exists s', body s x = Ok s') ->
  exists r, for_each l body acc = Ok r.
Proof.
  revert acc. induction l as [|x l IH]; intros acc H; simpl.
  - now exists acc.
  - destruct (H acc x (or_introl eq_refl)) as [s' E]. rewrite E. simpl.
    apply IH. intros s y I. apply H. now right.
Qed.

Lemma trustworthiness_unfold X Z k :
  trustworthiness X Z k =
  (result <- trustworthiness_loop X Z k ;;
   c <- int_truediv 2 (Z.of_nat (length X) * k * (2 * Z.of_nat (length X) - 3 * k - 1)) ;;
   Ok (PrimFloat.sub PrimFloat.one (PrimFloat.mul c result))).
Proof. reflexivity. Qed.

Lemma neighbouhood_loss_unfold X Z k :
  neighbouhood_loss X Z k =
  (result <- neighbouhood_loss_loop X Z k ;;
   q <- float_truediv_int result (Z.of_nat (length X)) ;;
   Ok (PrimFloat.sub PrimFloat.one q)).
Proof. reflexivity. Qed.

(** A loop that adds an integer [G x] per element accumulates the exact
    integer sum, as long as the running total stays below [2^53]. *)
Lemma for_each_Z2F {A : Type} (l : list A) (G W : A -> Z)
    (body : float -> A -> pyres float) s0 :
  (forall x, In x l -> (Z.abs (G x) <= W x)%Z) ->
  (forall s x, In x l -> (Z.abs s + W x < 2 ^ 53)%Z ->
               body (Z2F s) x = Ok (Z2F (s + G x))) ->
  (Z.abs s0 + Zsum (map W l) < 2 ^ 53)%Z ->
  for_each l body (Z2F s0) = Ok (Z2F (s0 + Zsum (map G l))).
Proof.
  revert s0. induction l as [|x l IH]; intros s0 HG Hb Hs;
    simpl map in *; simpl Zsum in *; simpl for_each.
  - now rewrite Z.add_0_r.
  - pose proof (HG x (or_introl eq_refl)) as Hx.
    assert (0 <= Zsum (map W l))%Z.
    { apply Zsum_nonneg, Forall_forall. intros z I.
      apply in_map_iff in I. destruct I as (y & <- & I).
      specialize (HG y (or_intror I)). lia. }
    rewrite Hb by (auto with datatypes; lia). cbn [bind].
    rewrite IH.
    + f_equal. f_equal. lia.
    + intros y I. apply HG. now right.
    + intros s y I. apply Hb. now right.
    + lia.
Qed.

(* ================================================================== *)
(** * Trustworthiness                                                  *)
(* ================================================================== *)

Lemma setdiff1d_incl ar1 ar2 x : In x (setdiff1d ar1 ar2) -> In x ar1.
Proof.
  unfold setdiff1d. intros I. apply filter_In in I. now apply np_unique_In.
Qed.

Lemma filter_length_le {A : Type} (f : A -> bool) l :
  length (filter f l) <= length l.
Proof.
  induction l as [|x l IH]; simpl; auto. destruct (f x); simpl; lia.
Qed.

Lemma setdiff1d_length ar1 ar2 :
  NoDup ar1 -> length (setdiff1d ar1 ar2) <= length ar1.
Proof.
  intros N. unfold setdiff1d. rewrite <- (np_unique_length ar1 N).
  apply filter_length_le.
Qed.

Lemma rank_bound X i j :
  i < length X -> j < length X -> rank X i j < length X.
Proof.
  intros Hi Hj. unfold rank.
  assert (I : In (nth j (nth i (ranks X) []) 0) (nth i (ranks X) [])).
  { apply nth_In. now rewrite ranks_row_length. }
  apply (Permutation_in _ (ranks_row_perm X i Hi)), in_seq in I. lia.
Qed.

(** One row of the loop: the ranks of the intruders of [row], minus [k]
    each, are added to the running sum. *)
Lemma trustworthiness_row X Z k row s :
  length X = length Z -> valid_k (length X) k -> row < length X ->
  (Z.abs s + k * Z.of_nat (length X) < 2 ^ 53)%Z ->
  for_each (setdiff1d (neighbourhood Z k row) (neighbourhood X k row))
    (fun result neighbour =>
       ranks_row <- getitem (ranks X) row ;;
       rank <- getitem ranks_row neighbour ;;
       difference <- int64_sub_pyint (Z.of_nat rank) k ;;
       Ok (PrimFloat.add result (Z2F difference)))
    (Z2F s)
  = Ok (Z2F (s + Zsum (map (fun j => (Z.of_nat (rank X row j) - k)%Z)
                           (intruders X Z k row)))).
Proof.
  intros L V Hr Hs. unfold valid_k in V.
  assert (Hrz : row < length Z) by lia.
  assert (B : forall j, In j (neighbourhood Z k row) -> j < length X).
  { intros j I. rewrite L. eapply neighbourhood_bound; eauto. }
  assert (E : setdiff1d (neighbourhood Z k row) (neighbourhood X k row)
              = intruders X Z k row).
  { apply setdiff1d_filter. exact B. }
  assert (Len : length (intruders X Z k row) <= Z.to_nat k).
  { rewrite <- E, <- (neighbourhood_length Z k row Hrz) by (unfold valid_k; lia).
    apply setdiff1d_length, neighbourhood_NoDup, Hrz. }
  rewrite E.
  apply (for_each_Z2F (intruders X Z k row)
           (fun j => (Z.of_nat (rank X row j) - k)%Z)
           (fun _ => Z.of_nat (length X))).
  - intros j I. unfold intruders in I. apply filter_In in I.
    destruct I as [I _]. apply in_seq in I.
    pose proof (rank_bound X row j Hr ltac:(lia)). lia.
  - intros s' j I Hs'. unfold intruders in I. apply filter_In in I.
    destruct I as [I _]. apply in_seq in I.
    pose proof (rank_bound X row j Hr ltac:(lia)) as Rb.
    get_row (ranks X) row.
    rewrite (getitem_ok 0 (nth row (ranks X) []) j)
      by (rewrite ranks_row_length; lia).
    cbn [bind]. fold (rank X row j).
    rewrite int64_sub_pyint_exact by lia. cbn [bind]. f_equal.
    apply Z2F_add; lia.
  - rewrite Zsum_const. nia.
Qed.

Lemma trustworthiness_loop_sum X Z k :
  length X = length Z -> valid_k (length X) k ->
  (Z.of_nat (length X) * Z.of_nat (length X) * k < 2 ^ 53)%Z ->
  trustworthiness_loop X Z k = Ok (Z2F (trustworthiness_sum X Z k)).
Proof.
  intros L V Hb. unfold trustworthiness_loop, trustworthiness_sum.
  rewrite ranks_length. unfold valid_k in V.
  change PrimFloat.zero with (Z2F 0).
  rewrite <- (Z.add_0_l (Zsum _)).
  apply (for_each_Z2F (seq 0 (length X)) _ (fun _ => (k * Z.of_nat (length X))%Z)).
  - intros i I. apply in_seq in I.
    assert (Hrz : i < length Z) by lia.
    eapply Z.le_trans.
    + apply (Zsum_abs_le _ (fun _ => Z.of_nat (length X))).
      intros j J. unfold intruders in J. apply filter_In in J.
      destruct J as [J _]. apply in_seq in J.
      pose proof (rank_bound X i j ltac:(lia) ltac:(lia)). lia.
    + rewrite Zsum_const.
      assert (Len : length (intruders X Z k i) <= Z.to_nat k).
      { unfold intruders.
        rewrite <- (setdiff1d_filter (neighbourhood Z k i) (neighbourhood X k i) (length X)).
        - rewrite <- (neighbourhood_length Z k i Hrz) by (unfold valid_k; lia).
          apply setdiff1d_length, neighbourhood_NoDup, Hrz.
        - intros j J. rewrite L. eapply neighbourhood_bound; eauto. }
      nia.
  - intros s i I Hs. apply in_seq in I.
    get_row (neighbourhoods Z k) i.
    get_row (neighbourhoods X k) i. fold (neighbourhood Z k i). fold (neighbourhood X k i).
    apply trustworthiness_row; auto. lia.
  - rewrite Zsum_const, length_seq. lia.
Qed.

(** The normalisation constant is even, whatever [n] and [k]. *)
Lemma normalisation_even n k : Z.even (n * k * (2 * n - 3 * k - 1)) = true.
Proof.
  rewrite !Z.even_mul, !Z.even_sub, !Z.even_mul.
  change (Z.even 2) with true. change (Z.even 3) with false.
  change (Z.even 1) with false.
  destruct (Z.even n), (Z.even k); reflexivity.
Qed.

(** C5: for point clouds [X], [Z] with the same number [n] of rows, a valid
    [k] and [2n - 3k - 1 <> 0], [trustworthiness X Z k] returns
    [1 - 2 / (n k (2n - 3k - 1)) * S], where [S] is the sum, over every point
    [i] and every [j] in [Z]'s [k]-neighbourhood of [i] but not in [X]'s, of
    the rank of [j] in [X]'s ranking from [i], minus [k].  The integer sum
    is the one the loop accumulates in binary64 as long as [n^2 k < 2^53]. *)
Theorem trustworthiness_closed_form :
  forall (X Z : matrix) (k : BinNums.Z),
    length X = length Z ->
    valid_k (length X) k ->
    (2 * Z.of_nat (length X) - 3 * k - 1 <> 0)%Z ->
    (Z.of_nat (length X) * Z.of_nat (length X) * k < 2 ^ 53)%Z ->
    trustworthiness X Z k = Ok (trustworthiness_formula X Z k).
Proof.
  intros X Z k L V D B.
  rewrite trustworthiness_unfold, trustworthiness_loop_sum by assumption.
  cbn [bind]. unfold valid_k in *.
  rewrite int_truediv_exact; [reflexivity | simpl; lia | |].
  - intros E. apply Z.mul_eq_0 in E. destruct E as [E|E]; [|lia].
    apply Z.mul_eq_0 in E. lia.
  - right. split; [|apply normalisation_even].
    rewrite !Z.abs_mul.
    assert (Z.abs (2 * Z.of_nat (length X) - 3 * k - 1) <= 2 * Z.of_nat (length X))%Z by lia.
    assert (0 <= Z.abs (Z.of_nat (length X)) * Z.abs k)%Z by lia.
    replace (Z.abs (Z.of_nat (length X)) * Z.abs k)%Z
      with (Z.of_nat (length X) * k)%Z in * by lia.
    change (2 ^ 54)%Z with (2 * 2 ^ 53)%Z. nia.
Qed.

(** Four points on a line, reordered in the latent space: every point
    has one intruder, the sum is 7 and the measure [1 - 2/16 * 7]. *)
Lemma trustworthiness_closed_form_witness :
  trustworthiness [[0]; [1]; [2]; [10]]%float [[0]; [10]; [2]; [1]]%float 1
  = Ok (trustworthiness_formula [[0]; [1]; [2]; [10]]%float [[0]; [10]; [2]; [1]]%float 1)
  /\ trustworthiness_sum [[0]; [1]; [2]; [10]]%float [[0]; [10]; [2]; [1]]%float 1 = 7%Z.
Proof.
  split; [|vm_compute; reflexivity].
  apply trustworthiness_closed_form.
  - reflexivity.
  - unfold valid_k. simpl. lia.
  - simpl. lia.
  - simpl. lia.
Defined.

(* ================================================================== *)
(** * Neighbourhood loss                                               *)
(* ================================================================== *)

Lemma Z2F_one : Z2F 1 = PrimFloat.one.
Proof. reflexivity. Qed.

Lemma int_truediv_diag k :
  (0 < Z.abs k < 2 ^ 53)%Z -> int_truediv k k = Ok PrimFloat.one.
Proof.
  intros H. rewrite int_truediv_exact by lia.
  rewrite div_diag; auto.
  - apply Z2F_finite. lia.
  - apply Z2F_nonzero; lia.
Qed.

Lemma neighbouhood_loss_loop_self X k :
  valid_k (length X) k -> (Z.of_nat (length X) < 2 ^ 53)%Z ->
  neighbouhood_loss_loop X X k = Ok (Z2F (Z.of_nat (length X))).
Proof.
  intros V B. unfold neighbouhood_loss_loop.
  change PrimFloat.zero with (Z2F 0).
  transitivity (Ok (Z2F (0 + Zsum (map (fun _ : nat => 1%Z) (seq 0 (length X)))))).
  2:{ rewrite Zsum_const, length_seq. do 2 f_equal. lia. }
  apply (for_each_Z2F (seq 0 (length X)) (fun _ => 1%Z) (fun _ => 1%Z)).
  - intros. lia.
  - intros s row I Hs. apply in_seq in I.
    get_row (neighbourhoods X k) row. fold (neighbourhood X k row).
    rewrite intersect1d_self_length by (apply neighbourhood_NoDup; lia).
    rewrite neighbourhood_length by (auto; lia).
    unfold valid_k in V. rewrite Z2Nat.id by lia.
    rewrite int_truediv_diag by lia. cbn [bind].
    rewrite <- Z2F_one. f_equal. apply Z2F_add; lia.
  - rewrite Zsum_const, length_seq. lia.
Qed.

(** C7: for every point cloud [X] and every valid [k],
    [neighbouhood_loss X X k] returns 0.  (The loop counts the [n] rows in
    binary64, which is exact for fewer than [2^53] rows.) *)
Theorem neighbouhood_loss_self_is_zero :
  forall (X : matrix) (k : BinNums.Z),
    valid_k (length X) k ->
    (Z.of_nat (length X) < 2 ^ 53)%Z ->
    neighbouhood_loss X X k = Ok PrimFloat.zero.
Proof.
  intros X k V B.
  rewrite neighbouhood_loss_unfold, neighbouhood_loss_loop_self by assumption.
  cbn [bind]. unfold valid_k in *.
  rewrite float_truediv_int_ok by lia.
  cbn [bind]. rewrite div_diag.
  - reflexivity.
  - apply Z2F_finite. lia.
  - apply Z2F_nonzero; lia.
Qed.

Lemma neighbouhood_loss_self_is_zero_witness :
  neighbouhood_loss [[0; 0]; [1; 0]; [0; 1]; [5; 5]]%float
                    [[0; 0]; [1; 0]; [0; 1]; [5; 5]]%float 3
  = Ok PrimFloat.zero.
Proof.
  apply neighbouhood_loss_self_is_zero.
  - unfold valid_k. simpl. lia.
  - simpl. lia.
Defined.

(* ================================================================== *)
(** * Neighbourhood sizes outside [1, n-1]                             *)
(* ================================================================== *)

Lemma orderings_rows_length X :
  Forall (fun row => length row = length X) (orderings X).
Proof.
  apply Forall_forall. intros row I.
  destruct (In_nth _ _ [] I) as (i & Hi & <-).
  rewrite orderings_length in Hi.
  rewrite (Permutation_length (orderings_row_perm X i Hi)). apply length_seq.
Qed.

(** C10: for [k >= n], [get_neighbours_and_ranks X k] returns without an
    error; the slice stops at the end of each row, so the neighbourhood
    matrix has [n] rows of [n - 1] columns: each row of the ordering
    without its first entry. *)
Theorem neighbourhood_slice_truncates :
  forall (X : matrix) (k : BinNums.Z),
    (Z.of_nat (length X) <= k)%Z ->
    exists neighbours ranks_matrix,
      get_neighbours_and_ranks X k = Ok (neighbours, ranks_matrix) /\
      length neighbours = length X /\
      Forall (fun row => length row = length X - 1) neighbours /\
      neighbours = map (@tl nat) (orderings X).
Proof.
  intros X k H. exists (neighbourhoods X k), (ranks X).
  split; [reflexivity|]. split; [apply neighbourhoods_length|].
  pose proof (orderings_rows_length X) as F. rewrite Forall_forall in F.
  assert (E : neighbourhoods X k = map (@tl nat) (orderings X)).
  { unfold neighbourhoods. apply map_ext_in. intros row I.
    apply py_slice_truncates. rewrite (F row I). exact H. }
  split; [|exact E].
  rewrite E. apply Forall_forall. intros r I.
  apply in_map_iff in I. destruct I as (row & <- & I).
  specialize (F row I). destruct row; simpl in *; lia.
Qed.

Lemma neighbourhood_slice_truncates_witness :
  exists neighbours ranks_matrix,
    get_neighbours_and_ranks [[0]; [1]; [3]]%float 7 = Ok (neighbours, ranks_matrix) /\
    length neighbours = 3 /\
    Forall (fun row => length row = 2) neighbours /\
    neighbours = map (@tl nat) (orderings [[0]; [1]; [3]]%float).
Proof.
  apply (neighbourhood_slice_truncates [[0]; [1]; [3]]%float 7).
  simpl. lia.
Defined.

Lemma for_each_raises_in {A S : Type} (l : list A) (body : S -> A -> pyres S) e :
  (forall s x, In x l -> body s x = Raise e \/ exists s', body s x = Ok s') ->
  (exists x, In x l /\ forall s, body s x = Raise e) ->
  forall acc, for_each l body acc = Raise e.
Proof.
  induction l as [|y l IH]; intros H [x [I Hx]] acc; [destruct I|].
  simpl. destruct (H acc y (or_introl eq_refl)) as [E|[s' E]]; rewrite E;
    [reflexivity|].
  cbn [bind]. apply IH.
  - intros s z J. apply H. now right.
  - destruct I as [->|I]; [rewrite Hx in E; discriminate|]. eauto.
Qed.

(** The inner loop of [trustworthiness], over indices [l] of a row: it
    returns when [k] fits an int64, and raises [OverflowError] at its first
    index when not. *)
Lemma missing_neighbours_loop_int64 X k row l s :
  row < length X -> (forall j, In j l -> j < length X) -> in_int64 k = true ->
  exists s',
    for_each l
      (fun result neighbour =>
         ranks_row <- getitem (ranks X) row ;;
         rank <- getitem ranks_row neighbour ;;
         difference <- int64_sub_pyint (Z.of_nat rank) k ;;
         Ok (PrimFloat.add result (Z2F difference)))
      s = Ok s'.
Proof.
  intros Hr B K. apply for_each_ok. intros s0 j J. specialize (B j J).
  get_row (ranks X) row.
  rewrite (getitem_ok 0 (nth row (ranks X) []) j)
    by (rewrite ranks_row_length; lia).
  cbn [bind]. unfold int64_sub_pyint. rewrite K. cbn [bind].
  eexists. reflexivity.
Qed.

Lemma missing_neighbours_loop_overflow X k row l s :
  row < length X -> (forall j, In j l -> j < length X) -> in_int64 k = false ->
  l <> [] ->
  for_each l
    (fun result neighbour =>
       ranks_row <- getitem (ranks X) row ;;
       rank <- getitem ranks_row neighbour ;;
       difference <- int64_sub_pyint (Z.of_nat rank) k ;;
       Ok (PrimFloat.add result (Z2F difference)))
    s = Raise OverflowError.
Proof.
  intros Hr B K N. destruct l as [|j l]; [congruence|].
  specialize (B j (or_introl eq_refl)). cbn [for_each].
  get_row (ranks X) row.
  rewrite (getitem_ok 0 (nth row (ranks X) []) j)
    by (rewrite ranks_row_length; lia).
  cbn [bind]. unfold int64_sub_pyint. rewrite K. reflexivity.
Qed.

Lemma intruders_bound X Z k i j : In j (intruders X Z k i) -> j < length X.
Proof.
  unfold intruders. intros I. apply filter_In in I. destruct I as [I _].
  apply in_seq in I. lia.
Qed.

Lemma setdiff1d_intruders X Z k row :
  length X = length Z -> row < length X ->
  setdiff1d (neighbourhood Z k row) (neighbourhood X k row) = intruders X Z k row.
Proof.
  intros L Hr. apply setdiff1d_filter. intros j I. rewrite L.
  apply (neighbourhood_bound Z k row); [lia | exact I].
Qed.

Lemma has_intruder_spec X Z k :
  has_intruder X Z k = true <-> exists i, i < length X /\ intruders X Z k i <> [].
Proof.
  unfold has_intruder. rewrite existsb_exists. split.
  - intros (i & I & H). apply in_seq in I. exists i. split; [lia|].
    destruct (intruders X Z k i); [discriminate | congruence].
  - intros (i & I & H). exists i. split; [apply in_seq; lia|].
    destruct (intruders X Z k i); [congruence | reflexivity].
Qed.

(** The loop of [trustworthiness] over clouds with the same number of rows
    returns, unless [k] does not fit an int64 and a point has an intruder:
    the first subtraction [X_ranks[row, neighbour] - k] then raises. *)
Lemma trustworthiness_loop_ok X Z k :
  length X = length Z ->
  in_int64 k = true \/ has_intruder X Z k = false ->
  exists r, trustworthiness_loop X Z k = Ok r.
Proof.
  intros L H. unfold trustworthiness_loop. rewrite ranks_length.
  apply for_each_ok. intros s row I. apply in_seq in I.
  get_row (neighbourhoods Z k) row.
  get_row (neighbourhoods X k) row. fold (neighbourhood Z k row). fold (neighbourhood X k row).
  rewrite setdiff1d_intruders by (auto; lia).
  destruct H as [K|N].
  - apply missing_neighbours_loop_int64; auto; [lia|]. apply intruders_bound.
  - destruct (intruders X Z k row) eqn:E; [eexists; reflexivity|].
    assert (T : has_intruder X Z k = true).
    { apply has_intruder_spec. exists row. split; [lia|]. rewrite E. discriminate. }
    congruence.
Qed.

Lemma trustworthiness_loop_overflow X Z k :
  length X = length Z -> in_int64 k = false -> has_intruder X Z k = true ->
  trustworthiness_loop X Z k = Raise OverflowError.
Proof.
  intros L K H. unfold trustworthiness_loop. rewrite ranks_length.
  apply has_intruder_spec in H. destruct H as (i & Hi & N).
  assert (Step : forall s row, row < length X ->
    (Z_row <- getitem (neighbourhoods Z k) row ;;
     X_row <- getitem (neighbourhoods X k) row ;;
     for_each (setdiff1d Z_row X_row)
       (fun result neighbour =>
          ranks_row <- getitem (ranks X) row ;;
          rank <- getitem ranks_row neighbour ;;
          difference <- int64_sub_pyint (Z.of_nat rank) k ;;
          Ok (PrimFloat.add result (Z2F difference)))
       s)
    = match intruders X Z k row with [] => Ok s | _ => Raise OverflowError end).
  { intros s row Hr.
    get_row (neighbourhoods Z k) row.
    get_row (neighbourhoods X k) row. fold (neighbourhood Z k row). fold (neighbourhood X k row).
    rewrite setdiff1d_intruders by (auto; lia).
    destruct (intruders X Z k row) eqn:E; [reflexivity|]. rewrite <- E.
    apply missing_neighbours_loop_overflow; auto.
    - apply intruders_bound.
    - rewrite E. discriminate. }
  apply for_each_raises_in.
  - intros s row I. apply in_seq in I. cbv beta. rewrite Step by lia.
    destruct (intruders X Z k row); [right; eexists; reflexivity | now left].
  - exists i. split; [apply in_seq; lia|]. intros s. cbv beta.
    rewrite Step by lia. destruct (intruders X Z k i); [congruence | reflexivity].
Qed.

Lemma int_truediv_raises a b :
  (Z.abs a < 2 ^ 63)%Z -> raises (int_truediv a b) = true <-> b = 0%Z.
Proof.
  intros Ha. destruct (Z.eq_dec b 0) as [->|N].
  - rewrite int_truediv_zero. cbn. tauto.
  - destruct (int_truediv_ok a b Ha N) as [q ->]. cbn. split; [discriminate | tauto].
Qed.

Lemma trustworthiness_raises X Z k :
  length X = length Z ->
  raises (trustworthiness X Z k) = true <->
  ((Z.of_nat (length X) * k * (2 * Z.of_nat (length X) - 3 * k - 1) = 0)%Z
   \/ (in_int64 k = false /\ has_intruder X Z k = true)).
Proof.
  intros L. rewrite trustworthiness_unfold.
  destruct (in_int64 k) eqn:K; [|destruct (has_intruder X Z k) eqn:H].
  - destruct (trustworthiness_loop_ok X Z k L (or_introl K)) as [r ->]. cbn [bind].
    destruct (int_truediv 2 _) eqn:E.
    + cbn [raises]. split; [discriminate|]. intros [D|[D _]]; [|discriminate].
      rewrite D, int_truediv_zero in E. discriminate.
    + cbn [raises]. split; auto. intros _. left.
      apply (int_truediv_raises 2); [simpl; lia|]. now rewrite E.
  - rewrite trustworthiness_loop_overflow by assumption. cbn [bind raises]. tauto.
  - destruct (trustworthiness_loop_ok X Z k L (or_intror H)) as [r ->]. cbn [bind].
    destruct (int_truediv 2 _) eqn:E.
    + cbn [raises]. split; [discriminate|]. intros [D|[_ D]]; [|discriminate].
      rewrite D, int_truediv_zero in E. discriminate.
    + cbn [raises]. split; auto. intros _. left.
      apply (int_truediv_raises 2); [simpl; lia|]. now rewrite E.
Qed.

Lemma intersect1d_length_le ar1 ar2 :
  NoDup ar1 -> length (intersect1d ar1 ar2) <= length ar1.
Proof.
  intros N. unfold intersect1d. rewrite <- (np_unique_length ar1 N).
  apply filter_length_le.
Qed.

Lemma neighbourhood_length_le X k i :
  i < length X -> length (neighbourhood X k i) <= length X.
Proof.
  intros Hi. rewrite <- (length_seq (length X) 0).
  apply NoDup_incl_length; [now apply neighbourhood_NoDup|].
  intros j I. apply in_seq.
  pose proof (neighbourhood_bound X k i j Hi I). lia.
Qed.

(** One row of the loop of [neighbouhood_loss], for a [k] other than 0. *)
Lemma neighbouhood_loss_row_ok X Z k row s :
  row < length X -> row < length Z -> k <> 0%Z ->
  (Z.of_nat (length X) < 2 ^ 63)%Z ->
  exists s',
    (X_row <- getitem (neighbourhoods X k) row ;;
     Z_row <- getitem (neighbourhoods Z k) row ;;
     let shared_neighbours := intersect1d X_row Z_row in
     q <- int_truediv (Z.of_nat (length shared_neighbours)) k ;;
     Ok (PrimFloat.add s q)) = Ok s'.
Proof.
  intros Hx Hz K B.
  get_row (neighbourhoods X k) row.
  get_row (neighbourhoods Z k) row. cbv zeta.
  fold (neighbourhood X k row). fold (neighbourhood Z k row).
  pose proof (intersect1d_length_le (neighbourhood X k row) (neighbourhood Z k row)
                (neighbourhood_NoDup X k row Hx)).
  pose proof (neighbourhood_length_le X k row Hx).
  destruct (int_truediv_ok
              (Z.of_nat (length (intersect1d (neighbourhood X k row)
                                             (neighbourhood Z k row)))) k)
    as [q ->]; [lia | exact K |].
  cbn [bind]. eexists. reflexivity.
Qed.

Lemma neighbouhood_loss_loop_ok X Z k :
  length X = length Z -> k <> 0%Z -> (Z.of_nat (length X) < 2 ^ 63)%Z ->
  exists r, neighbouhood_loss_loop X Z k = Ok r.
Proof.
  intros L K B. unfold neighbouhood_loss_loop.
  apply for_each_ok. intros s row I. apply in_seq in I.
  apply neighbouhood_loss_row_ok; auto; lia.
Qed.

Lemma neighbouhood_loss_loop_zero_k X Z :
  length X = length Z -> length X <> 0 ->
  neighbouhood_loss_loop X Z 0 = Raise ZeroDivisionError.
Proof.
  intros L N. unfold neighbouhood_loss_loop.
  destruct (length X) as [|n] eqn:E; [congruence|].
  cbn [seq for_each].
  get_row (neighbourhoods X 0) 0.
  rewrite (getitem_ok [] (neighbourhoods Z 0) 0)
    by (rewrite neighbourhoods_length; lia).
  reflexivity.
Qed.

Lemma neighbouhood_loss_raises X Z k :
  length X = length Z -> (Z.of_nat (length X) < 2 ^ 53)%Z ->
  raises (neighbouhood_loss X Z k) = true <-> (length X = 0 \/ k = 0%Z).
Proof.
  intros L B. rewrite neighbouhood_loss_unfold.
  destruct (Z.eq_dec k 0) as [->|K].
  - destruct (Nat.eq_dec (length X) 0) as [E|E].
    + unfold neighbouhood_loss_loop. rewrite E. cbn. tauto.
    + rewrite neighbouhood_loss_loop_zero_k by assumption. cbn. tauto.
  - destruct (neighbouhood_loss_loop_ok X Z k L K) as [r ->]; [lia|]. cbn [bind].
    destruct (Nat.eq_dec (length X) 0) as [E|E].
    + rewrite E. cbn. tauto.
    + rewrite float_truediv_int_ok by lia. cbn [bind raises].
      split; [discriminate|]. intros [H|H]; [lia | contradiction].
Qed.

(** C8, as stated, fails: with three points, [k = 7 >= n] and [k = -1 <= 0]
    are accepted by every neighbourhood-based operation. *)
Lemma invalid_k_is_accepted :
  raises (get_neighbours_and_ranks [[0]; [1]; [3]]%float 7) = false /\
  raises (trustworthiness [[0]; [1]; [3]]%float [[0]; [1]; [3]]%float 7) = false /\
  raises (neighbouhood_loss [[0]; [1]; [3]]%float [[0]; [1]; [3]]%float 7) = false /\
  raises (get_neighbours_and_ranks [[0]; [1]; [3]]%float (-1)) = false /\
  raises (trustworthiness [[0]; [1]; [3]]%float [[0]; [1]; [3]]%float (-1)) = false /\
  raises (neighbouhood_loss [[0]; [1]; [3]]%float [[0]; [1]; [3]]%float (-1)) = false.
Proof. repeat split; vm_compute; reflexivity. Qed.

(** C8, amended: [k] is not validated.  [get_neighbours_and_ranks] returns
    for every integer [k].  For [X] and [Z] with the same number [n] of
    rows, [trustworthiness] and [continuity] raise exactly in two cases:
    when [n k (2n - 3k - 1) = 0], the division by zero of Python integers,
    and when [k] does not fit an int64 and some point has an intruder,
    whose rank minus [k] is then an [OverflowError].  [neighbouhood_loss]
    raises exactly when [n = 0] or [k = 0], its two divisions by zero (for
    fewer than [2^53] rows). *)
Theorem k_is_not_validated :
  forall (X Z : matrix) (k : BinNums.Z),
    length X = length Z ->
    let n := Z.of_nat (length X) in
    raises (get_neighbours_and_ranks X k) = false /\
    (raises (trustworthiness X Z k) = true <->
     (n * k * (2 * n - 3 * k - 1) = 0)%Z
     \/ (in_int64 k = false /\ has_intruder X Z k = true)) /\
    (raises (continuity X Z k) = true <->
     (n * k * (2 * n - 3 * k - 1) = 0)%Z
     \/ (in_int64 k = false /\ has_intruder Z X k = true)) /\
    ((n < 2 ^ 53)%Z ->
     (raises (neighbouhood_loss X Z k) = true <-> (n = 0 \/ k = 0)%Z)).
Proof.
  intros X Z k L n. split; [reflexivity|].
  split; [now apply trustworthiness_raises|].
  split.
  - unfold continuity, n. rewrite L. now apply trustworthiness_raises.
  - intros B. rewrite neighbouhood_loss_raises by (auto; exact B). unfold n. lia.
Qed.

(** Three points, the first two of them twins: a zero [k] and a [k] of
    [2^63] make [trustworthiness] raise, the first by the division and the
    second by the subtraction; [neighbouhood_loss] accepts [k = 4]. *)
Lemma k_is_not_validated_witness :
  raises (trustworthiness [[0]; [0]; [5]]%float [[0]; [5]; [0]]%float 0) = true /\
  raises (trustworthiness [[0]; [0]; [5]]%float [[0]; [5]; [0]]%float (2 ^ 63)) = true /\
  trustworthiness [[0]; [0]; [5]]%float [[0]; [5]; [0]]%float (2 ^ 63)
  = Raise OverflowError /\
  raises (trustworthiness [[0]; [0]; [5]]%float [[0]; [5]; [0]]%float 7) = false /\
  raises (neighbouhood_loss [[0]; [0]; [5]]%float [[0]; [5]; [0]]%float 4) = false.
Proof.
  pose proof (k_is_not_validated [[0]; [0]; [5]]%float [[0]; [5]; [0]]%float) as H.
  destruct (H 0%Z eq_refl) as (_ & T0 & _).
  destruct (H (2 ^ 63)%Z eq_refl) as (_ & T63 & _).
  destruct (H 7%Z eq_refl) as (_ & T7 & _).
  destruct (H 4%Z eq_refl) as (_ & _ & _ & N).
  split; [|split; [|split; [|split]]].
  - apply T0. left. reflexivity.
  - apply T63. right. split; vm_compute; reflexivity.
  - vm_compute. reflexivity.
  - destruct (raises (trustworthiness _ _ 7)); auto.
    destruct (proj1 T7 eq_refl) as [D|[D _]]; discriminate.
  - destruct (raises (neighbouhood_loss _ _ 4)); auto.
    destruct (proj1 (N ltac:(simpl; lia)) eq_refl); discriminate.
Defined.

(* ================================================================== *)
(** * Stress and RMSE                                                  *)
(* ================================================================== *)

Lemma positive_not_nan_not_zero s :
  PrimFloat.ltb PrimFloat.zero s = true ->
  is_nan s = false /\ is_zero s = false /\ is_infinity PrimFloat.zero = false.
Proof.
  rewrite ltb_spec, is_nan_spec, is_zero_spec, Prim2SF_zero.
  destruct (Prim2SF s) as [[]|[]| |[] m e]; simpl; intros H;
    try discriminate H; repeat split; reflexivity.
Qed.

Lemma np_true_divide_zero_pos s :
  PrimFloat.ltb PrimFloat.zero s = true ->
  np_true_divide PrimFloat.zero s = (PrimFloat.zero, []).
Proof.
  intros H. destruct (positive_not_nan_not_zero s H) as (N & Zr & _).
  unfold np_true_divide. rewrite (div_zero_pos s H), N, Zr. reflexivity.
Qed.

Lemma nonneg_or_nan_zero s :
  nonneg_or_nan s -> is_zero s = true -> s = PrimFloat.zero.
Proof.
  unfold nonneg_or_nan. rewrite is_zero_spec. intros H Z.
  apply Prim2SF_inj. rewrite Prim2SF_zero.
  destruct (Prim2SF s); try discriminate. now subst.
Qed.

Lemma np_true_divide_pos_zero x :
  nonneg_or_nan x -> is_finite x = true -> is_zero x = false ->
  np_true_divide x PrimFloat.zero = (infinity, [DivideByZero]).
Proof.
  unfold nonneg_or_nan. intros N F Zr.
  assert (Q : PrimFloat.div x PrimFloat.zero = infinity).
  { apply Prim2SF_inj. rewrite div_spec, Prim2SF_zero, Prim2SF_infinity.
    rewrite is_finite_spec in F. rewrite is_zero_spec in Zr.
    destruct (Prim2SF x) as [[]|[]| |[] m e]; try discriminate; reflexivity. }
  assert (Nx : is_nan x = false).
  { rewrite is_nan_spec. rewrite is_finite_spec in F.
    destruct (Prim2SF x); try discriminate; reflexivity. }
  unfold np_true_divide. rewrite Q, Nx, F. reflexivity.
Qed.

Lemma squares_nonneg_or_nan (M : matrix) :
  nonneg_or_nan (np_sum_all (map (map np_square) M)).
Proof.
  unfold np_sum_all. apply np_sum_nonneg_or_nan, Forall_forall.
  intros x I. apply in_concat in I. destruct I as (row & Ir & Ix).
  apply in_map_iff in Ir. destruct Ir as (r & <- & _).
  apply in_map_iff in Ix. destruct Ix as (y & <- & _).
  apply square_nonneg_or_nan.
Qed.

Lemma stress_same_shape X Z :
  length X = length Z ->
  stress X Z
  = Ok (np_sqrt (np_true_divide (sum_of_squared_differences X Z) (sum_of_squares Z))).
Proof.
  intros L. unfold stress, np_subtract.
  rewrite !pairwise_distances_length, L, Nat.eqb_refl. reflexivity.
Qed.

Lemma RMSE_same_shape X Z :
  length X = length Z ->
  RMSE X Z
  = Ok (np_sqrt (np_true_divide (sum_of_squared_differences X Z)
                                (Z2F (Z.of_nat (length X) ^ 2)))).
Proof.
  intros L. unfold RMSE, np_subtract.
  rewrite !pairwise_distances_length, L, Nat.eqb_refl. reflexivity.
Qed.

Lemma sub_row_diag (r : vector) :
  Forall (fun x => is_finite x = true) r ->
  map (fun '(a, b) => PrimFloat.sub a b) (combine r r) = repeat PrimFloat.zero (length r).
Proof.
  induction 1 as [|a r Ha Hr IH]; simpl; auto.
  now rewrite IH, (sub_diag a Ha).
Qed.

Lemma np_sum_all_zero (M : matrix) :
  Forall (Forall (fun x => x = PrimFloat.zero)) M -> np_sum_all M = PrimFloat.zero.
Proof.
  intros H. unfold np_sum_all. apply np_sum_of_zeros.
  apply Forall_forall. intros x I. apply in_concat in I.
  destruct I as (row & Ir & Ix). rewrite Forall_forall in H.
  specialize (H row Ir). rewrite Forall_forall in H. auto.
Qed.

(** The distances of a space to itself differ by zero everywhere. *)
Lemma sum_of_squared_differences_self X :
  finite_distances X -> sum_of_squared_differences X X = PrimFloat.zero.
Proof.
  intros F. unfold sum_of_squared_differences. apply np_sum_all_zero.
  unfold finite_distances in F. unfold elementwise_sub.
  induction F as [|r D Hr _ IH]; simpl; constructor; auto.
  rewrite (sub_row_diag r Hr). apply Forall_forall. intros x I.
  apply in_map_iff in I. destruct I as (y & <- & I).
  apply repeat_spec in I. now subst.
Qed.

(** C3, as stated, fails: for a single point, and for two points with the
    same coordinates, every distance is zero and [stress] divides zero by
    zero; for the empty cloud so does [RMSE].  When a distance overflows
    (here between 0 and 2^600), the difference of the distance matrix with
    itself has NaN entries. *)
Lemma stress_of_coinciding_points :
  stress [[1]]%float [[1]]%float = Ok (nan, [InvalidValue]) /\
  stress [[1; 2]; [1; 2]]%float [[1; 2]; [1; 2]]%float = Ok (nan, [InvalidValue]) /\
  RMSE [] [] = Ok (nan, [InvalidValue]) /\
  PrimFloat.eqb nan PrimFloat.zero = false /\
  distance [[0]; [0x1p+600]]%float 0 1 = infinity /\
  (exists w, stress [[0]; [0x1p+600]]%float [[0]; [0x1p+600]]%float = Ok (nan, w)).
Proof.
  repeat split; try (vm_compute; reflexivity).
  eexists. vm_compute. reflexivity.
Qed.

(** C3, amended: for a point cloud [X] whose distance matrix has only finite
    entries, [stress X X] is 0 when the sum of the squared distances is
    positive and NaN (with an invalid-value warning) when that sum is zero;
    [RMSE X X] is 0 when [X] has at least one row. *)
Theorem self_comparison_has_zero_distortion :
  forall (X : matrix),
    finite_distances X ->
    (PrimFloat.ltb PrimFloat.zero (sum_of_squares X) = true ->
     stress X X = Ok (PrimFloat.zero, [])) /\
    (is_zero (sum_of_squares X) = true ->
     stress X X = Ok (nan, [InvalidValue])) /\
    (0 < length X -> (Z.of_nat (length X) ^ 2 < 2 ^ 53)%Z ->
     RMSE X X = Ok (PrimFloat.zero, [])).
Proof.
  intros X F. repeat split.
  - intros H. rewrite stress_same_shape, sum_of_squared_differences_self by auto.
    now rewrite np_true_divide_zero_pos.
  - intros H. rewrite stress_same_shape, sum_of_squared_differences_self by auto.
    rewrite (nonneg_or_nan_zero (sum_of_squares X)); auto.
    apply squares_nonneg_or_nan.
  - intros N B. rewrite RMSE_same_shape, sum_of_squared_differences_self by auto.
    rewrite np_true_divide_zero_pos; [reflexivity|].
    apply Z2F_pos. split; [|exact B]. apply Z.pow_pos_nonneg; lia.
Qed.

Lemma self_comparison_has_zero_distortion_witness :
  stress [[0; 0]; [1; 0]; [0; 1]; [5; 5]]%float [[0; 0]; [1; 0]; [0; 1]; [5; 5]]%float
  = Ok (PrimFloat.zero, []) /\
  RMSE [[0; 0]; [1; 0]; [0; 1]; [5; 5]]%float [[0; 0]; [1; 0]; [0; 1]; [5; 5]]%float
  = Ok (PrimFloat.zero, []).
Proof.
  assert (F : finite_distances [[0; 0]; [1; 0]; [0; 1]; [5; 5]]%float).
  { unfold finite_distances. vm_compute. repeat constructor. }
  destruct (self_comparison_has_zero_distortion _ F) as (S & _ & R).
  split.
  - apply S. vm_compute. reflexivity.
  - apply R; simpl; lia.
Defined.

(* ================================================================== *)
(** * Zero denominators                                                *)
(* ================================================================== *)

(** When every distance in [Z] is zero, the denominator of [stress] is. *)
Lemma sum_of_squares_zero Z :
  Forall (Forall (fun x => x = PrimFloat.zero)) (pairwise_distances Z) ->
  sum_of_squares Z = PrimFloat.zero.
Proof.
  intros H. unfold sum_of_squares. apply np_sum_all_zero.
  induction H as [|r D Hr _ IH]; simpl; constructor; auto.
  induction Hr as [|x r -> _ IHr]; simpl; constructor; auto.
Qed.

Lemma trustworthiness_zero_denominator X Z k :
  length X = length Z ->
  (Z.of_nat (length X) * k * (2 * Z.of_nat (length X) - 3 * k - 1) = 0)%Z ->
  in_int64 k = true ->
  trustworthiness X Z k = Raise ZeroDivisionError.
Proof.
  intros L D K. rewrite trustworthiness_unfold.
  destruct (trustworthiness_loop_ok X Z k L (or_introl K)) as [r ->]. cbn [bind].
  rewrite D. reflexivity.
Qed.

(** C9, as stated, fails for [stress]: with a positive numerator over a
    zero denominator the call returns [+infinity], which is neither an
    error nor a NaN. *)
Lemma stress_returns_infinity :
  is_zero (sum_of_squares [[0]; [0]]%float) = true /\
  stress [[0]; [1]]%float [[0]; [0]]%float = Ok (infinity, [DivideByZero]) /\
  is_nan infinity = false.
Proof. repeat split; vm_compute; reflexivity. Qed.

(** C9, amended: for [X] and [Z] with the same number [n] of rows,
    - when the sum of the squared distances of [Z] is zero and the numerator
      has not overflowed, [stress X Z] returns a non-finite value together
      with a warning: NaN and "invalid value" when the numerator is zero
      too, [+infinity] and "divide by zero" otherwise;
    - when [2n - 3k - 1 = 0], [trustworthiness X Z k] raises an exception:
      [ZeroDivisionError], for every array ([n] is below [2^63], and [k]
      with it). *)
Theorem zero_denominators_are_reported :
  forall (X Z : matrix) (k : BinNums.Z),
    length X = length Z ->
    (is_zero (sum_of_squares Z) = true ->
     is_finite (sum_of_squared_differences X Z) = true ->
     stress X Z
     = Ok (if is_zero (sum_of_squared_differences X Z)
           then (nan, [InvalidValue])
           else (infinity, [DivideByZero]))) /\
    ((2 * Z.of_nat (length X) - 3 * k - 1 = 0)%Z ->
     raises (trustworthiness X Z k) = true /\
     ((Z.of_nat (length X) < 2 ^ 63)%Z ->
      trustworthiness X Z k = Raise ZeroDivisionError)).
Proof.
  intros X Z k L. split.
  - intros Hz Hf. rewrite stress_same_shape by exact L.
    rewrite (nonneg_or_nan_zero (sum_of_squares Z))
      by (auto; apply squares_nonneg_or_nan).
    destruct (is_zero (sum_of_squared_differences X Z)) eqn:E.
    + rewrite (nonneg_or_nan_zero (sum_of_squared_differences X Z));
        [reflexivity | apply squares_nonneg_or_nan | exact E].
    + rewrite np_true_divide_pos_zero; auto. apply squares_nonneg_or_nan.
  - intros D. split.
    + apply trustworthiness_raises; [exact L|]. left. rewrite D. lia.
    + intros B. apply trustworthiness_zero_denominator; auto.
      * rewrite D. lia.
      * unfold in_int64. apply andb_true_iff.
        split; [apply Z.leb_le | apply Z.ltb_lt]; lia.
Qed.

Lemma zero_denominators_are_reported_witness :
  stress [[0]; [1]]%float [[0]; [0]]%float = Ok (infinity, [DivideByZero]) /\
  stress [[3]; [3]]%float [[0]; [0]]%float = Ok (nan, [InvalidValue]) /\
  trustworthiness [[0]; [1]]%float [[0]; [0]]%float 1 = Raise ZeroDivisionError.
Proof.
  destruct (zero_denominators_are_reported [[0]; [1]]%float [[0]; [0]]%float 1 eq_refl)
    as [S T].
  destruct (zero_denominators_are_reported [[3]; [3]]%float [[0]; [0]]%float 1 eq_refl)
    as [S' _].
  split; [|split].
  - apply S; vm_compute; reflexivity.
  - apply S'; vm_compute; reflexivity.
  - apply T; simpl; lia.
Defined.

(* ================================================================== *)
(** * Continuity                                                       *)
(* ================================================================== *)

(** C4: [continuity X Z k] is [trustworthiness Z X k] for all point clouds
    and every [k], whether the call returns a number or raises: the body
    of [continuity] is that single call. *)
Theorem continuity_is_flipped_trustworthiness :
  forall (X Z : matrix) (k : BinNums.Z),
    continuity X Z k = trustworthiness Z X k.
Proof. intros X Z k. unfold continuity. reflexivity. Qed.

(* ================================================================== *)
(** * The scenarios of the specification                               *)
(* ================================================================== *)

Example scenario_identical_spaces :
  let X := [[0; 0]; [1; 0]; [0; 1]; [5; 5]]%float in
  neighbouhood_loss X X 1 = Ok PrimFloat.zero /\
  trustworthiness X X 1 = Ok PrimFloat.one /\
  continuity X X 1 = Ok PrimFloat.one /\
  stress X X = Ok (PrimFloat.zero, []) /\
  RMSE X X = Ok (PrimFloat.zero, []).
Proof. repeat split; vm_compute; reflexivity. Qed.

Example scenario_isometry :
  let X := [[0; 0]; [1; 0]; [2; 0]]%float in
  let Z := [[0; 0]; [0; 1]; [0; 2]]%float in
  stress X Z = Ok (PrimFloat.zero, []) /\ RMSE X Z = Ok (PrimFloat.zero, []).
Proof. repeat split; vm_compute; reflexivity. Qed.

(* ================================================================== *)
(** * The sort order of binary64                                       *)
(* ================================================================== *)

Lemma np_less_lex a b :
  np_less a b = true <-> lex3 (sf_key (Prim2SF a)) (sf_key (Prim2SF b)).
Proof.
  unfold np_less. rewrite ltb_spec, !is_nan_spec. unfold SFltb.
  destruct (Prim2SF a) as [[]|[]| |[] ma ea];
    destruct (Prim2SF b) as [[]|[]| |[] mb eb];
    cbn [SFcompare sf_key lex3 orb andb negb];
    try (split; [intros H; try discriminate H; lia | intros H; try reflexivity; lia]).
  - change (Pos.compare_cont Eq ma mb) with (Pos.compare ma mb).
    destruct (Z.compare_spec ea eb); destruct (Pos.compare_spec ma mb);
      cbn [CompOpp orb];
      (split; [intros K; try discriminate K; lia | intros K; try reflexivity; lia]).
  - change (Pos.compare_cont Eq ma mb) with (Pos.compare ma mb).
    destruct (Z.compare_spec ea eb); destruct (Pos.compare_spec ma mb);
      cbn [CompOpp orb];
      (split; [intros K; try discriminate K; lia | intros K; try reflexivity; lia]).
Qed.

Lemma np_less_false a b :
  np_less a b = false <-> ~ lex3 (sf_key (Prim2SF a)) (sf_key (Prim2SF b)).
Proof.
  rewrite <- np_less_lex. destruct (np_less a b); split; intros H;
    try discriminate; try reflexivity; try congruence.
Qed.

Lemma np_less_asym a b : np_less a b = true -> np_less b a = false.
Proof.
  rewrite np_less_lex, np_less_false. unfold lex3.
  destruct (sf_key (Prim2SF a)) as [[a1 a2] a3].
  destruct (sf_key (Prim2SF b)) as [[b1 b2] b3]. lia.
Qed.

(** Not being above is transitive. *)
Lemma np_less_negtrans a b c :
  np_less b a = false -> np_less c b = false -> np_less c a = false.
Proof.
  rewrite !np_less_false. unfold lex3.
  destruct (sf_key (Prim2SF a)) as [[a1 a2] a3].
  destruct (sf_key (Prim2SF b)) as [[b1 b2] b3].
  destruct (sf_key (Prim2SF c)) as [[c1 c2] c3]. lia.
Qed.

(* ================================================================== *)
(** * What a stable argsort puts first                                 *)
(* ================================================================== *)

Section StableOrder.

Context {A : Type}.
Variable less : A -> A -> bool.
Hypothesis less_asym : forall a b, less a b = true -> less b a = false.
Hypothesis less_negtrans :
  forall a b c, less b a = false -> less c b = false -> less c a = false.

Lemma insert_stable_sorted x s :
  StronglySorted (sorts_before less) s ->
  (forall y, In y s -> fst x < fst y) ->
  StronglySorted (sorts_before less) (insert_stable less x s).
Proof.
  induction 1 as [|y s S IH F]; intros Hx; simpl.
  - repeat constructor.
  - rewrite Forall_forall in F.
    destruct (less (snd y) (snd x)) eqn:E.
    + constructor.
      * apply IH. intros z I. apply Hx. now right.
      * apply Forall_forall. intros z I.
        apply (Permutation_in _ (insert_stable_perm less x s)) in I.
        destruct I as [<-|I]; [now left | auto].
    + constructor; [constructor; auto; now apply Forall_forall|].
      apply Forall_forall. intros z [<-|I].
      * right. split; [exact E | apply Hx; now left].
      * right. split; [|apply Hx; now right].
        apply (less_negtrans _ (snd y)); [exact E|].
        destruct (F z I) as [L|[L _]]; [now apply less_asym | exact L].
Qed.

Lemma stable_sort_sorted l :
  StronglySorted (fun p q : nat * A => fst p < fst q) l ->
  StronglySorted (sorts_before less) (stable_sort less l).
Proof.
  induction 1 as [|x l S IH F]; simpl; [constructor|].
  apply insert_stable_sorted; auto.
  rewrite Forall_forall in F. intros y I. apply F.
  now apply (Permutation_in _ (stable_sort_perm less l)).
Qed.

Lemma enumerate_increasing (l : list A) s :
  StronglySorted (fun p q : nat * A => fst p < fst q) (combine (seq s (length l)) l).
Proof.
  revert s. induction l as [|x l IH]; intros s; simpl; constructor; auto.
  apply Forall_forall. intros [j y] I. apply combine_seq_In in I. simpl. lia.
Qed.

Lemma sorted_nth {B : Type} (R : B -> B -> Prop) l d i j :
  StronglySorted R l -> i < j < length l -> R (nth i l d) (nth j l d).
Proof.
  intros S. revert i j. induction S as [|x l S IH F]; intros i j H; simpl in H.
  - lia.
  - destruct j as [|j]; [lia|]. destruct i as [|i]; simpl.
    + rewrite Forall_forall in F. apply F, nth_In. lia.
    + apply IH. lia.
Qed.

(** The entry of the sorted list at position [t] is the pair of the index
    [argsort] returns there and of the entry of [l] at that index. *)
Lemma stable_sort_nth l d t :
  t < length l ->
  nth t (stable_sort less (enumerate l)) (0, d)
  = (nth t (argsort less l) 0, nth (nth t (argsort less l) 0) l d).
Proof.
  intros H. unfold argsort.
  change 0 with (fst (0, d)) at 2 3. rewrite map_nth.
  assert (I : In (nth t (stable_sort less (enumerate l)) (0, d)) (enumerate l)).
  { apply (Permutation_in _ (stable_sort_perm less _)), nth_In.
    rewrite (Permutation_length (stable_sort_perm less _)).
    unfold enumerate. rewrite length_combine, length_seq. lia. }
  destruct (nth t (stable_sort less (enumerate l)) (0, d)) as [j y].
  apply combine_seq_In in I. destruct I as [_ I]. rewrite Nat.sub_0_r in I.
  simpl fst. f_equal. symmetry. now apply nth_error_nth.
Qed.

(** Along the result of [argsort], earlier positions hold indices that
    come first in the order. *)
Lemma argsort_sorted l d s t :
  s < t < length l ->
  index_before less l d (nth s (argsort less l) 0) (nth t (argsort less l) 0).
Proof.
  intros H.
  pose proof (stable_sort_sorted (enumerate l) (enumerate_increasing l 0)) as S.
  assert (L : length (stable_sort less (enumerate l)) = length l).
  { rewrite (Permutation_length (stable_sort_perm less _)).
    unfold enumerate. rewrite length_combine, length_seq. lia. }
  pose proof (sorted_nth _ _ (0, d) s t S ltac:(lia)) as R.
  rewrite !stable_sort_nth in R by lia. exact R.
Qed.

Lemma index_before_asym l d a b :
  index_before less l d a b -> ~ index_before less l d b a.
Proof.
  unfold index_before. intros [H|[H L]] [K|[K M]].
  - apply less_asym in H. congruence.
  - congruence.
  - congruence.
  - lia.
Qed.

(** The rank of an index is its position in the argsort. *)
Lemma argsort_of_rank l j :
  j < length l ->
  nth (nth j (argsort Nat.ltb (argsort less l)) 0) (argsort less l) 0 = j.
Proof.
  intros Hj.
  pose proof (argsort_perm less l) as P.
  set (order := argsort less l) in *.
  set (rk := argsort Nat.ltb order).
  assert (Lo : length order = length l) by apply argsort_length.
  assert (Pr : Permutation rk (seq 0 (length l))).
  { unfold rk. rewrite <- Lo. apply argsort_perm. }
  assert (Lr : length rk = length l).
  { rewrite (Permutation_length Pr). apply length_seq. }
  assert (B : nth j rk 0 < length l).
  { assert (I : In (nth j rk 0) (seq 0 (length l)))
      by (apply (Permutation_in _ Pr), nth_In; lia).
    apply in_seq in I. lia. }
  assert (B' : nth (nth j rk 0) order 0 < length l).
  { assert (I : In (nth (nth j rk 0) order 0) (seq 0 (length l)))
      by (apply (Permutation_in _ P), nth_In; lia).
    apply in_seq in I. lia. }
  pose proof (argsort_inverse order (length l) (nth j rk 0) P B) as E.
  fold rk in E.
  assert (N : NoDup rk).
  { eapply Permutation_NoDup; [symmetry; exact Pr | apply seq_NoDup]. }
  apply (proj1 (NoDup_nth rk 0) N); auto; lia.
Qed.

(** Ranks follow the order of the entries, ties in index order. *)
Lemma rank_lt_iff l d a b :
  a < length l -> b < length l ->
  nth a (argsort Nat.ltb (argsort less l)) 0 < nth b (argsort Nat.ltb (argsort less l)) 0
  <-> index_before less l d a b.
Proof.
  intros Ha Hb.
  set (order := argsort less l). set (rk := argsort Nat.ltb order).
  assert (Pr : Permutation rk (seq 0 (length l))).
  { unfold rk. rewrite <- (argsort_length less l). apply argsort_perm. }
  assert (Bd : forall j, j < length l -> nth j rk 0 < length l).
  { intros j Hj.
    assert (I : In (nth j rk 0) (seq 0 (length l))).
    { apply (Permutation_in _ Pr), nth_In.
      rewrite (Permutation_length Pr), length_seq. exact Hj. }
    apply in_seq in I. lia. }
  pose proof (argsort_of_rank l a Ha) as Ea.
  pose proof (argsort_of_rank l b Hb) as Eb.
  fold order rk in Ea, Eb.
  split.
  - intros H.
    pose proof (argsort_sorted l d (nth a rk 0) (nth b rk 0)
                  (conj H (Bd b Hb))) as S.
    fold order in S. now rewrite Ea, Eb in S.
  - intros H.
    destruct (Nat.lt_trichotomy (nth a rk 0) (nth b rk 0)) as [L|[E|G]]; auto.
    + exfalso. rewrite E in Ea. rewrite Ea in Eb. subst b.
      apply (index_before_asym l d a a H H).
    + exfalso.
      pose proof (argsort_sorted l d (nth b rk 0) (nth a rk 0)
                    (conj G (Bd a Ha))) as S.
      fold order in S. rewrite Ea, Eb in S.
      apply (index_before_asym l d a b H S).
Qed.

End StableOrder.

(* ================================================================== *)
(** * How the neighbourhood and rank matrices relate                   *)
(* ================================================================== *)

Lemma ranks_row_as_argsort X i :
  i < length X ->
  nth i (ranks X) []
  = argsort Nat.ltb (argsort np_less (nth i (pairwise_distances X) [])).
Proof.
  intros H. now rewrite ranks_row, orderings_row by exact H.
Qed.

(** X1: in every row [i] of the rank matrix, point [a] has a smaller rank
    than point [b] exactly when [a] is closer to [i] than [b] in the order
    numpy sorts by, or when neither is closer than the other and [a] has
    the smaller index. *)
Theorem rank_order_follows_distance :
  forall (X : matrix) (k : BinNums.Z) neighbours ranks_matrix (i a b : nat),
    get_neighbours_and_ranks X k = Ok (neighbours, ranks_matrix) ->
    i < length X -> a < length X -> b < length X ->
    (nth a (nth i ranks_matrix []) 0 < nth b (nth i ranks_matrix []) 0
     <-> np_less (distance X i a) (distance X i b) = true
         \/ (np_less (distance X i b) (distance X i a) = false /\ a < b)).
Proof.
  intros X k nb rk i a b E Hi Ha Hb.
  rewrite get_neighbours_and_ranks_eq in E. inversion E; subst nb rk.
  rewrite ranks_row_as_argsort by exact Hi.
  apply (rank_lt_iff np_less np_less_asym np_less_negtrans
           (nth i (pairwise_distances X) []) PrimFloat.zero);
    now rewrite pairwise_distances_row_length.
Qed.

Lemma rank_order_follows_distance_witness :
  nth 2 (nth 1 (ranks [[0]; [1]; [2]; [10]]%float) []) 0
  < nth 3 (nth 1 (ranks [[0]; [1]; [2]; [10]]%float) []) 0
  /\ nth 0 (nth 1 (ranks [[0]; [1]; [2]; [10]]%float) []) 0
     < nth 2 (nth 1 (ranks [[0]; [1]; [2]; [10]]%float) []) 0.
Proof.
  split.
  - apply (rank_order_follows_distance [[0]; [1]; [2]; [10]]%float 1
             (neighbourhoods [[0]; [1]; [2]; [10]]%float 1)
             (ranks [[0]; [1]; [2]; [10]]%float) 1 2 3 eq_refl);
      [simpl; lia | simpl; lia | simpl; lia |].
    left. vm_compute. reflexivity.
  - apply (rank_order_follows_distance [[0]; [1]; [2]; [10]]%float 1
             (neighbourhoods [[0]; [1]; [2]; [10]]%float 1)
             (ranks [[0]; [1]; [2]; [10]]%float) 1 0 2 eq_refl);
      [simpl; lia | simpl; lia | simpl; lia |].
    right. split; [vm_compute; reflexivity | lia].
Defined.

Lemma py_slice_cons_1 {A : Type} (x : A) (t : list A) stop :
  py_slice (x :: t) 1 stop
  = firstn (Z.to_nat (slice_bound (Z.of_nat (S (length t))) stop - 1)) t.
Proof.
  unfold py_slice. change (length (x :: t)) with (S (length t)).
  assert (E : slice_bound (Z.of_nat (S (length t))) 1 = 1%Z).
  { unfold slice_bound. replace (1 <? 0)%Z with false by reflexivity. lia. }
  rewrite E. reflexivity.
Qed.

Lemma ordering_nonempty X i :
  i < length X -> exists x t, nth i (orderings X) [] = x :: t /\ S (length t) = length X.
Proof.
  intros H. pose proof (Permutation_length (orderings_row_perm X i H)) as L.
  rewrite length_seq in L.
  destruct (nth i (orderings X) []) as [|x t]; simpl in L; [lia|].
  now exists x, t.
Qed.

Lemma neighbourhood_nth X k i t :
  i < length X -> t < length (neighbourhood X k i) ->
  nth t (neighbourhood X k i) 0 = nth (S t) (nth i (orderings X) []) 0
  /\ S t < length X.
Proof.
  intros Hi Ht. rewrite neighbourhood_row in * by exact Hi.
  destruct (ordering_nonempty X i Hi) as (x & tl & E & L).
  rewrite E in *. rewrite py_slice_cons_1 in *.
  rewrite length_firstn in Ht. split; [|lia].
  rewrite nth_firstn.
  replace (t <? _) with true by (symmetry; apply Nat.ltb_lt; lia).
  reflexivity.
Qed.

Lemma neighbourhood_length_nonneg X k i :
  i < length X -> (0 <= k)%Z ->
  length (neighbourhood X k i) = Z.to_nat (Z.min k (Z.of_nat (length X) - 1)).
Proof.
  intros Hi Hk. rewrite neighbourhood_row by exact Hi.
  destruct (ordering_nonempty X i Hi) as (x & tl & E & L).
  rewrite E, py_slice_cons_1, length_firstn. unfold slice_bound.
  replace (k + 1 <? 0)%Z with false by (symmetry; apply Z.ltb_ge; lia).
  lia.
Qed.

Lemma rank_of_neighbour X k i t :
  i < length X -> t < length (neighbourhood X k i) ->
  rank X i (nth t (neighbourhood X k i) 0) = S t.
Proof.
  intros Hi Ht. destruct (neighbourhood_nth X k i t Hi Ht) as [E B].
  rewrite E. unfold rank. rewrite ranks_row by exact Hi.
  apply (argsort_inverse _ (length X)); [now apply orderings_row_perm | exact B].
Qed.

(** X2: the neighbours are listed by rank: the entry at position [t] of
    row [i] of the neighbourhood matrix has rank [t + 1] in row [i] of the
    rank matrix, whatever [k] is. *)
Theorem neighbours_are_listed_by_rank :
  forall (X : matrix) (k : BinNums.Z) neighbours ranks_matrix (i t : nat),
    get_neighbours_and_ranks X k = Ok (neighbours, ranks_matrix) ->
    i < length X -> t < length (nth i neighbours []) ->
    nth (nth t (nth i neighbours []) 0) (nth i ranks_matrix []) 0 = t + 1.
Proof.
  intros X k nb rk i t E Hi Ht.
  rewrite get_neighbours_and_ranks_eq in E. inversion E; subst nb rk.
  fold (neighbourhood X k i) in *.
  pose proof (rank_of_neighbour X k i t Hi Ht) as R. unfold rank in R.
  rewrite R. lia.
Qed.

Lemma neighbours_are_listed_by_rank_witness :
  nth (nth 1 (nth 3 (neighbourhoods [[0]; [1]; [2]; [10]]%float 2) []) 0)
      (nth 3 (ranks [[0]; [1]; [2]; [10]]%float) []) 0 = 1 + 1.
Proof.
  apply (neighbours_are_listed_by_rank [[0]; [1]; [2]; [10]]%float 2
           (neighbourhoods [[0]; [1]; [2]; [10]]%float 2)
           (ranks [[0]; [1]; [2]; [10]]%float) 3 1 eq_refl).
  - simpl. lia.
  - vm_compute. lia.
Defined.

Lemma ordering_at_rank X i j :
  i < length X -> j < length X ->
  nth (rank X i j) (nth i (orderings X) []) 0 = j.
Proof.
  intros Hi Hj. unfold rank.
  rewrite ranks_row_as_argsort, orderings_row by exact Hi.
  apply argsort_of_rank. now rewrite pairwise_distances_row_length.
Qed.

Lemma neighbourhood_iff_rank X k i j :
  (0 <= k)%Z -> i < length X -> j < length X ->
  In j (neighbourhood X k i) <-> (1 <= Z.of_nat (rank X i j) <= k)%Z.
Proof.
  intros Hk Hi Hj.
  pose proof (neighbourhood_length_nonneg X k i Hi Hk) as L.
  split.
  - intros I. destruct (In_nth _ _ 0 I) as (t & Ht & <-).
    rewrite rank_of_neighbour by assumption. lia.
  - intros [R1 R2].
    pose proof (rank_bound X i j Hi Hj) as Rb.
    assert (Ht : rank X i j - 1 < length (neighbourhood X k i)) by lia.
    destruct (neighbourhood_nth X k i _ Hi Ht) as [E _].
    replace (S (rank X i j - 1)) with (rank X i j) in E by lia.
    rewrite ordering_at_rank in E by assumption.
    rewrite <- E. now apply nth_In.
Qed.

(** X3: for [k >= 0], row [i] of the neighbourhood matrix holds exactly the
    points whose rank in row [i] of the rank matrix is between 1 and [k]. *)
Theorem neighbourhood_is_ranks_1_to_k :
  forall (X : matrix) (k : BinNums.Z) neighbours ranks_matrix (i j : nat),
    get_neighbours_and_ranks X k = Ok (neighbours, ranks_matrix) ->
    (0 <= k)%Z -> i < length X -> j < length X ->
    (In j (nth i neighbours [])
     <-> (1 <= Z.of_nat (nth j (nth i ranks_matrix []) 0%nat) <= k)%Z).
Proof.
  intros X k nb rk i j E Hk Hi Hj.
  rewrite get_neighbours_and_ranks_eq in E. inversion E; subst nb rk.
  now apply neighbourhood_iff_rank.
Qed.

Lemma neighbourhood_is_ranks_1_to_k_witness :
  In 1 (nth 3 (neighbourhoods [[0]; [1]; [2]; [10]]%float 2) []) /\
  ~ In 0 (nth 3 (neighbourhoods [[0]; [1]; [2]; [10]]%float 2) []).
Proof.
  pose proof (fun j H => neighbourhood_is_ranks_1_to_k [[0]; [1]; [2]; [10]]%float 2
           (neighbourhoods [[0]; [1]; [2]; [10]]%float 2)
           (ranks [[0]; [1]; [2]; [10]]%float) 3 j eq_refl
           ltac:(lia) ltac:(simpl; lia) H) as T.
  split.
  - apply (T 1 ltac:(simpl; lia)). vm_compute. split; discriminate.
  - intros I. apply (T 0 ltac:(simpl; lia)) in I. vm_compute in I.
    destruct I as [_ I]. now apply I.
Defined.

Lemma rank_injective X i a b :
  i < length X -> a < length X -> b < length X ->
  rank X i a = rank X i b -> a = b.
Proof.
  intros Hi Ha Hb E. unfold rank in E.
  assert (N : NoDup (nth i (ranks X) [])).
  { eapply Permutation_NoDup; [symmetry; apply ranks_row_perm, Hi | apply seq_NoDup]. }
  apply (proj1 (NoDup_nth _ 0) N); auto; now rewrite ranks_row_length.
Qed.

(** X4: the neighbourhood holds nearest points: for a point [i] with finite
    coordinates and no twin of smaller index, and [k >= 0], no point other
    than [i] outside the neighbourhood of [i] is closer to [i] than a point
    inside it. *)
Theorem neighbours_are_nearest :
  forall (X : matrix) (k : BinNums.Z) neighbours ranks_matrix (i j j' : nat),
    get_neighbours_and_ranks X k = Ok (neighbours, ranks_matrix) ->
    (0 <= k)%Z -> i < length X -> untwinned X i ->
    In j (nth i neighbours []) ->
    j' < length X -> j' <> i -> ~ In j' (nth i neighbours []) ->
    np_less (distance X i j') (distance X i j) = false.
Proof.
  intros X k nb rk i j j' E Hk Hi [F T] Ij Hj' Ne Nj'.
  rewrite get_neighbours_and_ranks_eq in E. inversion E; subst nb rk.
  change (In j (neighbourhood X k i)) in Ij.
  change (~ In j' (neighbourhood X k i)) in Nj'.
  assert (Hj : j < length X) by exact (neighbourhood_bound X k i j Hi Ij).
  apply neighbourhood_iff_rank in Ij; try assumption.
  rewrite neighbourhood_iff_rank in Nj' by assumption.
  assert (R0 : rank X i j' <> 0).
  { intros R. apply Ne. apply (rank_injective X i); auto.
    now rewrite R, rank_of_self. }
  assert (Lt : rank X i j < rank X i j') by lia.
  unfold rank in Lt. rewrite ranks_row_as_argsort in Lt by exact Hi.
  apply (rank_lt_iff np_less np_less_asym np_less_negtrans _ PrimFloat.zero) in Lt;
    try (now rewrite pairwise_distances_row_length).
  destruct Lt as [L|[L _]]; [apply np_less_asym; exact L | exact L].
Qed.

Lemma neighbours_are_nearest_witness :
  np_less (distance [[0]; [1]; [2]; [10]]%float 3 0)
          (distance [[0]; [1]; [2]; [10]]%float 3 1) = false.
Proof.
  apply (neighbours_are_nearest [[0]; [1]; [2]; [10]]%float 2
           (neighbourhoods [[0]; [1]; [2]; [10]]%float 2)
           (ranks [[0]; [1]; [2]; [10]]%float) 3 1 0 eq_refl).
  - lia.
  - simpl. lia.
  - split; [repeat constructor|].
    intros j Hj. destruct j as [|[|[|j]]]; try (vm_compute; reflexivity). lia.
  - vm_compute. auto.
  - simpl. lia.
  - discriminate.
  - vm_compute. intros [H|[H|[]]]; discriminate.
Defined.

(** X5: in point clouds without twins every intruder is ranked beyond
    [k]: for [X] and [Z] with the same number of rows, [k >= 0] and a point
    [i] that is untwinned in both spaces, each [j] in [Z]'s
    [k]-neighbourhood of [i] but not in [X]'s has a rank above [k] in [X],
    so its summand [rank - k] in [trustworthiness] is at least 1. *)
Theorem intruders_rank_above_k :
  forall (X Z : matrix) (k : BinNums.Z) (i j : nat),
    length X = length Z -> (0 <= k)%Z -> i < length X ->
    untwinned X i -> untwinned Z i ->
    In j (intruders X Z k i) ->
    (k < Z.of_nat (rank X i j))%Z.
Proof.
  intros X Z k i j L Hk Hi [FX TX] [FZ TZ] I.
  unfold intruders in I. apply filter_In in I. destruct I as [Hj M].
  apply in_seq in Hj. apply andb_true_iff in M. destruct M as [MZ MX].
  apply mem_In in MZ. apply negb_true_iff in MX.
  assert (NX : ~ In j (neighbourhood X k i)).
  { intros I. apply mem_In in I. congruence. }
  assert (Ne : j <> i).
  { intros ->. revert MZ. apply neighbourhood_excludes_self; auto. lia. }
  rewrite neighbourhood_iff_rank in NX by (auto; lia).
  assert (R0 : rank X i j <> 0).
  { intros R. apply Ne. apply (rank_injective X i); auto; try lia.
    now rewrite R, rank_of_self. }
  lia.
Qed.

Lemma intruders_rank_above_k_witness :
  (1 < Z.of_nat (rank [[0]; [1]; [2]; [10]]%float 0 3))%Z.
Proof.
  apply (intruders_rank_above_k [[0]; [1]; [2]; [10]]%float
           [[0]; [10]; [2]; [1]]%float 1 0 3).
  - reflexivity.
  - lia.
  - simpl. lia.
  - split; [repeat constructor|]. intros j Hj. lia.
  - split; [repeat constructor|]. intros j Hj. lia.
  - vm_compute. auto.
Defined.

(* ================================================================== *)
(** * Symmetry in the two spaces                                       *)
(* ================================================================== *)

Lemma squared_elementwise_sub_swap (A B : matrix) :
  map (map np_square) (elementwise_sub A B)
  = map (map np_square) (elementwise_sub B A).
Proof.
  unfold elementwise_sub.
  revert B. induction A as [|ra A IH]; intros [|rb B]; simpl; auto.
  rewrite IH. f_equal. apply squared_differences_swap.
Qed.

Lemma sum_of_squared_differences_sym X Z :
  sum_of_squared_differences X Z = sum_of_squared_differences Z X.
Proof.
  unfold sum_of_squared_differences. now rewrite squared_elementwise_sub_swap.
Qed.

(** X6: [RMSE] is symmetric: for [X] and [Z] with the same number of rows,
    [RMSE X Z] and [RMSE Z X] are the same result, bit for bit. *)
Theorem RMSE_is_symmetric :
  forall (X Z : matrix),
    length X = length Z -> RMSE X Z = RMSE Z X.
Proof.
  intros X Z L.
  rewrite (RMSE_same_shape X Z L), (RMSE_same_shape Z X (eq_sym L)).
  now rewrite sum_of_squared_differences_sym, L.
Qed.

Lemma RMSE_is_symmetric_witness :
  RMSE [[0]; [1]; [3]]%float [[0]; [2]; [5]]%float
  = RMSE [[0]; [2]; [5]]%float [[0]; [1]; [3]]%float.
Proof. apply RMSE_is_symmetric. reflexivity. Defined.

Lemma intersect1d_comm a b : intersect1d a b = intersect1d b a.
Proof.
  unfold intersect1d. apply sorted_lt_unique.
  - apply filter_sorted, np_unique_sorted.
  - apply filter_sorted, np_unique_sorted.
  - intros x. rewrite !filter_In, !mem_In. tauto.
Qed.

Lemma for_each_ext {A S : Type} (l : list A) (f g : S -> A -> pyres S) acc :
  (forall s x, In x l -> f s x = g s x) ->
  for_each l f acc = for_each l g acc.
Proof.
  revert acc. induction l as [|x l IH]; intros acc H; simpl; auto.
  rewrite H by now left. destruct (g acc x); simpl; auto.
  apply IH. intros s y I. apply H. now right.
Qed.

(** X7: [neighbouhood_loss] is symmetric: for [X] and [Z] with the same
    number of rows and every [k], [neighbouhood_loss X Z k] and
    [neighbouhood_loss Z X k] are the same result, errors included. *)
Theorem neighbouhood_loss_is_symmetric :
  forall (X Z : matrix) (k : BinNums.Z),
    length X = length Z ->
    neighbouhood_loss X Z k = neighbouhood_loss Z X k.
Proof.
  intros X Z k L. rewrite !neighbouhood_loss_unfold.
  assert (E : neighbouhood_loss_loop X Z k = neighbouhood_loss_loop Z X k).
  { unfold neighbouhood_loss_loop. rewrite <- L.
    apply for_each_ext. intros s row I. apply in_seq in I.
    get_row (neighbourhoods X k) row.
    get_row (neighbourhoods Z k) row.
    now rewrite intersect1d_comm. }
  now rewrite E, L.
Qed.

Lemma neighbouhood_loss_is_symmetric_witness :
  neighbouhood_loss [[0]; [1]; [2]; [10]]%float [[0]; [10]; [2]; [1]]%float 2
  = neighbouhood_loss [[0]; [10]; [2]; [1]]%float [[0]; [1]; [2]; [10]]%float 2.
Proof. apply neighbouhood_loss_is_symmetric. reflexivity. Defined.

(* ================================================================== *)
(** * Point clouds with different numbers of rows                      *)
(* ================================================================== *)

Lemma np_subtract_shapes (A B : matrix) :
  (length A = length B \/ length A = 1 \/ length B = 1 ->
   exists diff, np_subtract A B = Ok diff) /\
  (length A <> length B -> length A <> 1 -> length B <> 1 ->
   np_subtract A B = Raise ValueError).
Proof.
  unfold np_subtract.
  destruct (Nat.eqb_spec (length A) (length B)) as [E|E];
    [split; [eexists; reflexivity | intros; contradiction]|].
  destruct (Nat.eqb_spec (length A) 1) as [E1|E1];
    [split; [eexists; reflexivity | intros; contradiction]|].
  destruct (Nat.eqb_spec (length B) 1) as [E2|E2];
    [split; [eexists; reflexivity | intros; contradiction]|].
  split; [intros [H|[H|H]]; contradiction | reflexivity].
Qed.

(** X8: [stress] and [RMSE] do not compare the shapes themselves: they
    raise [ValueError] exactly when the two clouds have different numbers of
    rows and neither has a single row.  A cloud of one point is broadcast
    against the other cloud without an error. *)
Theorem distortion_measures_raise_on_shape_mismatch :
  forall (X Z : matrix),
    (length X <> length Z /\ length X <> 1 /\ length Z <> 1 ->
     stress X Z = Raise ValueError /\ RMSE X Z = Raise ValueError) /\
    (length X = length Z \/ length X = 1 \/ length Z = 1 ->
     raises (stress X Z) = false /\ raises (RMSE X Z) = false).
Proof.
  intros X Z.
  pose proof (np_subtract_shapes (pairwise_distances X) (pairwise_distances Z)) as [O R].
  rewrite !pairwise_distances_length in O, R.
  split.
  - intros (H1 & H2 & H3). unfold stress, RMSE.
    rewrite (R H1 H2 H3). split; reflexivity.
  - intros H. destruct (O H) as [diff E]. unfold stress, RMSE.
    rewrite E. split; reflexivity.
Qed.

Lemma distortion_measures_raise_on_shape_mismatch_witness :
  stress [[0]; [1]; [3]]%float [[0]; [2]]%float = Raise ValueError /\
  raises (RMSE [[7]]%float [[0]; [2]; [5]]%float) = false.
Proof.
  split.
  - apply (distortion_measures_raise_on_shape_mismatch
             [[0]; [1]; [3]]%float [[0]; [2]]%float).
    simpl. repeat split; lia.
  - apply (distortion_measures_raise_on_shape_mismatch
             [[7]]%float [[0]; [2]; [5]]%float).
    right. left. reflexivity.
Defined.

Lemma getitem_out_of_range {A : Type} (a : list A) i :
  length a <= i -> getitem a i = Raise IndexError.
Proof.
  intros H. unfold getitem. apply nth_error_None in H. now rewrite H.
Qed.

Lemma for_each_raises_at {A S : Type} (l1 l2 : list A) x
    (body : S -> A -> pyres S) e acc :
  (forall s y, In y l1 -> exists s', body s y = Ok s') ->
  (forall s, body s x = Raise e) ->
  for_each (l1 ++ x :: l2) body acc = Raise e.
Proof.
  revert acc. induction l1 as [|y l1 IH]; intros acc H1 Hx; simpl.
  - now rewrite Hx.
  - destruct (H1 acc y (or_introl eq_refl)) as [s' E]. rewrite E. simpl.
    apply IH; auto. intros s z I. apply H1. now right.
Qed.

Lemma seq_split_at n m :
  m < n -> seq 0 n = seq 0 m ++ m :: seq (S m) (n - S m).
Proof.
  intros H. replace n with (m + S (n - S m)) at 1 by lia.
  rewrite seq_app. reflexivity.
Qed.

Lemma for_each_raises_somewhere {A S : Type} (l : list A)
    (body : S -> A -> pyres S) x :
  In x l -> (forall s, raises (body s x) = true) ->
  forall acc, raises (for_each l body acc) = true.
Proof.
  induction l as [|y l IH]; intros I H acc; [destruct I|].
  simpl. destruct (body acc y) as [s'|e] eqn:E; [|reflexivity].
  cbn [bind]. destruct I as [->|I]; [|now apply IH].
  specialize (H acc). rewrite E in H. discriminate.
Qed.

(** X9: when [Z] has fewer rows than [X], [trustworthiness X Z k] raises an
    exception for every [k]: the loop runs over the rows of [X] and reads
    the same row of [Z]'s neighbourhoods.  The exception is [IndexError]
    when [k] fits an int64; when it does not, the [OverflowError] of an
    intruder's rank minus [k] can come first.  [neighbouhood_loss X Z k]
    raises [IndexError] for every [k] other than 0 (and fewer than [2^63]
    rows). *)
Theorem fewer_latent_rows_raise_IndexError :
  forall (X Z : matrix) (k : BinNums.Z),
    length Z < length X ->
    raises (trustworthiness X Z k) = true /\
    (in_int64 k = true -> trustworthiness X Z k = Raise IndexError) /\
    (k <> 0%Z -> (Z.of_nat (length X) < 2 ^ 63)%Z ->
     neighbouhood_loss X Z k = Raise IndexError).
Proof.
  intros X Z k L. split; [|split].
  - rewrite trustworthiness_unfold.
    assert (E : raises (trustworthiness_loop X Z k) = true).
    { unfold trustworthiness_loop. rewrite ranks_length.
      apply (for_each_raises_somewhere _ _ (length Z)); [apply in_seq; lia|].
      intros s. rewrite getitem_out_of_range; [reflexivity|].
      now rewrite neighbourhoods_length. }
    destruct (trustworthiness_loop X Z k); [discriminate | reflexivity].
  - intros K. rewrite trustworthiness_unfold.
    assert (E : trustworthiness_loop X Z k = Raise IndexError).
    { unfold trustworthiness_loop. rewrite ranks_length.
      rewrite (seq_split_at (length X) (length Z) L).
      apply for_each_raises_at.
      - intros s row I. apply in_seq in I.
        get_row (neighbourhoods Z k) row.
        get_row (neighbourhoods X k) row.
        fold (neighbourhood Z k row). fold (neighbourhood X k row).
        apply missing_neighbours_loop_int64; auto; [lia|].
        intros j J. apply setdiff1d_incl in J.
        pose proof (neighbourhood_bound Z k row j ltac:(lia) J). lia.
      - intros s. rewrite getitem_out_of_range; [reflexivity|].
        now rewrite neighbourhoods_length. }
    now rewrite E.
  - intros K B. rewrite neighbouhood_loss_unfold.
    assert (E : neighbouhood_loss_loop X Z k = Raise IndexError).
    { unfold neighbouhood_loss_loop.
      rewrite (seq_split_at (length X) (length Z) L).
      apply for_each_raises_at.
      - intros s row I. apply in_seq in I.
        apply neighbouhood_loss_row_ok; auto; lia.
      - intros s. get_row (neighbourhoods X k) (length Z).
        rewrite getitem_out_of_range; [reflexivity|].
        now rewrite neighbourhoods_length. }
    now rewrite E.
Qed.

(** Three points against two: [IndexError] for [k = 1]; for [k = 2^63] and
    a first point with a twin, the subtraction fails before the missing
    row is read. *)
Lemma fewer_latent_rows_raise_IndexError_witness :
  trustworthiness [[0]; [1]; [3]]%float [[0]; [2]]%float 1 = Raise IndexError /\
  neighbouhood_loss [[0]; [1]; [3]]%float [[0]; [2]]%float 1 = Raise IndexError /\
  raises (trustworthiness [[0]; [0]; [5]]%float [[0]; [5]]%float (2 ^ 63)) = true /\
  trustworthiness [[0]; [0]; [5]]%float [[0]; [5]]%float (2 ^ 63) = Raise OverflowError.
Proof.
  destruct (fewer_latent_rows_raise_IndexError
              [[0]; [1]; [3]]%float [[0]; [2]]%float 1 ltac:(simpl; lia))
    as (_ & T & N).
  destruct (fewer_latent_rows_raise_IndexError
              [[0]; [0]; [5]]%float [[0]; [5]]%float (2 ^ 63) ltac:(simpl; lia))
    as (R & _).
  split; [|split; [|split]].
  - apply T. reflexivity.
  - apply N; [discriminate | simpl; lia].
  - exact R.
  - vm_compute. reflexivity.
Defined.

(* ================================================================== *)
(** * The sign of stress and RMSE                                      *)
(* ================================================================== *)

Lemma div_core_nonneg m1 e1 m2 e2 :
  (0 <= fst (fst (SFdiv_core_binary prec emax (Z.pos m1) e1 (Z.pos m2) e2)))%Z.
Proof.
  unfold SFdiv_core_binary.
  match goal with |- context [Z.div_eucl ?a ?b] =>
    assert (N : (0 <= a)%Z);
    [| pose proof (Z.div_pos a b N ltac:(lia)) as Q; unfold Z.div in Q;
       destruct (Z.div_eucl a b) as [q r]; exact Q] end.
  match goal with |- context [match ?s with Z0 => _ | Z.pos _ => _ | Z.neg _ => _ end] =>
    destruct s end; try lia.
  apply Z.shiftl_nonneg. lia.
Qed.

Lemma div_nonneg_or_nan x y :
  nonneg_or_nan x -> nonneg_or_nan y -> nonneg_or_nan (PrimFloat.div x y).
Proof.
  unfold nonneg_or_nan. rewrite div_spec. unfold SF64div.
  destruct (Prim2SF x) as [sx|sx| |sx mx ex]; intros Hx; subst;
    try (destruct (Prim2SF y); exact I);
    (destruct (Prim2SF y) as [sy|sy| |sy my ey]; intros Hy; subst;
     try exact I; try reflexivity).
  unfold SFdiv.
  pose proof (div_core_nonneg mx ex my ey) as N.
  destruct (SFdiv_core_binary prec emax (Z.pos mx) ex (Z.pos my) ey) as [[mz ez] lz].
  simpl in N.
  pose proof (binary_round_aux_signed (xorb false false) mz ez lz N) as S.
  destruct (binary_round_aux _ _ _ _ _ _); simpl in S; auto; contradiction.
Qed.

Lemma sqrt_nonneg_or_nan x : nonneg_or_nan x -> nonneg_or_nan (PrimFloat.sqrt x).
Proof.
  unfold nonneg_or_nan. rewrite sqrt_spec. unfold SF64sqrt. intros H.
  pose proof (SFsqrt_signed_false (Prim2SF x)) as S.
  destruct (Prim2SF x) as [s|s| |s m e]; subst; try exact I;
    specialize (S eq_refl); destruct (SFsqrt _ _ _); simpl in S; auto; contradiction.
Qed.

Lemma nonneg_or_nan_not_negative x :
  nonneg_or_nan x -> PrimFloat.ltb x PrimFloat.zero = false.
Proof.
  unfold nonneg_or_nan. rewrite ltb_spec, Prim2SF_zero.
  destruct (Prim2SF x) as [s|s| |s m e]; intros H; subst; reflexivity.
Qed.

(** The binary64 number of a non-negative value is not negative. *)
Lemma SF2Prim_nonneg x : sf_signed false x -> nonneg (SF2Prim x).
Proof.
  unfold nonneg. destruct x as [[]|[]| |[] m e]; simpl sf_signed;
    try discriminate; try contradiction; intros _; try reflexivity.
  cbn [SF2Prim]. rewrite Z_ldexp_spec, of_uint63_spec.
  match goal with |- context [binary_normalize _ _ (Uint63.to_Z ?i) _ _] =>
    pose proof (Uint63.to_Z_bounded i) as [B _];
    destruct (Uint63.to_Z i) as [|q|q] end; try lia.
  - exact eq_refl.
  - cbn [binary_normalize].
    pose proof (binary_round_signed false q 0) as S.
    destruct (binary_round prec emax false q 0) as [s|s| |s mx ex];
      cbn [sf_signed SFldexp] in *; auto.
    subst s. apply binary_round_signed.
Qed.

Lemma Z2F_nonneg z : (0 <= z)%Z -> nonneg (Z2F z).
Proof.
  intros H. unfold Z2F. apply SF2Prim_nonneg.
  destruct z as [|p|p]; try lia; [reflexivity|].
  apply binary_round_signed.
Qed.

Lemma Z2F_nonneg_or_nan z : (0 <= z)%Z -> nonneg_or_nan (Z2F z).
Proof. intros H. now apply nonneg_is_nonneg_or_nan, Z2F_nonneg. Qed.

Lemma Ok_inj {A : Type} (a b : A) : Ok a = Ok b -> a = b.
Proof. intros H. now inversion H. Qed.

Lemma np_sqrt_of_quotient x y v w :
  nonneg_or_nan x -> nonneg_or_nan y ->
  np_sqrt (np_true_divide x y) = (v, w) ->
  nonneg_or_nan v.
Proof.
  intros Hx Hy E.
  pose proof (div_nonneg_or_nan x y Hx Hy) as Q.
  unfold np_true_divide in *. cbn [np_sqrt snd] in *.
  inversion E; subst. now apply sqrt_nonneg_or_nan.
Qed.

(** X10: whatever the inputs, a value returned by [stress] or [RMSE] is
    never below zero and never [-0] or [-infinity]: it is [+0], positive,
    [+infinity] or NaN.  Squares are not negative, nor is their sum in
    whatever order it is taken, nor the quotient of two such sums or its
    square root. *)
Theorem distortion_measures_are_never_negative :
  forall (X Z : matrix) (v : float) (w : list RuntimeWarning),
    stress X Z = Ok (v, w) \/ RMSE X Z = Ok (v, w) ->
    PrimFloat.ltb v PrimFloat.zero = false /\ nonneg_or_nan v.
Proof.
  intros X Z v w H.
  assert (R : nonneg_or_nan v).
  { destruct H as [H|H].
    - unfold stress in H.
      destruct (np_subtract (pairwise_distances X) (pairwise_distances Z))
        as [diff|e]; [|discriminate H].
      cbn [bind] in H. apply Ok_inj in H.
      exact (np_sqrt_of_quotient _ _ v w (squares_nonneg_or_nan diff)
               (squares_nonneg_or_nan (pairwise_distances Z)) H).
    - unfold RMSE in H.
      destruct (np_subtract (pairwise_distances X) (pairwise_distances Z))
        as [diff|e]; [|discriminate H].
      cbn [bind] in H. apply Ok_inj in H.
      apply (np_sqrt_of_quotient _ (Z2F (Z.of_nat (length (pairwise_distances X)) ^ 2))
               v w (squares_nonneg_or_nan diff)); [|exact H].
      apply Z2F_nonneg_or_nan, Z.pow_nonneg. lia. }
  split; [now apply nonneg_or_nan_not_negative | exact R].
Qed.

(** A latent space collapsed to one point: the stress is [+infinity]. *)
Lemma distortion_measures_are_never_negative_witness :
  stress [[0]; [1]]%float [[0]; [0]]%float = Ok (infinity, [DivideByZero]) /\
  PrimFloat.ltb infinity PrimFloat.zero = false /\ nonneg_or_nan infinity.
Proof.
  assert (E : stress [[0]; [1]]%float [[0]; [0]]%float = Ok (infinity, [DivideByZero]))
    by (vm_compute; reflexivity).
  split; [exact E|].
  apply (distortion_measures_are_never_negative
           [[0]; [1]]%float [[0]; [0]]%float infinity [DivideByZero]).
  left. exact E.
Defined.

(* ================================================================== *)
(** * A space compared with itself                                     *)
(* ================================================================== *)

Lemma filter_none {A : Type} (f : A -> bool) l :
  (forall x, In x l -> f x = false) -> filter f l = [].
Proof.
  induction l as [|x l IH]; intros H; simpl; auto.
  rewrite H by now left. apply IH. intros y I. apply H. now right.
Qed.

Lemma setdiff1d_diag a : setdiff1d a a = [].
Proof.
  unfold setdiff1d. apply filter_none. intros x I.
  apply negb_false_iff. now apply mem_In.
Qed.

Lemma trustworthiness_loop_self X k :
  trustworthiness_loop X X k = Ok PrimFloat.zero.
Proof.
  unfold trustworthiness_loop. rewrite ranks_length.
  generalize PrimFloat.zero as acc.
  assert (G : forall l acc, (forall row, In row l -> row < length X) ->
    for_each l
      (fun result row =>
         Z_row <- getitem (neighbourhoods X k) row ;;
         X_row <- getitem (neighbourhoods X k) row ;;
         let missing_neighbours := setdiff1d Z_row X_row in
         for_each missing_neighbours
           (fun result neighbour =>
              ranks_row <- getitem (ranks X) row ;;
              rank <- getitem ranks_row neighbour ;;
              difference <- int64_sub_pyint (Z.of_nat rank) k ;;
              Ok (PrimFloat.add result (Z2F difference)))
           result) acc = Ok acc).
  { induction l as [|row l IH]; intros acc H; simpl; auto.
    assert (Hr : row < length X) by (apply H; now left).
    get_row (neighbourhoods X k) row.
    rewrite setdiff1d_diag. simpl. apply IH. intros r I. apply H. now right. }
  intros acc. apply G. intros row I. apply in_seq in I. lia.
Qed.

(** X11: a space has trustworthiness and continuity 1 with respect to
    itself: for every [X] and every [k] for which the normalisation constant
    [n k (2n - 3k - 1)] is not zero (and below [2^53] in absolute value),
    [trustworthiness X X k] and [continuity X X k] return exactly 1. *)
Theorem trustworthiness_of_identical_spaces :
  forall (X : matrix) (k : BinNums.Z),
    let n := Z.of_nat (length X) in
    (0 < Z.abs (n * k * (2 * n - 3 * k - 1)) < 2 ^ 53)%Z ->
    trustworthiness X X k = Ok PrimFloat.one /\
    continuity X X k = Ok PrimFloat.one.
Proof.
  intros X k n H.
  assert (T : trustworthiness X X k = Ok PrimFloat.one).
  { rewrite trustworthiness_unfold, trustworthiness_loop_self. cbn [bind].
    fold n. rewrite int_truediv_exact; [|simpl; lia | lia | left; lia].
    cbn [bind]. f_equal. apply finite_times_zero, int_quotient_finite; [|exact H].
    simpl. lia. }
  split; [exact T | exact T].
Qed.

Lemma trustworthiness_of_identical_spaces_witness :
  trustworthiness [[0]; [0]; [5]; [2]]%float [[0]; [0]; [5]; [2]]%float 2
  = Ok PrimFloat.one /\
  continuity [[0]; [0]; [5]; [2]]%float [[0]; [0]; [5]; [2]]%float 2
  = Ok PrimFloat.one.
Proof.
  apply (trustworthiness_of_identical_spaces [[0]; [0]; [5]; [2]]%float 2).
  simpl. lia.
Defined.

(* ================================================================== *)
(** * The shape of the neighbourhood and rank matrices                 *)
(* ================================================================== *)

Lemma neighbourhood_row_length X k i :
  i < length X ->
  length (neighbourhood X k i) = neighbourhood_size (length X) k.
Proof.
  intros Hi. rewrite neighbourhood_row by exact Hi.
  destruct (ordering_nonempty X i Hi) as (x & tl & E & L).
  rewrite E, py_slice_cons_1, length_firstn, <- L.
  unfold slice_bound, neighbourhood_size.
  destruct (Z.leb_spec 0 k) as [P|N].
  - replace (k + 1 <? 0)%Z with false by (symmetry; apply Z.ltb_ge; lia). lia.
  - destruct (Z.eqb_spec k (-1)) as [->|M].
    + replace (-1 + 1 <? 0)%Z with false by reflexivity. lia.
    + replace (k + 1 <? 0)%Z with true by (symmetry; apply Z.ltb_lt; lia). lia.
Qed.

(** X12: for every [X] with [n] rows and every integer [k],
    [get_neighbours_and_ranks] returns two matrices of [n] rows; each row
    of the rank matrix has [n] entries, and each row of the neighbourhood
    matrix has [min k (n-1)] entries for [k >= 0], none for [k = -1] and
    [max 0 (n + k)] for [k <= -2], all of them distinct indices below [n]. *)
Theorem neighbourhood_matrix_shape :
  forall (X : matrix) (k : BinNums.Z) neighbours ranks_matrix,
    get_neighbours_and_ranks X k = Ok (neighbours, ranks_matrix) ->
    length neighbours = length X /\ length ranks_matrix = length X /\
    forall i, i < length X ->
      length (nth i ranks_matrix []) = length X /\
      length (nth i neighbours []) = neighbourhood_size (length X) k /\
      NoDup (nth i neighbours []) /\
      (forall j, In j (nth i neighbours []) -> j < length X).
Proof.
  intros X k nb rk E.
  rewrite get_neighbours_and_ranks_eq in E. inversion E; subst nb rk.
  split; [apply neighbourhoods_length|]. split; [apply ranks_length|].
  intros i Hi. split; [now apply ranks_row_length|].
  split; [now apply neighbourhood_row_length|].
  split; [now apply neighbourhood_NoDup|].
  intros j I. now apply (neighbourhood_bound X k i).
Qed.

Lemma neighbourhood_matrix_shape_witness :
  length (nth 2 (neighbourhoods [[0]; [1]; [2]; [10]; [4]]%float (-3)) []) = 2 /\
  length (nth 2 (neighbourhoods [[0]; [1]; [2]; [10]; [4]]%float (-1)) []) = 0 /\
  length (nth 2 (neighbourhoods [[0]; [1]; [2]; [10]; [4]]%float 3) []) = 3.
Proof.
  pose proof (fun k => neighbourhood_matrix_shape [[0]; [1]; [2]; [10]; [4]]%float k
                (neighbourhoods [[0]; [1]; [2]; [10]; [4]]%float k)
                (ranks [[0]; [1]; [2]; [10]; [4]]%float) eq_refl) as S.
  split; [|split].
  - apply (S (-3)%Z). simpl. lia.
  - apply (S (-1)%Z). simpl. lia.
  - apply (S 3%Z). simpl. lia.
Defined.

(* ================================================================== *)
(** * Clouds with the same distances                                   *)
(* ================================================================== *)

(** X13: [stress] and [RMSE] see the two clouds only through their distance
    matrices, and vanish for an isometric pair: when [X] and [Z] have the
    same distance matrix, with finite entries, [stress X Z] is 0 if the sum
    of the squared distances is positive, and [RMSE X Z] is 0 if there is
    at least one row. *)
Theorem isometric_clouds_have_zero_distortion :
  forall (X Z : matrix),
    pairwise_distances X = pairwise_distances Z ->
    finite_distances Z ->
    (PrimFloat.ltb PrimFloat.zero (sum_of_squares Z) = true ->
     stress X Z = Ok (PrimFloat.zero, [])) /\
    (0 < length Z -> (Z.of_nat (length Z) ^ 2 < 2 ^ 53)%Z ->
     RMSE X Z = Ok (PrimFloat.zero, [])).
Proof.
  intros X Z E F.
  assert (S : stress X Z = stress Z Z) by (unfold stress; now rewrite E).
  assert (R : RMSE X Z = RMSE Z Z) by (unfold RMSE; now rewrite E).
  rewrite S, R. split.
  - intros H. rewrite stress_same_shape, sum_of_squared_differences_self by auto.
    now rewrite np_true_divide_zero_pos.
  - intros N B. rewrite RMSE_same_shape, sum_of_squared_differences_self by auto.
    rewrite np_true_divide_zero_pos; [reflexivity|].
    apply Z2F_pos. split; [|exact B]. apply Z.pow_pos_nonneg; lia.
Qed.

Lemma isometric_clouds_have_zero_distortion_witness :
  stress [[0; 0]; [1; 0]; [2; 0]]%float [[0; 0]; [0; 1]; [0; 2]]%float
  = Ok (PrimFloat.zero, []) /\
  RMSE [[0; 0]; [1; 0]; [2; 0]]%float [[0; 0]; [0; 1]; [0; 2]]%float
  = Ok (PrimFloat.zero, []).
Proof.
  assert (F : finite_distances [[0; 0]; [0; 1]; [0; 2]]%float).
  { unfold finite_distances. vm_compute. repeat constructor. }
  destruct (isometric_clouds_have_zero_distortion
              [[0; 0]; [1; 0]; [2; 0]]%float [[0; 0]; [0; 1]; [0; 2]]%float
              ltac:(vm_compute; reflexivity) F) as [S R].
  split.
  - apply S. vm_compute. reflexivity.
  - apply R; simpl; lia.
Defined.
